(** * RainCache: LRU, LRU-K, sharded LRU and ARC

    A shallow embedding of [RainLru.h], [RainArc/RainArc.h] and
    [RainArc/RainArcLru.h], and the properties of these caches.

    Representation of the pointer structures.  Every cache owns its
    nodes through an [unordered_map] from the key to a shared pointer,
    and links the same nodes in a doubly linked list between two dummy
    nodes.  Here the map is a [gmap] from the key to the fields of the
    node, and the linked list is the list of the keys of the linked
    nodes, read from the dummy head to the dummy tail.  Mutexes are
    left out: every operation holds the lock of the object it works on
    for its whole body, so a single thread of calls is modelled. *)

From Stdlib Require Import ZArith Lia.
From stdpp Require Import base decidable option list gmap fin_maps strings.

Open Scope Z_scope.

#[local] Set Warnings "-clear-no-such-hyp".

(** ** Machine integers *)

(** [size_t] is a 64 bit unsigned integer: a value converted to it, or
    the result of arithmetic on it, is reduced modulo [2^64]. *)
Definition to_size_t (z : Z) : Z := z mod 2 ^ 64.

(** [int] is a 32 bit signed integer; this is the narrowing conversion
    of a [size_t] argument passed for an [int] parameter. *)
Definition to_int (z : Z) : Z := (z + 2 ^ 31) mod 2 ^ 32 - 2 ^ 31.

(** Value initialisation [T{}] / [T()] of a C++ type. *)
Class Default (T : Type) := dflt : T.

(** [int{}] and [size_t{}] are zero. *)
#[export] Instance Default_Z : Default Z := 0.

(** [std::string{}] is the empty string. *)
#[export] Instance Default_string : Default string := EmptyString.

(** ** Linked lists of nodes, named by their keys *)

Section Links.
Context {K : Type} `{EqDecision K}.

(** The unlink step shared by [removeNode], [removeFromMain] and
    [removeFromGhost]: the node is taken out of the list when it is
    linked, and nothing happens otherwise. *)
Fixpoint unlink (k : K) (l : list K) : list K :=
  match l with
  | [] => []
  | x :: r => if decide (x = k) then r else x :: unlink k r
  end.

(** The node before the dummy tail, if the list has a node. *)
Definition back (l : list K) : option K := last l.

(** The list without the node before the dummy tail. *)
Definition drop_back (l : list K) : list K := removelast l.
End Links.

(** ** RainLru *)

Module RainLru.
Section Lru.
Context {K : Type} `{Countable K} `{Default K} {V : Type}.

(** [LruNode]: the key names the node; [next_] and [prev_] are the
    position of the key in [list_]. *)
Record LruNode : Type := mkNode {
  value_ : V;
  accessCount_ : Z
}.

Definition setValue (v : V) (n : LruNode) : LruNode :=
  {| value_ := v; accessCount_ := accessCount_ n |}.

Definition incrementAccessCount (n : LruNode) : LruNode :=
  {| value_ := value_ n; accessCount_ := to_size_t (accessCount_ n + 1) |}.

(** The constructor [LruNode(key, value)]. *)
Definition newNode (v : V) : LruNode :=
  {| value_ := v; accessCount_ := 1 |}.

(** [list_] runs from [dummyHead_] to [dummyTail_]: the least
    recently used node comes first. *)
Record t : Type := mk {
  capacity_ : Z;
  nodeMap_ : gmap K LruNode;
  list_ : list K
}.

(** [RainLru(int capacity)] with [initializeList]. *)
Definition init (capacity : Z) : t :=
  {| capacity_ := capacity; nodeMap_ := ∅; list_ := [] |}.

Definition removeNode (k : K) (l : list K) : list K := unlink k l.

(** Links the node just before [dummyTail_]. *)
Definition insertNode (k : K) (l : list K) : list K := l ++ [k].

Definition moveToMostRecent (k : K) (l : list K) : list K :=
  insertNode k (removeNode k l).

(** [leastRecent] is [dummyHead_->next_].  On an empty list that is
    [dummyTail_], which [removeNode] leaves alone and whose key is
    [Key()]. *)
Definition evictLeastRecent (s : t) : t :=
  match head (list_ s) with
  | Some k =>
      {| capacity_ := capacity_ s;
         nodeMap_ := delete k (nodeMap_ s);
         list_ := removeNode k (list_ s) |}
  | None =>
      {| capacity_ := capacity_ s;
         nodeMap_ := delete dflt (nodeMap_ s);
         list_ := list_ s |}
  end.

Definition updateExistingNode (k : K) (node : LruNode) (v : V) (s : t) : t :=
  {| capacity_ := capacity_ s;
     nodeMap_ := <[k := setValue v node]> (nodeMap_ s);
     list_ := moveToMostRecent k (list_ s) |}.

(** [nodeMap_.size() >= capacity_] compares a [size_t] with an [int],
    which converts the [int]. *)
Definition addNewNode (k : K) (v : V) (s : t) : t :=
  let s1 :=
    if to_size_t (capacity_ s) <=? Z.of_nat (size (nodeMap_ s))
    then evictLeastRecent s else s in
  {| capacity_ := capacity_ s1;
     nodeMap_ := <[k := newNode v]> (nodeMap_ s1);
     list_ := insertNode k (list_ s1) |}.

Definition put (k : K) (v : V) (s : t) : t :=
  if capacity_ s <=? 0 then s
  else match nodeMap_ s !! k with
       | Some node => updateExistingNode k node v s
       | None => addNewNode k v s
       end.

(** [bool get(Key, Value&)]: [Some v] stands for [true] with [v]
    written to the out parameter, [None] for [false] with the out
    parameter untouched. *)
Definition get (k : K) (s : t) : t * option V :=
  match nodeMap_ s !! k with
  | Some node =>
      ({| capacity_ := capacity_ s;
          nodeMap_ := nodeMap_ s;
          list_ := moveToMostRecent k (list_ s) |},
       Some (value_ node))
  | None => (s, None)
  end.

(** [Value get(Key)]: the out parameter starts as [Value{}]. *)
Definition get_value `{Default V} (k : K) (s : t) : t * V :=
  let '(s1, r) := get k s in (s1, default dflt r).

Definition remove (k : K) (s : t) : t :=
  match nodeMap_ s !! k with
  | Some _ =>
      {| capacity_ := capacity_ s;
         nodeMap_ := delete k (nodeMap_ s);
         list_ := removeNode k (list_ s) |}
  | None => s
  end.

(** The access count of the entry of [k], if it is resident. *)
Definition accessCount (k : K) (s : t) : option Z :=
  accessCount_ <$> nodeMap_ s !! k.

Definition contains (k : K) (s : t) : bool :=
  bool_decide (is_Some (nodeMap_ s !! k)).

(** The operations of the public interface, for sequences of calls. *)
Inductive op : Type :=
| Get (k : K)
| Put (k : K) (v : V)
| Remove (k : K).

Definition step (s : t) (o : op) : t :=
  match o with
  | Get k => fst (get k s)
  | Put k v => put k v s
  | Remove k => remove k s
  end.

Definition run (ops : list op) (s : t) : t := foldl step s ops.

(** The invariant of the representation: the linked nodes are the
    nodes the map owns, each linked once, and there are no more of
    them than the capacity allows. *)
Record wf (s : t) : Prop := mk_wf {
  wf_nodup : NoDup (list_ s);
  wf_linked : ∀ k, k ∈ list_ s ↔ is_Some (nodeMap_ s !! k);
  wf_size : Z.of_nat (size (nodeMap_ s)) ≤ Z.max 0 (capacity_ s)
}.

(** Every resident entry has the access count it was created with. *)
Definition counts_initial (s : t) : Prop :=
  ∀ j n, accessCount j s = Some n → n = 1.
End Lru.
Arguments LruNode : clear implicits.
Arguments t K {_ _} V.
Arguments op : clear implicits.
End RainLru.

(** ** RainLruK *)

Module RainLruK.
Section LruK.
Context {K : Type} `{Countable K} `{Default K} {V : Type} `{Default V}.

(** The base class object is the main cache; [historyList_] is an
    LRU from the key to its [size_t] count of accesses. *)
Record t : Type := mk {
  main : RainLru.t K V;
  k_ : Z;
  historyList_ : RainLru.t K Z;
  historyValueMap_ : gmap K V
}.

(** [RainLruK(int capacity, int historyCapacity, int k)]. *)
Definition init (capacity historyCapacity k : Z) : t :=
  {| main := RainLru.init capacity;
     k_ := k;
     historyList_ := RainLru.init historyCapacity;
     historyValueMap_ := ∅ |}.

(** [historyList_->get(key)], [historyCount++] and
    [historyList_->put(key, historyCount)]: the new count and the
    history that holds it. *)
Definition bumpHistory (key : K) (h : RainLru.t K Z) : RainLru.t K Z * Z :=
  let '(h1, c) := RainLru.get_value key h in
  let historyCount := to_size_t (c + 1) in
  (RainLru.put key historyCount h1, historyCount).

(** [historyCount >= k_] compares a [size_t] with an [int]. *)
Definition reached (historyCount k : Z) : bool :=
  to_size_t k <=? historyCount.

Definition get (key : K) (s : t) : t * V :=
  let '(m1, inMainCache) := RainLru.get key (main s) in
  let '(h2, historyCount) := bumpHistory key (historyList_ s) in
  match inMainCache with
  | Some value =>
      ({| main := m1; k_ := k_ s; historyList_ := h2;
          historyValueMap_ := historyValueMap_ s |}, value)
  | None =>
      if reached historyCount (k_ s) then
        match historyValueMap_ s !! key with
        | Some storedValue =>
            ({| main := RainLru.put key storedValue m1;
                k_ := k_ s;
                historyList_ := RainLru.remove key h2;
                historyValueMap_ := delete key (historyValueMap_ s) |},
             storedValue)
        | None =>
            ({| main := m1; k_ := k_ s; historyList_ := h2;
                historyValueMap_ := historyValueMap_ s |}, dflt)
        end
      else
        ({| main := m1; k_ := k_ s; historyList_ := h2;
            historyValueMap_ := historyValueMap_ s |}, dflt)
  end.

Definition put (key : K) (value : V) (s : t) : t :=
  let '(m1, inMainCache) := RainLru.get key (main s) in
  match inMainCache with
  | Some _ =>
      {| main := RainLru.put key value m1; k_ := k_ s;
         historyList_ := historyList_ s;
         historyValueMap_ := historyValueMap_ s |}
  | None =>
      let '(h2, historyCount) := bumpHistory key (historyList_ s) in
      let hv := <[key := value]> (historyValueMap_ s) in
      if reached historyCount (k_ s) then
        {| main := RainLru.put key value m1; k_ := k_ s;
           historyList_ := RainLru.remove key h2;
           historyValueMap_ := delete key hv |}
      else
        {| main := m1; k_ := k_ s; historyList_ := h2;
           historyValueMap_ := hv |}
  end.

(** The operations of the public interface, for sequences of calls. *)
Inductive op : Type :=
| Get (key : K)
| Put (key : K) (value : V).

Definition opKey (o : op) : K :=
  match o with Get k => k | Put k _ => k end.

Definition step (s : t) (o : op) : t :=
  match o with
  | Get k => fst (get k s)
  | Put k v => put k v s
  end.

Definition run (ops : list op) (s : t) : t := foldl step s ops.

(** A sequence of [put] calls, one for each pair of the list. *)
Definition putAll (l : list (K * V)) (s : t) : t :=
  run (map (λ kv, Put kv.1 kv.2) l) s.

(** The history LRU of a new cache after [n] accesses of one key and
    of no other: it holds the count [n] for that key. *)
Definition historyOf (historyCapacity : Z) (key : K) (n : nat) : RainLru.t K Z :=
  match n with
  | O => RainLru.init historyCapacity
  | S _ =>
      {| RainLru.capacity_ := historyCapacity;
         RainLru.nodeMap_ :=
           {[ key := {| RainLru.value_ := Z.of_nat n; RainLru.accessCount_ := 1 |} ]};
         RainLru.list_ := [key] |}
  end.

(** The invariant of the two inner caches and of the side table: both
    caches are well formed, and no key of the main cache has a value
    in the side table. *)
Record wf (s : t) : Prop := mk_wf {
  wf_main : RainLru.wf (main s);
  wf_history : RainLru.wf (historyList_ s);
  wf_disjoint :
    ∀ key, is_Some (RainLru.nodeMap_ (main s) !! key) → historyValueMap_ s !! key = None
}.
End LruK.
Arguments t K {_ _} V.
Arguments op : clear implicits.
End RainLruK.

(** ** RainLruHash *)

Module RainLruHash.
Section Sharded.
Context {K : Type} `{Countable K} `{Default K} {V : Type} `{Default V}.

(** [std::hash<Key>], a function to [size_t]. *)
Variable hashFunc : K → Z.

(** [std::thread::hardware_concurrency()]. *)
Variable hardware_concurrency : Z.

Record t : Type := mk {
  capacity_ : Z;
  sliceNum_ : Z;
  lruSliceCaches_ : list (RainLru.t K V)
}.

(** [std::ceil(capacity / static_cast<double>(sliceNum_))] as a
    [size_t].  The quotient of the two doubles is the exact rounded
    up quotient as long as [capacity < 2^53], which is the range this
    definition covers. *)
Definition sliceSize (capacity sliceNum : Z) : Z :=
  (capacity + sliceNum - 1) / sliceNum.

(** The constructor: [sliceSize] is a [size_t] passed to
    [RainLru(int)]. *)
Definition init (capacity sliceNum : Z) : t :=
  let n := if 0 <? sliceNum then sliceNum
           else to_int hardware_concurrency in
  {| capacity_ := capacity;
     sliceNum_ := n;
     lruSliceCaches_ :=
       replicate (Z.to_nat n) (RainLru.init (to_int (sliceSize capacity n))) |}.

Definition Hash (key : K) : Z := to_size_t (hashFunc key).

(** [Hash(key) % sliceNum_] is computed in [size_t]. *)
Definition sliceIndex (key : K) (s : t) : nat :=
  Z.to_nat (Hash key mod to_size_t (sliceNum_ s)).

(** [lruSliceCaches_[sliceIndex]] is not bounds checked; the index is
    below the number of slices whenever [sliceNum_ > 0]. *)
Definition put (key : K) (value : V) (s : t) : t :=
  let i := sliceIndex key s in
  match lruSliceCaches_ s !! i with
  | Some c =>
      {| capacity_ := capacity_ s; sliceNum_ := sliceNum_ s;
         lruSliceCaches_ := <[i := RainLru.put key value c]> (lruSliceCaches_ s) |}
  | None => s
  end.

Definition get (key : K) (s : t) : t * option V :=
  let i := sliceIndex key s in
  match lruSliceCaches_ s !! i with
  | Some c =>
      let '(c1, r) := RainLru.get key c in
      ({| capacity_ := capacity_ s; sliceNum_ := sliceNum_ s;
          lruSliceCaches_ := <[i := c1]> (lruSliceCaches_ s) |}, r)
  | None => (s, None)
  end.

(** The number of resident entries over all slices. *)
Definition resident (s : t) : nat :=
  sum_list (map (λ c, size (RainLru.nodeMap_ c)) (lruSliceCaches_ s)).

(** A sequence of [put] calls, one for each pair of the list. *)
Definition putAll (l : list (K * V)) (s : t) : t :=
  foldl (λ s kv, put kv.1 kv.2 s) s l.

(** The slices are well formed LRU caches of capacity [c], and there
    are [sliceNum_] of them. *)
Record wf (c : Z) (s : t) : Prop := mk_wf {
  wf_length : length (lruSliceCaches_ s) = Z.to_nat (sliceNum_ s);
  wf_slices :
    Forall (λ x, RainLru.wf x ∧ RainLru.capacity_ x = c) (lruSliceCaches_ s)
}.
End Sharded.
Arguments t K {_ _} V.
End RainLruHash.

(** ** ArcNode and the state of one half of the ARC cache *)

Module ArcNode.
Section Node.
Context {V : Type}.

(** Modelled from the spec: [RainArcNode.h] is not among the sources.
    An entry is a record [(key, value, access_count)]; the access
    count is an integer that starts at 1 and is incremented by one.
    The key names the node, as for [LruNode]. *)
Record t : Type := mk {
  value_ : V;
  accessCount_ : Z
}.

(** Modelled from the spec: a new node has access count 1. *)
Definition newNode (v : V) : t := {| value_ := v; accessCount_ := 1 |}.

(** Modelled from the spec: an update replaces the value in place. *)
Definition setValue (v : V) (n : t) : t :=
  {| value_ := v; accessCount_ := accessCount_ n |}.

(** Modelled from the spec: an access increments the count. *)
Definition incrementAccessCount (n : t) : t :=
  {| value_ := value_ n; accessCount_ := accessCount_ n + 1 |}.

(** The assignment [node->accessCount_ = 1] of [addToGhost]. *)
Definition resetAccessCount (n : t) : t :=
  {| value_ := value_ n; accessCount_ := 1 |}.
End Node.
Arguments t : clear implicits.
End ArcNode.

Module ArcLruPart.
Section Part.
Context {K : Type} `{Countable K} {V : Type}.

(** The fields of [ArcLruPart].  Both lists run from their dummy head
    to their dummy tail: the most recently linked node comes first.
    Two nodes of one key can be linked in the ghost list at a time;
    [ghostCache_] then holds the one linked last, which is the first
    of them in [ghostList]. *)
Record t : Type := mk {
  capacity_ : Z;
  ghostCapacity_ : Z;
  transformThreshold_ : Z;
  mainCache_ : gmap K (ArcNode.t V);
  ghostCache_ : gmap K (ArcNode.t V);
  mainList : list K;
  ghostList : list K
}.

(** [ArcLruPart(size_t capacity, size_t transformThreshold)] with
    [initializeLists]. *)
Definition init (capacity transformThreshold : Z) : t :=
  {| capacity_ := capacity;
     ghostCapacity_ := capacity;
     transformThreshold_ := transformThreshold;
     mainCache_ := ∅; ghostCache_ := ∅;
     mainList := []; ghostList := [] |}.

Definition set_capacity (c : Z) (s : t) : t :=
  {| capacity_ := c; ghostCapacity_ := ghostCapacity_ s;
     transformThreshold_ := transformThreshold_ s;
     mainCache_ := mainCache_ s; ghostCache_ := ghostCache_ s;
     mainList := mainList s; ghostList := ghostList s |}.

Definition set_main (m : gmap K (ArcNode.t V)) (l : list K) (s : t) : t :=
  {| capacity_ := capacity_ s; ghostCapacity_ := ghostCapacity_ s;
     transformThreshold_ := transformThreshold_ s;
     mainCache_ := m; ghostCache_ := ghostCache_ s;
     mainList := l; ghostList := ghostList s |}.

Definition set_ghost (g : gmap K (ArcNode.t V)) (l : list K) (s : t) : t :=
  {| capacity_ := capacity_ s; ghostCapacity_ := ghostCapacity_ s;
     transformThreshold_ := transformThreshold_ s;
     mainCache_ := mainCache_ s; ghostCache_ := g;
     mainList := mainList s; ghostList := l |}.

Definition addToFront (k : K) (l : list K) : list K := k :: l.

Definition moveToFront (k : K) (l : list K) : list K :=
  addToFront k (unlink k l).

(** [oldestGhost] is the node before [ghostTail_]; nothing happens on
    an empty ghost list. *)
Definition removeOldestGhost (s : t) : t :=
  match back (ghostList s) with
  | None => s
  | Some oldestGhost =>
      set_ghost (delete oldestGhost (ghostCache_ s))
                (drop_back (ghostList s)) s
  end.

(** Resets the access count, links the node first in the ghost list
    and enters it in [ghostCache_] under its key. *)
Definition addToGhost (k : K) (node : ArcNode.t V) (s : t) : t :=
  set_ghost (<[k := ArcNode.resetAccessCount node]> (ghostCache_ s))
            (k :: ghostList s) s.

(** [leastRecent] is the node before [mainTail_], which
    [removeFromMain] unlinks.  A linked node is owned by
    [mainCache_], so its fields are found there. *)
Definition evictLeastRecent (s : t) : t :=
  match back (mainList s) with
  | None => s
  | Some leastRecent =>
      match mainCache_ s !! leastRecent with
      | None => s
      | Some node =>
          let s1 := set_main (mainCache_ s) (drop_back (mainList s)) s in
          let s2 :=
            if ghostCapacity_ s1 <=? Z.of_nat (size (ghostCache_ s1))
            then removeOldestGhost s1 else s1 in
          let s3 := addToGhost leastRecent node s2 in
          set_main (delete leastRecent (mainCache_ s3)) (mainList s3) s3
      end
  end.

Definition updateExistingNode (k : K) (node : ArcNode.t V) (v : V) (s : t)
    : t * bool :=
  (set_main (<[k := ArcNode.setValue v node]> (mainCache_ s))
            (moveToFront k (mainList s)) s,
   true).

Definition addNewNode (k : K) (v : V) (s : t) : t * bool :=
  let s1 :=
    if capacity_ s <=? Z.of_nat (size (mainCache_ s))
    then evictLeastRecent s else s in
  (set_main (<[k := ArcNode.newNode v]> (mainCache_ s1))
            (addToFront k (mainList s1)) s1,
   true).

(** Returns the state and [getAccessCount() >= transformThreshold_]
    of the node after the increment. *)
Definition updateNodeAccess (k : K) (node : ArcNode.t V) (s : t)
    : t * ArcNode.t V * bool :=
  let node1 := ArcNode.incrementAccessCount node in
  (set_main (<[k := node1]> (mainCache_ s)) (moveToFront k (mainList s)) s,
   node1,
   transformThreshold_ s <=? ArcNode.accessCount_ node1).

Definition put (k : K) (v : V) (s : t) : t * bool :=
  if capacity_ s =? 0 then (s, false)
  else match mainCache_ s !! k with
       | Some node => updateExistingNode k node v s
       | None => addNewNode k v s
       end.

(** [bool get(Key, Value&, bool&)]: [Some (v, b)] stands for [true]
    with the value and [shouldTransform] written, [None] for [false]
    with both untouched. *)
Definition get (k : K) (s : t) : t * option (V * bool) :=
  match mainCache_ s !! k with
  | Some node =>
      let '(s1, node1, shouldTransform) := updateNodeAccess k node s in
      (s1, Some (ArcNode.value_ node1, shouldTransform))
  | None => (s, None)
  end.

Definition checkGhost (k : K) (s : t) : t * bool :=
  match ghostCache_ s !! k with
  | Some _ =>
      (set_ghost (delete k (ghostCache_ s)) (unlink k (ghostList s)) s, true)
  | None => (s, false)
  end.

Definition increaseCapacity (s : t) : t :=
  set_capacity (to_size_t (capacity_ s + 1)) s.

Definition decreaseCapacity (s : t) : t * bool :=
  if capacity_ s <=? 0 then (s, false)
  else
    let s1 :=
      if Z.of_nat (size (mainCache_ s)) =? capacity_ s
      then evictLeastRecent s else s in
    (set_capacity (capacity_ s1 - 1) s1, true).

(** The public operations of the half, for sequences of calls. *)
Inductive op : Type :=
| Put (k : K) (v : V)
| Get (k : K)
| CheckGhost (k : K)
| IncreaseCapacity
| DecreaseCapacity.

Definition step (s : t) (o : op) : t :=
  match o with
  | Put k v => fst (put k v s)
  | Get k => fst (get k s)
  | CheckGhost k => fst (checkGhost k s)
  | IncreaseCapacity => increaseCapacity s
  | DecreaseCapacity => fst (decreaseCapacity s)
  end.

Definition run (ops : list op) (s : t) : t := foldl step s ops.

(** The invariant of the live side of a half: the linked nodes are the
    nodes the live mapping owns, each linked once, and there are no
    more of them than the live capacity allows. *)
Record wf_main (s : t) : Prop := mk_wf_main {
  wf_main_nodup : NoDup (mainList s);
  wf_main_linked : ∀ k, k ∈ mainList s ↔ is_Some (mainCache_ s !! k);
  wf_main_size : Z.of_nat (size (mainCache_ s)) ≤ capacity_ s
}.
End Part.
Arguments t K {_ _} V.
Arguments op : clear implicits.
End ArcLruPart.

Module ArcLfuPart.
Section Part.
Context {K : Type} `{Countable K} {V : Type}.

(** Modelled from the spec: [RainArcLfu.h] is not among the sources.
    The frequency half is the second of two halves of one shape, a
    live list with its mapping and a ghost list with its mapping, a
    live capacity, a fixed ghost capacity and the transform
    threshold; its state has the fields of the recency half. *)
Definition t : Type := ArcLruPart.t K V.

(** Modelled from the spec: the half is built with live capacity [C]
    and ghost capacity [C]. *)
Definition init (capacity transformThreshold : Z) : t :=
  ArcLruPart.init capacity transformThreshold.

(** Modelled from the spec: to evict is to remove the back live node,
    to drop the oldest ghost key if the ghost is full, to push the
    evicted key onto the ghost front with its access count reset to
    1, and to erase it from the live mapping. *)
Definition evict (s : t) : t :=
  match back (ArcLruPart.mainList s) with
  | None => s
  | Some k =>
      match ArcLruPart.mainCache_ s !! k with
      | None => s
      | Some node =>
          let s1 := ArcLruPart.set_main (ArcLruPart.mainCache_ s)
                      (drop_back (ArcLruPart.mainList s)) s in
          let s2 :=
            if ArcLruPart.ghostCapacity_ s1
                 <=? Z.of_nat (size (ArcLruPart.ghostCache_ s1))
            then ArcLruPart.removeOldestGhost s1 else s1 in
          let s3 := ArcLruPart.addToGhost k node s2 in
          ArcLruPart.set_main (delete k (ArcLruPart.mainCache_ s3))
            (ArcLruPart.mainList s3) s3
      end
  end.

(** Modelled from the spec: if the capacity is 0, return not
    inserted.  If the key is in the live mapping, update the value,
    move to the front, increment the access count and return
    [access_count ≥ T].  Otherwise, if the live size is at least the
    capacity, evict; then create a new node at the front with access
    count 1.  The spec gives no result for the last case, and
    [RainArc] reads none; the same comparison on the new count is
    returned. *)
Definition put (k : K) (v : V) (s : t) : t * bool :=
  if ArcLruPart.capacity_ s =? 0 then (s, false)
  else match ArcLruPart.mainCache_ s !! k with
       | Some node =>
           let node1 :=
             ArcNode.incrementAccessCount (ArcNode.setValue v node) in
           (ArcLruPart.set_main (<[k := node1]> (ArcLruPart.mainCache_ s))
              (ArcLruPart.moveToFront k (ArcLruPart.mainList s)) s,
            ArcLruPart.transformThreshold_ s <=? ArcNode.accessCount_ node1)
       | None =>
           let s1 :=
             if ArcLruPart.capacity_ s
                  <=? Z.of_nat (size (ArcLruPart.mainCache_ s))
             then evict s else s in
           (ArcLruPart.set_main
              (<[k := ArcNode.newNode v]> (ArcLruPart.mainCache_ s1))
              (ArcLruPart.addToFront k (ArcLruPart.mainList s1)) s1,
            ArcLruPart.transformThreshold_ s <=? 1)
       end.

(** Modelled from the spec: look up in the live mapping; on a hit,
    move to the front, increment the access count and return the
    value. *)
Definition get (k : K) (s : t) : t * option V :=
  match ArcLruPart.mainCache_ s !! k with
  | Some node =>
      let node1 := ArcNode.incrementAccessCount node in
      (ArcLruPart.set_main (<[k := node1]> (ArcLruPart.mainCache_ s))
         (ArcLruPart.moveToFront k (ArcLruPart.mainList s)) s,
       Some (ArcNode.value_ node1))
  | None => (s, None)
  end.

(** Modelled from the spec: if the key is in the ghost mapping,
    unlink and erase it from the ghost and return true; else
    false. *)
Definition checkGhost (k : K) (s : t) : t * bool :=
  match ArcLruPart.ghostCache_ s !! k with
  | Some _ =>
      (ArcLruPart.set_ghost (delete k (ArcLruPart.ghostCache_ s))
         (unlink k (ArcLruPart.ghostList s)) s, true)
  | None => (s, false)
  end.

(** Modelled from the spec: [cap += 1]. *)
Definition increaseCapacity (s : t) : t :=
  ArcLruPart.set_capacity (ArcLruPart.capacity_ s + 1) s.

(** Modelled from the spec: if [cap == 0] return false; if the live
    size equals [cap], evict one; [cap -= 1]; return true. *)
Definition decreaseCapacity (s : t) : t * bool :=
  if ArcLruPart.capacity_ s =? 0 then (s, false)
  else
    let s1 :=
      if Z.of_nat (size (ArcLruPart.mainCache_ s)) =? ArcLruPart.capacity_ s
      then evict s else s in
    (ArcLruPart.set_capacity (ArcLruPart.capacity_ s1 - 1) s1, true).
End Part.
End ArcLfuPart.

(** ** RainArc *)

Module RainArc.
Section Arc.
Context {K : Type} `{Countable K} {V : Type} `{Default V}.

Record t : Type := mk {
  capacity_ : Z;
  transformThreshold_ : Z;
  lruPart_ : ArcLruPart.t K V;
  lfuPart_ : ArcLfuPart.t (K := K) (V := V)
}.

(** [RainArc(size_t capacity = 10, size_t transformThreshold = 2)]. *)
Definition init (capacity transformThreshold : Z) : t :=
  {| capacity_ := capacity;
     transformThreshold_ := transformThreshold;
     lruPart_ := ArcLruPart.init capacity transformThreshold;
     lfuPart_ := ArcLfuPart.init capacity transformThreshold |}.

Definition set_parts (r : ArcLruPart.t K V) (f : ArcLruPart.t K V) (s : t) : t :=
  {| capacity_ := capacity_ s; transformThreshold_ := transformThreshold_ s;
     lruPart_ := r; lfuPart_ := f |}.

Definition checkGhostCaches (key : K) (s : t) : t * bool :=
  let '(r1, inLruGhost) := ArcLruPart.checkGhost key (lruPart_ s) in
  if inLruGhost then
    let '(f1, shrunk) := ArcLfuPart.decreaseCapacity (lfuPart_ s) in
    let r2 := if shrunk then ArcLruPart.increaseCapacity r1 else r1 in
    (set_parts r2 f1 s, true)
  else
    let '(f1, inLfuGhost) := ArcLfuPart.checkGhost key (lfuPart_ s) in
    if inLfuGhost then
      let '(r2, shrunk) := ArcLruPart.decreaseCapacity r1 in
      let f2 := if shrunk then ArcLfuPart.increaseCapacity f1 else f1 in
      (set_parts r2 f2 s, true)
    else (set_parts r1 f1 s, false).

Definition put (key : K) (value : V) (s : t) : t :=
  let '(s1, inGhost) := checkGhostCaches key s in
  if negb inGhost then
    let '(r1, stored) := ArcLruPart.put key value (lruPart_ s1) in
    if stored
    then set_parts r1 (fst (ArcLfuPart.put key value (lfuPart_ s1))) s1
    else set_parts r1 (lfuPart_ s1) s1
  else
    set_parts (fst (ArcLruPart.put key value (lruPart_ s1))) (lfuPart_ s1) s1.

(** [bool get(Key, Value&)]. *)
Definition get (key : K) (s : t) : t * option V :=
  let '(s1, _) := checkGhostCaches key s in
  let '(r1, found) := ArcLruPart.get key (lruPart_ s1) in
  match found with
  | Some (value, shouldTransform) =>
      if shouldTransform
      then (set_parts r1 (fst (ArcLfuPart.put key value (lfuPart_ s1))) s1,
            Some value)
      else (set_parts r1 (lfuPart_ s1) s1, Some value)
  | None =>
      let '(f1, r) := ArcLfuPart.get key (lfuPart_ s1) in
      (set_parts r1 f1 s1, r)
  end.

(** [Value get(Key)]. *)
Definition get_value (key : K) (s : t) : t * V :=
  let '(s1, r) := get key s in (s1, default dflt r).

Inductive op : Type :=
| Get (key : K)
| Put (key : K) (value : V).

Definition step (s : t) (o : op) : t :=
  match o with
  | Get k => fst (get k s)
  | Put k v => put k v s
  end.

Definition run (ops : list op) (s : t) : t := foldl step s ops.

(** [n] calls of [get] for one key, one after the other. *)
Fixpoint gets (n : nat) (key : K) (s : t) : t :=
  match n with
  | O => s
  | S n' => gets n' key (fst (get key s))
  end.

(** The live capacities of the two halves. *)
Definition lruCapacity (s : t) : Z := ArcLruPart.capacity_ (lruPart_ s).
Definition lfuCapacity (s : t) : Z := ArcLruPart.capacity_ (lfuPart_ s).

(** The two live capacities are not negative and add up to [2 * C]. *)
Definition balanced (C : Z) (s : t) : Prop :=
  0 ≤ lruCapacity s ∧ 0 ≤ lfuCapacity s
  ∧ lruCapacity s + lfuCapacity s = 2 * C.

(** The invariant of the live sides of the two halves, with the
    balance of their capacities. *)
Definition wf (C : Z) (s : t) : Prop :=
  balanced C s
  ∧ ArcLruPart.wf_main (lruPart_ s)
  ∧ ArcLruPart.wf_main (lfuPart_ s).

(** The key is resident in the recency half with this value, and in
    neither ghost mapping. *)
Definition residentInLru (key : K) (value : V) (s : t) : Prop :=
  (∃ node, ArcLruPart.mainCache_ (lruPart_ s) !! key = Some node
           ∧ ArcNode.value_ node = value)
  ∧ ArcLruPart.ghostCache_ (lruPart_ s) !! key = None
  ∧ ArcLruPart.ghostCache_ (lfuPart_ s) !! key = None.
End Arc.
Arguments t K {_ _} V.
Arguments op : clear implicits.
End RainArc.

(** * Properties *)

(** ** Machine integers *)

Lemma to_size_t_small (z : Z) : 0 ≤ z < 2 ^ 64 → to_size_t z = z.
Proof. intros Hz. unfold to_size_t. by apply Z.mod_small. Qed.

Lemma to_size_t_succ_ne (c : Z) : to_size_t (c + 1) ≠ c.
Proof.
  unfold to_size_t. intros Heq.
  pose proof (Z.mod_pos_bound (c + 1) (2 ^ 64) ltac:(lia)) as Hb.
  destruct (decide (c + 1 < 2 ^ 64)) as [Hlt|Hge].
  - rewrite Z.mod_small in Heq; lia.
  - assert (c + 1 = 2 ^ 64) as Hc by lia.
    rewrite Hc, Z.mod_same in Heq; lia.
Qed.

Lemma to_int_le (z : Z) : 0 ≤ z → to_int z ≤ z.
Proof.
  intros Hz. unfold to_int.
  destruct (decide (z < 2 ^ 31)) as [Hlt|Hge].
  - rewrite Z.mod_small; lia.
  - pose proof (Z.mod_pos_bound (z + 2 ^ 31) (2 ^ 32) ltac:(lia)). lia.
Qed.

Lemma to_int_small (z : Z) : - 2 ^ 31 ≤ z < 2 ^ 31 → to_int z = z.
Proof. intros Hz. unfold to_int. rewrite Z.mod_small; lia. Qed.

(** ** Linked lists *)

Section LinkFacts.
Context {K : Type} `{EqDecision K}.
Implicit Types (k x : K) (l : list K).

Lemma unlink_not_elem k l : k ∉ l → unlink k l = l.
Proof.
  induction l as [|y l IH]; simpl; [done|].
  intros Hk. apply not_elem_of_cons in Hk as [Hne Hk].
  destruct (decide (y = k)); [congruence|]. by rewrite IH.
Qed.

Lemma elem_of_unlink k x l :
  NoDup l → x ∈ unlink k l ↔ x ∈ l ∧ x ≠ k.
Proof.
  induction 1 as [|y l Hy Hnd IH]; simpl.
  - split; [by intros ?%elem_of_nil | by intros [?%elem_of_nil _]].
  - destruct (decide (y = k)) as [->|Hne].
    + rewrite elem_of_cons. split.
      * intros Hx. split; [by right|]. by intros ->.
      * intros [[->|Hx] Hxk]; done.
    + rewrite !elem_of_cons, IH. split.
      * intros [->|[Hx Hxk]]; split; auto.
      * intros [[->|Hx] Hxk]; auto.
Qed.

Lemma NoDup_unlink k l : NoDup l → NoDup (unlink k l).
Proof.
  induction 1 as [|y l Hy Hnd IH]; simpl; [constructor|].
  destruct (decide (y = k)); [done|].
  constructor; [|done]. rewrite elem_of_unlink by done. tauto.
Qed.

Lemma head_unlink k l : head l = Some k → unlink k l = tail l.
Proof. destruct l as [|y l]; simpl; [done|]. intros [= ->]. by rewrite decide_True. Qed.
End LinkFacts.

(** ** RainLru: the representation invariant and the bound on the size *)

Section LruFacts.
Context {K : Type} `{Countable K} `{Default K} {V : Type}.
Implicit Types (s : RainLru.t K V) (k : K) (v : V).

Lemma lru_wf_init (c : Z) : RainLru.wf (RainLru.init (K := K) (V := V) c).
Proof.
  split; simpl.
  - constructor.
  - intros k. rewrite lookup_empty. split.
    + by intros ?%elem_of_nil.
    + by intros [? ?].
  - rewrite map_size_empty. lia.
Qed.

Lemma lru_moveToMostRecent_elem k x (l : list K) :
  NoDup l → k ∈ l → x ∈ RainLru.moveToMostRecent k l ↔ x ∈ l.
Proof.
  intros Hnd Hk. unfold RainLru.moveToMostRecent, RainLru.insertNode, RainLru.removeNode.
  rewrite elem_of_app, elem_of_unlink, list_elem_of_singleton by done.
  destruct (decide (x = k)) as [->|]; naive_solver.
Qed.

Lemma lru_moveToMostRecent_nodup k (l : list K) :
  NoDup l → NoDup (RainLru.moveToMostRecent k l).
Proof.
  intros Hnd. unfold RainLru.moveToMostRecent, RainLru.insertNode, RainLru.removeNode.
  apply NoDup_app. split_and!.
  - by apply NoDup_unlink.
  - intros x Hx Hxk. apply elem_of_unlink in Hx as [_ Hne]; [|done].
    by apply list_elem_of_singleton in Hxk.
  - apply NoDup_singleton.
Qed.

Lemma lru_wf_get k s : RainLru.wf s → RainLru.wf (RainLru.get k s).1.
Proof.
  intros [Hnd Hl Hsz]. unfold RainLru.get.
  destruct (RainLru.nodeMap_ s !! k) as [node|] eqn:Hk; simpl; [|done].
  split; simpl; [by apply lru_moveToMostRecent_nodup| |done].
  intros x. rewrite lru_moveToMostRecent_elem; [done|done|].
  apply Hl. by rewrite Hk.
Qed.

Lemma lru_wf_remove k s : RainLru.wf s → RainLru.wf (RainLru.remove k s).
Proof.
  intros [Hnd Hl Hsz]. unfold RainLru.remove.
  destruct (RainLru.nodeMap_ s !! k) as [node|] eqn:Hk; [|done].
  split; simpl.
  - by apply NoDup_unlink.
  - intros x. unfold RainLru.removeNode. rewrite elem_of_unlink, Hl by done.
    destruct (decide (x = k)) as [->|Hne].
    + rewrite lookup_delete_eq. split; [tauto|]. by intros [? ?].
    + rewrite lookup_delete_ne by done. tauto.
  - pose proof (map_size_delete k (RainLru.nodeMap_ s)) as Hd.
    rewrite Hk in Hd. lia.
Qed.

(** Eviction takes out one entry of a cache that has one. *)
Lemma lru_wf_evict s :
  RainLru.wf s → RainLru.nodeMap_ s ≠ ∅ →
  NoDup (RainLru.list_ (RainLru.evictLeastRecent s)) ∧
  (∀ k, k ∈ RainLru.list_ (RainLru.evictLeastRecent s)
        ↔ is_Some (RainLru.nodeMap_ (RainLru.evictLeastRecent s) !! k)) ∧
  S (size (RainLru.nodeMap_ (RainLru.evictLeastRecent s))) = size (RainLru.nodeMap_ s) ∧
  (∀ k, is_Some (RainLru.nodeMap_ (RainLru.evictLeastRecent s) !! k)
        → is_Some (RainLru.nodeMap_ s !! k)).
Proof.
  intros [Hnd Hl Hsz] Hne. unfold RainLru.evictLeastRecent.
  destruct (RainLru.list_ s) as [|k0 l] eqn:Hlist; simpl.
  - exfalso. apply Hne. apply map_empty. intros k.
    destruct (RainLru.nodeMap_ s !! k) eqn:Hk; [|done].
    assert (k ∈ @nil K) as Hin by (apply Hl; by rewrite Hk).
    by apply elem_of_nil in Hin.
  - unfold RainLru.removeNode. simpl. rewrite decide_True by done.
    apply NoDup_cons in Hnd as [Hk0 Hnd].
    assert (is_Some (RainLru.nodeMap_ s !! k0)) as [n0 Hn0]
      by (apply Hl; left).
    split_and!; [done| | |].
    + intros k. destruct (decide (k = k0)) as [->|Hkk].
      * rewrite lookup_delete_eq. split; [done|]. by intros [? ?].
      * rewrite lookup_delete_ne by done. rewrite <- Hl, elem_of_cons. naive_solver.
    + pose proof (map_size_delete k0 (RainLru.nodeMap_ s)) as Hd.
      rewrite Hn0 in Hd.
      assert (size (RainLru.nodeMap_ s) ≠ 0%nat) by by apply map_size_non_empty_iff.
      lia.
    + intros k. destruct (decide (k = k0)) as [->|Hkk].
      * by rewrite lookup_delete_eq; intros [? ?].
      * by rewrite lookup_delete_ne.
Qed.

Lemma lru_wf_put k v s :
  RainLru.capacity_ s < 2 ^ 64 → RainLru.wf s → RainLru.wf (RainLru.put k v s).
Proof.
  intros Hcap Hwf. pose proof Hwf as [Hnd Hl Hsz]. unfold RainLru.put.
  destruct (RainLru.capacity_ s <=? 0) eqn:Hc0; [done|].
  apply Z.leb_gt in Hc0.
  destruct (RainLru.nodeMap_ s !! k) as [node|] eqn:Hk.
  - split; simpl.
    + by apply lru_moveToMostRecent_nodup.
    + intros x. rewrite lru_moveToMostRecent_elem; [|done|apply Hl; by rewrite Hk].
      rewrite Hl. destruct (decide (x = k)) as [->|Hne].
      * rewrite lookup_insert_eq, Hk. split; by eauto.
      * by rewrite lookup_insert_ne.
    + rewrite map_size_insert_Some by by rewrite Hk. done.
  - unfold RainLru.addNewNode. rewrite to_size_t_small by lia.
    destruct (RainLru.capacity_ s <=? Z.of_nat (size (RainLru.nodeMap_ s))) eqn:Hfull.
    + apply Z.leb_le in Hfull.
      assert (RainLru.nodeMap_ s ≠ ∅) as Hne.
      { apply map_size_non_empty_iff. lia. }
      destruct (lru_wf_evict s Hwf Hne) as (Hnd' & Hl' & Hsz' & Hsub).
      assert (RainLru.nodeMap_ (RainLru.evictLeastRecent s) !! k = None) as Hk'.
      { destruct (RainLru.nodeMap_ (RainLru.evictLeastRecent s) !! k) eqn:E; [|done].
        destruct (Hsub k) as [? ?]; [by rewrite E|congruence]. }
      assert (RainLru.capacity_ (RainLru.evictLeastRecent s) = RainLru.capacity_ s) as Hcq.
      { unfold RainLru.evictLeastRecent. by destruct (head _). }
      split; simpl.
      * unfold RainLru.insertNode. apply NoDup_app. split_and!; [done| |apply NoDup_singleton].
        intros x Hx ->%list_elem_of_singleton.
        apply Hl' in Hx. rewrite Hk' in Hx. by destruct Hx.
      * intros x. unfold RainLru.insertNode.
        rewrite elem_of_app, list_elem_of_singleton, Hl'.
        destruct (decide (x = k)) as [->|Hxk].
        -- rewrite lookup_insert_eq. split; by eauto.
        -- rewrite lookup_insert_ne by done. naive_solver.
      * rewrite map_size_insert_None by done. rewrite Hcq. lia.
    + apply Z.leb_gt in Hfull.
      split; simpl.
      * unfold RainLru.insertNode. apply NoDup_app. split_and!; [done| |apply NoDup_singleton].
        intros x Hx ->%list_elem_of_singleton.
        apply Hl in Hx. rewrite Hk in Hx. by destruct Hx.
      * intros x. unfold RainLru.insertNode.
        rewrite elem_of_app, list_elem_of_singleton, Hl.
        destruct (decide (x = k)) as [->|Hxk].
        -- rewrite lookup_insert_eq. split; by eauto.
        -- rewrite lookup_insert_ne by done. naive_solver.
      * rewrite map_size_insert_None by done. lia.
Qed.

Lemma lru_capacity_step s (o : RainLru.op K V) :
  RainLru.capacity_ (RainLru.step s o) = RainLru.capacity_ s.
Proof.
  destruct o as [k|k v|k]; simpl.
  - unfold RainLru.get. by destruct (_ !! k).
  - unfold RainLru.put, RainLru.addNewNode, RainLru.evictLeastRecent.
    repeat (case_match; simpl); done.
  - unfold RainLru.remove. by destruct (_ !! k).
Qed.

Lemma lru_wf_step s (o : RainLru.op K V) :
  RainLru.capacity_ s < 2 ^ 64 → RainLru.wf s → RainLru.wf (RainLru.step s o).
Proof.
  intros Hc Hwf. destruct o as [k|k v|k]; simpl.
  - by apply lru_wf_get.
  - by apply lru_wf_put.
  - by apply lru_wf_remove.
Qed.

Lemma lru_wf_run (ops : list (RainLru.op K V)) s :
  RainLru.capacity_ s < 2 ^ 64 → RainLru.wf s →
  RainLru.wf (RainLru.run ops s) ∧
  RainLru.capacity_ (RainLru.run ops s) = RainLru.capacity_ s.
Proof.
  revert s. induction ops as [|o ops IH]; intros s Hc Hwf; [done|].
  change (RainLru.run (o :: ops) s) with (RainLru.run ops (RainLru.step s o)).
  destruct (IH (RainLru.step s o)) as [Hwf' Hc'].
  - by rewrite lru_capacity_step.
  - by apply lru_wf_step.
  - split; [done|]. by rewrite Hc', lru_capacity_step.
Qed.

(** For every sequence of operations on a plain LRU of a capacity
    that is not negative, the size of the live mapping stays within
    the capacity. *)
Lemma lru_size_le_capacity (c : Z) (ops : list (RainLru.op K V)) :
  0 ≤ c < 2 ^ 31 →
  Z.of_nat (size (RainLru.nodeMap_ (RainLru.run ops (RainLru.init c)))) ≤ c.
Proof.
  intros Hc.
  destruct (lru_wf_run ops (RainLru.init c)) as [[_ _ Hsz] Hcap].
  - simpl. lia.
  - apply lru_wf_init.
  - rewrite Hcap in Hsz. simpl in Hsz. lia.
Qed.
End LruFacts.

(** ** RainLru: the access count *)

Section LruAccessCount.
Context {K : Type} `{Countable K} `{Default K} {V : Type}.
Implicit Types (s : RainLru.t K V) (k j : K) (v : V).

(** [get] leaves every node of the map as it is. *)
Lemma lru_get_nodeMap k s :
  RainLru.nodeMap_ (RainLru.get k s).1 = RainLru.nodeMap_ s.
Proof. unfold RainLru.get. by destruct (_ !! k). Qed.

(** A node found after [put] is the new node, the updated node, or a
    node that was there. *)
Lemma lru_put_lookup k v j s (n : RainLru.LruNode V) :
  RainLru.nodeMap_ (RainLru.put k v s) !! j = Some n →
  (j = k ∧ ∃ n0, n = RainLru.setValue v n0 ∧ RainLru.nodeMap_ s !! k = Some n0)
  ∨ (j = k ∧ n = RainLru.newNode v ∧ RainLru.nodeMap_ s !! k = None)
  ∨ RainLru.nodeMap_ s !! j = Some n.
Proof.
  unfold RainLru.put. destruct (RainLru.capacity_ s <=? 0); [by auto|].
  destruct (RainLru.nodeMap_ s !! k) as [n0|] eqn:Hk; simpl.
  - destruct (decide (j = k)) as [->|Hne].
    + rewrite lookup_insert_eq. intros [= <-]. left. eauto.
    + rewrite lookup_insert_ne by done. auto.
  - destruct (decide (j = k)) as [->|Hne].
    + rewrite lookup_insert_eq. intros [= <-]. auto.
    + rewrite lookup_insert_ne by done.
      unfold RainLru.evictLeastRecent.
      destruct (_ <=? _); [|by auto].
      destruct (head _); simpl; intros Hj; right; right;
        apply lookup_delete_Some in Hj; tauto.
Qed.

Lemma lru_remove_lookup k j s (n : RainLru.LruNode V) :
  RainLru.nodeMap_ (RainLru.remove k s) !! j = Some n →
  RainLru.nodeMap_ s !! j = Some n.
Proof.
  unfold RainLru.remove. destruct (RainLru.nodeMap_ s !! k); [|done].
  simpl. intros Hj. apply lookup_delete_Some in Hj. tauto.
Qed.

Lemma lru_counts_initial_step s (o : RainLru.op K V) :
  RainLru.counts_initial s → RainLru.counts_initial (RainLru.step s o).
Proof.
  intros Hs j n. unfold RainLru.accessCount.
  destruct o as [k|k v|k]; simpl.
  - rewrite lru_get_nodeMap. apply Hs.
  - destruct (RainLru.nodeMap_ (RainLru.put k v s) !! j) as [m|] eqn:Hj; [|done].
    simpl. intros [= <-].
    apply lru_put_lookup in Hj as [(-> & n0 & -> & Hk)|[(-> & -> & Hk)|Hj]].
    + simpl. apply (Hs k). unfold RainLru.accessCount. by rewrite Hk.
    + done.
    + apply (Hs j). unfold RainLru.accessCount. by rewrite Hj.
  - destruct (RainLru.nodeMap_ (RainLru.remove k s) !! j) as [m|] eqn:Hj; [|done].
    simpl. intros [= <-]. apply lru_remove_lookup in Hj.
    apply (Hs j). unfold RainLru.accessCount. by rewrite Hj.
Qed.

Lemma lru_counts_initial_run (ops : list (RainLru.op K V)) s :
  RainLru.counts_initial s → RainLru.counts_initial (RainLru.run ops s).
Proof.
  revert s. induction ops as [|o ops IH]; intros s Hs; [done|].
  apply IH. by apply lru_counts_initial_step.
Qed.

(** C3, as amended: in the plain LRU no operation increments an
    access count.  [get] leaves the count of every entry as it is,
    on a hit as on a miss; after [put] an entry has count 1 as a new
    entry or the count it had before; so from construction on every
    resident entry keeps the initial count 1. *)
Theorem lru_access_count_never_incremented :
  (∀ s k j, RainLru.accessCount j (RainLru.get k s).1 = RainLru.accessCount j s)
  ∧ (∀ s k v j n, RainLru.accessCount j (RainLru.put k v s) = Some n →
       n = 1 ∨ RainLru.accessCount j s = Some n)
  ∧ (∀ (c : Z) (ops : list (RainLru.op K V)) j n,
       RainLru.accessCount j (RainLru.run ops (RainLru.init c)) = Some n → n = 1).
Proof.
  split_and!.
  - intros s k j. unfold RainLru.accessCount. by rewrite lru_get_nodeMap.
  - intros s k v j n. unfold RainLru.accessCount.
    destruct (RainLru.nodeMap_ (RainLru.put k v s) !! j) as [m|] eqn:Hj; [|done].
    simpl. intros [= <-].
    apply lru_put_lookup in Hj as [(-> & n0 & -> & Hk)|[(-> & -> & Hk)|Hj]].
    + right. by rewrite Hk.
    + by left.
    + right. by rewrite Hj.
  - intros c ops. apply lru_counts_initial_run.
    intros j n. unfold RainLru.accessCount. simpl. by rewrite lookup_empty.
Qed.
End LruAccessCount.

(** ** Scenarios on integer keys and string values *)

(** C3, as stated, fails: in an LRU of capacity 2 that holds key 1,
    [get] of key 1 is a hit and the access count of the entry is 1
    before and after it, not 2. *)
Lemma lru_get_hit_keeps_access_count :
  let s := RainLru.put (1 : Z) "a"%string (RainLru.init 2) in
  (RainLru.get 1 s).2 = Some "a"%string
  ∧ RainLru.accessCount 1 s = Some 1
  ∧ RainLru.accessCount 1 (RainLru.get 1 s).1 = Some 1
  ∧ RainLru.accessCount 1 (RainLru.get 1 s).1 ≠ Some (1 + 1).
Proof. vm_compute. split_and!; congruence. Qed.

(** C4, as stated, fails: with K = 2, main capacity 2 and history
    capacity 4, the first [get] of key 1 after [put(1, "a")] returns
    the stored value and not the default value. *)
Lemma lruk_first_get_returns_stored :
  let s1 := RainLruK.put (1 : Z) "a"%string (RainLruK.init 2 4 2) in
  RainLru.contains 1 (RainLruK.main s1) = false
  ∧ (RainLruK.get 1 s1).2 = "a"%string
  ∧ (RainLruK.get 1 s1).2 ≠ dflt.
Proof. vm_compute. split_and!; congruence. Qed.

(** C4, as amended: with K = 2, main capacity 2 and history capacity
    4, after [put(1, "a")] the main cache does not hold key 1 and the
    history count of key 1 is 1; the first [get(1)] raises the count to
    2, moves the stored value into the main cache and returns "a"; the
    second [get(1)] returns "a" from the main cache. *)
Theorem lruk_put_get_get :
  let s1 := RainLruK.put (1 : Z) "a"%string (RainLruK.init 2 4 2) in
  let s2 := (RainLruK.get 1 s1).1 in
  RainLru.contains 1 (RainLruK.main s1) = false
  ∧ (RainLru.get_value 1 (RainLruK.historyList_ s1)).2 = 1
  ∧ RainLruK.historyValueMap_ s1 !! 1 = Some "a"%string
  ∧ (RainLruK.get 1 s1).2 = "a"%string
  ∧ RainLru.contains 1 (RainLruK.main s2) = true
  ∧ RainLruK.historyValueMap_ s2 !! 1 = None
  ∧ (RainLruK.get 1 s2).2 = "a"%string.
Proof. vm_compute. split_and!; reflexivity. Qed.

(** C5, as stated, fails: in an empty LRU-K cache [get] of key 1
    misses and returns the default value, and it enters key 1 with
    count 1 in the history LRU. *)
Lemma lruk_get_miss_changes_history :
  let s0 : RainLruK.t Z string := RainLruK.init 2 4 2 in
  RainLru.contains 1 (RainLruK.main s0) = false
  ∧ (RainLruK.get 1 s0).2 = dflt
  ∧ RainLru.nodeMap_ (RainLruK.historyList_ s0) !! 1 = None
  ∧ RainLru.nodeMap_ (RainLruK.historyList_ (RainLruK.get 1 s0).1) !! 1
    = Some (RainLru.newNode 1)
  ∧ RainLruK.historyList_ (RainLruK.get 1 s0).1 ≠ RainLruK.historyList_ s0.
Proof. vm_compute. split_and!; congruence. Qed.

(** ** RainLruK *)

Section LruKFacts.
Context {K : Type} `{Countable K} `{Default K} {V : Type} `{Default V}.
Implicit Types (s : RainLruK.t K V) (k : K) (v : V).

Lemma lru_get_miss {W : Type} k (m : RainLru.t K W) :
  RainLru.nodeMap_ m !! k = None → RainLru.get k m = (m, None).
Proof. intros Hk. unfold RainLru.get. by rewrite Hk. Qed.

Lemma lru_put_contains {W : Type} k (w : W) (m : RainLru.t K W) :
  0 < RainLru.capacity_ m →
  ∃ n, RainLru.nodeMap_ (RainLru.put k w m) !! k = Some n ∧ RainLru.value_ n = w.
Proof.
  intros Hc. unfold RainLru.put.
  destruct (Z.leb_spec (RainLru.capacity_ m) 0) as [?|_]; [lia|].
  destruct (RainLru.nodeMap_ m !! k) as [n|]; simpl;
    rewrite lookup_insert_eq; eauto.
Qed.

Lemma lru_put_lookup_is_Some {W : Type} k (w : W) j (m : RainLru.t K W) :
  is_Some (RainLru.nodeMap_ (RainLru.put k w m) !! j) →
  j = k ∨ is_Some (RainLru.nodeMap_ m !! j).
Proof.
  intros [n Hn]. apply lru_put_lookup in Hn as [(-> & _)|[(-> & _)|Hj]]; eauto.
Qed.

(** The history after an access holds the new count of the key,
    which differs from the old one: the access changes the history
    whenever the history has room at all. *)
Lemma lruk_bumpHistory_changes k (h : RainLru.t K Z) :
  0 < RainLru.capacity_ h →
  (∃ n, RainLru.nodeMap_ (RainLruK.bumpHistory k h).1 !! k = Some n
        ∧ RainLru.value_ n = (RainLruK.bumpHistory k h).2)
  ∧ (RainLruK.bumpHistory k h).1 ≠ h.
Proof.
  intros Hc. unfold RainLruK.bumpHistory, RainLru.get_value.
  destruct (RainLru.get k h) as [h1 r] eqn:Hget. simpl.
  assert (RainLru.capacity_ h1 = RainLru.capacity_ h) as Hc1.
  { unfold RainLru.get in Hget. destruct (_ !! k); by inversion Hget. }
  assert (RainLru.nodeMap_ h1 = RainLru.nodeMap_ h) as Hm1.
  { pose proof (lru_get_nodeMap k h) as E. by rewrite Hget in E. }
  destruct (lru_put_contains k (to_size_t (default dflt r + 1)) h1) as (n & Hn & Hv);
    [lia|].
  split; [by eauto|]. intros Heq. rewrite Heq in Hn.
  unfold RainLru.get in Hget. rewrite Hn in Hget. inversion Hget; subst.
  simpl in Hv. symmetry in Hv. by apply to_size_t_succ_ne in Hv.
Qed.

(** An operation changes the side table at its own key only. *)
Lemma lruk_step_other s (o : RainLruK.op K V) k :
  RainLruK.opKey o ≠ k →
  RainLruK.historyValueMap_ (RainLruK.step s o) !! k
  = RainLruK.historyValueMap_ s !! k.
Proof.
  intros Hne. destruct o as [k'|k' v']; simpl in *.
  - unfold RainLruK.get.
    destruct (RainLru.get k' (RainLruK.main s)) as [m1 [x|]];
      destruct (RainLruK.bumpHistory k' _) as [h2 c]; simpl; [done|].
    destruct (RainLruK.reached c _); [|done].
    destruct (RainLruK.historyValueMap_ s !! k'); simpl; [|done].
    by rewrite lookup_delete_ne.
  - unfold RainLruK.put.
    destruct (RainLru.get k' (RainLruK.main s)) as [m1 [x|]]; simpl; [done|].
    destruct (RainLruK.bumpHistory k' _) as [h2 c].
    destruct (RainLruK.reached c _); simpl.
    + by rewrite lookup_delete_ne, lookup_insert_ne.
    + by rewrite lookup_insert_ne.
Qed.

(** What one operation does to a value held by the side table: the
    value stays, or a [put] of its key replaces it, or the operation
    runs the branch that promotes the key.  That branch is taken on a
    miss in the main cache when the new count has reached [k_]; it
    erases the value and calls [RainLru::put], which enters the key in
    the main cache if the main capacity is positive and returns at
    once, leaving the main cache as it is, if it is not. *)
Lemma lruk_step_side_table s (o : RainLruK.op K V) k v :
  RainLruK.historyValueMap_ s !! k = Some v →
  RainLruK.historyValueMap_ (RainLruK.step s o) !! k = Some v
  ∨ (∃ v', o = RainLruK.Put k v'
           ∧ RainLruK.historyValueMap_ (RainLruK.step s o) !! k = Some v')
  ∨ (RainLruK.opKey o = k
     ∧ RainLruK.historyValueMap_ (RainLruK.step s o) !! k = None
     ∧ RainLru.nodeMap_ (RainLruK.main s) !! k = None
     ∧ RainLruK.reached (RainLruK.bumpHistory k (RainLruK.historyList_ s)).2
                        (RainLruK.k_ s) = true
     ∧ (∃ w, (o = RainLruK.Get k ∧ w = v ∨ o = RainLruK.Put k w)
             ∧ RainLruK.main (RainLruK.step s o)
               = RainLru.put k w (RainLruK.main s))
     ∧ (0 < RainLru.capacity_ (RainLruK.main s) →
        RainLru.contains k (RainLruK.main (RainLruK.step s o)) = true)
     ∧ (RainLru.capacity_ (RainLruK.main s) ≤ 0 →
        RainLruK.main (RainLruK.step s o) = RainLruK.main s)).
Proof.
  intros Hv.
  destruct (decide (RainLruK.opKey o = k)) as [Hk|Hk];
    [|left; by rewrite lruk_step_other].
  assert (∀ w, (0 < RainLru.capacity_ (RainLruK.main s) →
                RainLru.contains k (RainLru.put k w (RainLruK.main s)) = true)
               ∧ (RainLru.capacity_ (RainLruK.main s) ≤ 0 →
                  RainLru.put k w (RainLruK.main s) = RainLruK.main s)) as Hput.
  { intros w. split; intros Hc.
    - destruct (lru_put_contains k w (RainLruK.main s) Hc) as (n & Hn & _).
      unfold RainLru.contains. rewrite Hn. by apply bool_decide_eq_true_2.
    - unfold RainLru.put.
      by destruct (Z.leb_spec (RainLru.capacity_ (RainLruK.main s)) 0) as [_|?];
        [|lia]. }
  destruct (RainLru.nodeMap_ (RainLruK.main s) !! k) as [node|] eqn:Hm.
  { left. destruct o as [k'|k' v']; simpl in Hk; subst k'; simpl.
    - unfold RainLruK.get, RainLru.get. rewrite Hm.
      by destruct (RainLruK.bumpHistory k _) as [h2 c].
    - unfold RainLruK.put, RainLru.get. by rewrite Hm. }
  destruct (RainLruK.reached
              (RainLruK.bumpHistory k (RainLruK.historyList_ s)).2
              (RainLruK.k_ s)) eqn:Hr.
  - right; right.
    destruct o as [k'|k' v']; simpl in Hk; subst k'; simpl.
    + unfold RainLruK.get. rewrite (lru_get_miss k _ Hm).
      destruct (RainLruK.bumpHistory k _) as [h2 c]. simpl in Hr.
      rewrite Hr, Hv. simpl. rewrite lookup_delete_eq.
      destruct (Hput v) as [Hin Hout].
      split_and!; [done..| |done|done]. exists v. split; [by left|done].
    + unfold RainLruK.put. rewrite (lru_get_miss k _ Hm).
      destruct (RainLruK.bumpHistory k _) as [h2 c]. simpl in Hr.
      rewrite Hr. simpl. rewrite lookup_delete_eq.
      destruct (Hput v') as [Hin Hout].
      split_and!; [done..| |done|done]. exists v'. split; [by right|done].
  - destruct o as [k'|k' v']; simpl in Hk; subst k'; simpl.
    + left. unfold RainLruK.get. rewrite (lru_get_miss k _ Hm).
      destruct (RainLruK.bumpHistory k _) as [h2 c]. simpl in Hr.
      by rewrite Hr.
    + right; left. exists v'. split; [done|].
      unfold RainLruK.put. rewrite (lru_get_miss k _ Hm).
      destruct (RainLruK.bumpHistory k _) as [h2 c]. simpl in Hr.
      rewrite Hr. simpl. by rewrite lookup_insert_eq.
Qed.

Lemma lruk_put_below_threshold s k v :
  RainLru.nodeMap_ (RainLruK.main s) !! k = None →
  RainLruK.reached (RainLruK.bumpHistory k (RainLruK.historyList_ s)).2
                   (RainLruK.k_ s) = false →
  RainLruK.historyValueMap_ (RainLruK.put k v s) !! k = Some v
  ∧ RainLruK.main (RainLruK.put k v s) = RainLruK.main s.
Proof.
  intros Hk Hr. unfold RainLruK.put. rewrite (lru_get_miss k _ Hk).
  destruct (RainLruK.bumpHistory k _) as [h2 c]. simpl in Hr. rewrite Hr.
  simpl. by rewrite lookup_insert_eq.
Qed.
End LruKFacts.

Section LruKSideTable.
Context {K : Type} `{Countable K} `{Default K} {V : Type} `{Default V}.
Implicit Types (s : RainLruK.t K V) (k : K) (v : V).

(** The first [put] of a key the cache has never seen leaves the
    value in the side table: each such key makes the table one
    larger. *)
Lemma lruk_putAll_fresh (l : list (K * V)) s :
  2 ≤ RainLruK.k_ s < 2 ^ 64 →
  RainLru.nodeMap_ (RainLruK.main s) = ∅ →
  NoDup l.*1 →
  (∀ k, k ∈ l.*1 →
     RainLruK.historyValueMap_ s !! k = None
     ∧ RainLru.nodeMap_ (RainLruK.historyList_ s) !! k = None) →
  size (RainLruK.historyValueMap_ (RainLruK.putAll l s))
  = (size (RainLruK.historyValueMap_ s) + length l)%nat.
Proof.
  revert s. induction l as [|[k v] l IH]; intros s Hk Hmain Hnd Hfresh.
  - simpl. unfold RainLruK.putAll. simpl. lia.
  - change (RainLruK.putAll ((k, v) :: l) s)
      with (RainLruK.putAll l (RainLruK.put k v s)).
    simpl in Hnd. apply NoDup_cons in Hnd as [Hkl Hnd].
    destruct (Hfresh k) as [Hvk Hhk]; [simpl; left|].
    assert (RainLruK.put k v s
            = {| RainLruK.main := RainLruK.main s;
                 RainLruK.k_ := RainLruK.k_ s;
                 RainLruK.historyList_ :=
                   RainLru.put k 1 (RainLruK.historyList_ s);
                 RainLruK.historyValueMap_ :=
                   <[k := v]> (RainLruK.historyValueMap_ s) |}) as Hput.
    { unfold RainLruK.put. rewrite lru_get_miss by by rewrite Hmain.
      unfold RainLruK.bumpHistory, RainLru.get_value.
      rewrite (lru_get_miss k _ Hhk). simpl.
      unfold RainLruK.reached. rewrite (to_size_t_small (RainLruK.k_ s)) by lia.
      change (to_size_t (dflt + 1)) with 1.
      destruct (Z.leb_spec (RainLruK.k_ s) 1) as [?|_]; [lia|done]. }
    rewrite Hput. rewrite IH; simpl; try done.
    + rewrite map_size_insert_None by done. lia.
    + intros j Hj. destruct (decide (j = k)) as [->|Hne]; [done|].
      destruct (Hfresh j) as [Hvj Hhj]; [simpl; by right|].
      split; [by rewrite lookup_insert_ne|].
      destruct (RainLru.nodeMap_ (RainLru.put k 1 (RainLruK.historyList_ s)) !! j)
        as [n|] eqn:E; [|done].
      destruct (lru_put_lookup_is_Some k 1 j (RainLruK.historyList_ s))
        as [?|[? ?]]; [by rewrite E|done|congruence].
Qed.

(** C10: the side table of LRU-K loses a value only in the branch
    that promotes its key.  (1) One operation keeps a value of the
    side table, or replaces it by the value of a [put] of the same
    key, or erases it in the promotion branch: the key missed the
    main cache, its new count has reached [k_], and [RainLru::put] is
    called with the value, so that the key is in the main cache
    afterwards if the main capacity is positive, and the main cache
    is unchanged, the value being dropped, if it is not.  (2) An
    operation on another key, whatever it evicts from the history
    LRU, keeps the value.  (3) A [put] of a key outside the main cache
    that stays below the threshold leaves its value in the side
    table.  (4) No capacity bounds the side table: after the first
    [put] of each of [n] distinct keys it holds [n] values, for every
    main capacity and history capacity. *)
Theorem lruk_side_table_erased_only_on_promotion :
  (∀ s (o : RainLruK.op K V) k v,
     RainLruK.historyValueMap_ s !! k = Some v →
     RainLruK.historyValueMap_ (RainLruK.step s o) !! k = Some v
     ∨ (∃ v', o = RainLruK.Put k v'
              ∧ RainLruK.historyValueMap_ (RainLruK.step s o) !! k = Some v')
     ∨ (RainLruK.opKey o = k
        ∧ RainLruK.historyValueMap_ (RainLruK.step s o) !! k = None
        ∧ RainLru.nodeMap_ (RainLruK.main s) !! k = None
        ∧ RainLruK.reached
            (RainLruK.bumpHistory k (RainLruK.historyList_ s)).2
            (RainLruK.k_ s) = true
        ∧ (∃ w, (o = RainLruK.Get k ∧ w = v ∨ o = RainLruK.Put k w)
                ∧ RainLruK.main (RainLruK.step s o)
                  = RainLru.put k w (RainLruK.main s))
        ∧ (0 < RainLru.capacity_ (RainLruK.main s) →
           RainLru.contains k (RainLruK.main (RainLruK.step s o)) = true)
        ∧ (RainLru.capacity_ (RainLruK.main s) ≤ 0 →
           RainLruK.main (RainLruK.step s o) = RainLruK.main s)))
  ∧ (∀ s (o : RainLruK.op K V) k,
       RainLruK.opKey o ≠ k →
       RainLruK.historyValueMap_ (RainLruK.step s o) !! k
       = RainLruK.historyValueMap_ s !! k)
  ∧ (∀ s k v,
       RainLru.nodeMap_ (RainLruK.main s) !! k = None →
       RainLruK.reached (RainLruK.bumpHistory k (RainLruK.historyList_ s)).2
                        (RainLruK.k_ s) = false →
       RainLruK.historyValueMap_ (RainLruK.put k v s) !! k = Some v)
  ∧ (∀ (capacity historyCapacity k : Z) (l : list (K * V)),
       2 ≤ k < 2 ^ 31 →
       NoDup l.*1 →
       size (RainLruK.historyValueMap_
               (RainLruK.putAll l (RainLruK.init capacity historyCapacity k)))
       = length l).
Proof.
  split_and!.
  - apply lruk_step_side_table.
  - apply lruk_step_other.
  - intros s k v Hk Hr. by apply lruk_put_below_threshold.
  - intros c h k l Hk Hnd.
    rewrite lruk_putAll_fresh; simpl; try done; lia.
Qed.
End LruKSideTable.

(** With history capacity 1 and K = 3, the [put] of key 2 evicts the
    count of key 1 from the history LRU, and the side table still
    holds the value of key 1. *)
Example lruk_history_eviction_keeps_value :
  let s1 := RainLruK.put (1 : Z) "a"%string (RainLruK.init 2 1 3) in
  let s2 := RainLruK.put 2 "b"%string s1 in
  RainLru.contains 1 (RainLruK.historyList_ s1) = true
  ∧ RainLru.contains 1 (RainLruK.historyList_ s2) = false
  ∧ RainLruK.historyValueMap_ s2 !! 1 = Some "a"%string
  ∧ RainLru.contains 1 (RainLruK.main s2) = false.
Proof. vm_compute. split_and!; reflexivity. Qed.

(** C10, as stated, fails: in a cache with main capacity 0, history
    capacity 4 and K = 2, the second [put] of key 1 reaches the
    threshold and erases the value of key 1 from the side table,
    while [RainLru::put] returns at once and the key does not enter
    the main cache; the value is in neither place and [get] returns
    the default value.  A [get] of key 1 after the first [put] erases
    the value in the same way. *)
Lemma lruk_side_value_erased_without_promotion :
  let s0 : RainLruK.t Z string := RainLruK.init 0 4 2 in
  let s1 := RainLruK.put 1 "a"%string s0 in
  let s2 := RainLruK.put 1 "b"%string s1 in
  let s2' := (RainLruK.get 1 s1).1 in
  RainLruK.historyValueMap_ s1 !! 1 = Some "a"%string
  ∧ RainLruK.historyValueMap_ s2 !! 1 = None
  ∧ RainLru.contains 1 (RainLruK.main s2) = false
  ∧ RainLruK.main s2 = RainLruK.main s0
  ∧ (RainLruK.get 1 s2).2 = EmptyString
  ∧ (RainLruK.get 1 s1).2 = "a"%string
  ∧ RainLruK.historyValueMap_ s2' !! 1 = None
  ∧ RainLru.contains 1 (RainLruK.main s2') = false
  ∧ (RainLruK.get 1 s2').2 = EmptyString.
Proof. vm_compute. split_and!; reflexivity. Qed.

(** The four parts of the statement on the side table.  Part (1) on
    a cache with main capacity 2, history capacity 1 and K = 3, where
    the [get] of key 1 stays below the threshold, and on a cache with
    main capacity 0, history capacity 4 and K = 2, where the second
    [put] of key 1 erases the value and leaves the main cache
    unchanged; the other parts on the first cache. *)
Lemma lruk_side_table_witness :
  let s1 := RainLruK.put (1 : Z) "a"%string (RainLruK.init 2 1 3) in
  let z1 := RainLruK.put (1 : Z) "a"%string (RainLruK.init 0 4 2) in
  RainLruK.historyValueMap_ (RainLruK.step s1 (RainLruK.Get 1)) !! 1
  = Some "a"%string
  ∧ (RainLruK.historyValueMap_ z1 !! 1 = Some "a"%string
     ∧ RainLruK.historyValueMap_
         (RainLruK.step z1 (RainLruK.Put 1 "b"%string)) !! 1 = None
     ∧ RainLruK.main (RainLruK.step z1 (RainLruK.Put 1 "b"%string))
       = RainLruK.main z1)
  ∧ RainLruK.historyValueMap_ (RainLruK.step s1 (RainLruK.Put 2 "b"%string)) !! 1
    = RainLruK.historyValueMap_ s1 !! 1
  ∧ RainLruK.historyValueMap_
      (RainLruK.put 1 "a"%string (RainLruK.init 2 1 3)) !! 1 = Some "a"%string
  ∧ size (RainLruK.historyValueMap_
            (RainLruK.putAll [(1, "a"%string); (2, "b"%string); (3, "c"%string)]
               (RainLruK.init 2 1 3)))
    = 3%nat.
Proof.
  destruct (lruk_side_table_erased_only_on_promotion (K := Z) (V := string))
    as (H1 & H2 & H3 & H4).
  intros s1 z1.
  assert (RainLruK.historyValueMap_ s1 !! 1 = Some "a"%string) as Hs1
    by (vm_compute; reflexivity).
  assert (RainLruK.historyValueMap_ z1 !! 1 = Some "a"%string) as Hz1
    by (vm_compute; reflexivity).
  split_and!.
  - destruct (H1 s1 (RainLruK.Get 1) 1 "a"%string Hs1)
      as [Hkeep|[(v' & Hput & _)|(_ & Hgone & _)]].
    + exact Hkeep.
    + discriminate Hput.
    + vm_compute in Hgone. discriminate Hgone.
  - exact Hz1.
  - destruct (H1 z1 (RainLruK.Put 1 "b"%string) 1 "a"%string Hz1)
      as [Hkeep|[(v' & _ & Hnew)|(_ & Hgone & _)]].
    + vm_compute in Hkeep. discriminate Hkeep.
    + vm_compute in Hnew. discriminate Hnew.
    + exact Hgone.
  - destruct (H1 z1 (RainLruK.Put 1 "b"%string) 1 "a"%string Hz1)
      as [Hkeep|[(v' & _ & Hnew)|(_ & _ & _ & _ & _ & _ & Hsame)]].
    + vm_compute in Hkeep. discriminate Hkeep.
    + vm_compute in Hnew. discriminate Hnew.
    + apply Hsame. vm_compute. congruence.
  - apply H2. simpl. lia.
  - apply H3; vm_compute; reflexivity.
  - apply (H4 2 1 3 [(1, "a"%string); (2, "b"%string); (3, "c"%string)]); [lia|].
    simpl. repeat (apply NoDup_cons_2; [set_solver|]). apply NoDup_nil_2.
Defined.

(** ** RainLruHash *)

Section ShardedFacts.
Context {K : Type} `{Countable K} `{Default K} {V : Type} `{Default V}.
Variable hashFunc : K → Z.
Variable hardware_concurrency : Z.
Implicit Types (s : RainLruHash.t K V) (k : K) (v : V).

(** [sliceSize] is the quotient rounded up. *)
Lemma sliceSize_ceil (C N : Z) :
  0 < N → 0 ≤ C →
  0 ≤ RainLruHash.sliceSize C N
  ∧ C ≤ N * RainLruHash.sliceSize C N < C + N.
Proof.
  intros HN HC. unfold RainLruHash.sliceSize.
  pose proof (Z.div_mod (C + N - 1) N ltac:(lia)) as Hdm.
  pose proof (Z.mod_pos_bound (C + N - 1) N HN) as Hr.
  split; [apply Z.div_pos; lia | lia].
Qed.

Lemma sharded_wf_init (C N : Z) :
  0 < N → 0 ≤ C → RainLruHash.sliceSize C N < 2 ^ 31 →
  RainLruHash.wf (RainLruHash.sliceSize C N)
    (RainLruHash.init (K := K) (V := V) hardware_concurrency C N)
  ∧ RainLruHash.sliceNum_
      (RainLruHash.init (K := K) (V := V) hardware_concurrency C N) = N.
Proof.
  intros HN HC Hs. unfold RainLruHash.init.
  destruct (Z.ltb_spec 0 N) as [_|?]; [|lia].
  destruct (sliceSize_ceil C N HN HC) as [Hs0 _].
  rewrite to_int_small by lia.
  split; [|done]. split; simpl.
  - by rewrite length_replicate.
  - apply Forall_replicate. split; [apply lru_wf_init|done].
Qed.

Lemma sharded_put_sliceNum k v s :
  RainLruHash.sliceNum_ (RainLruHash.put hashFunc k v s) = RainLruHash.sliceNum_ s.
Proof. unfold RainLruHash.put. by destruct (_ !! _). Qed.

Lemma sharded_wf_put (c : Z) k v s :
  c < 2 ^ 64 → RainLruHash.wf c s → RainLruHash.wf c (RainLruHash.put hashFunc k v s).
Proof.
  intros Hc [Hlen Hall]. unfold RainLruHash.put.
  destruct (RainLruHash.lruSliceCaches_ s !! RainLruHash.sliceIndex hashFunc k s)
    as [x|] eqn:Hx; [|done].
  split; simpl; [by rewrite length_insert|].
  apply Forall_insert; [done|].
  rewrite Forall_forall in Hall. destruct (Hall x) as [Hwf Hcap].
  { by eapply list_elem_of_lookup_2. }
  split.
  - apply lru_wf_put; [lia|done].
  - rewrite <- Hcap. apply (lru_capacity_step x (RainLru.Put k v)).
Qed.

Lemma sharded_wf_putAll (c : Z) (l : list (K * V)) s :
  c < 2 ^ 64 → RainLruHash.wf c s →
  RainLruHash.wf c (RainLruHash.putAll hashFunc l s)
  ∧ RainLruHash.sliceNum_ (RainLruHash.putAll hashFunc l s) = RainLruHash.sliceNum_ s.
Proof.
  intros Hc. revert s. induction l as [|[k v] l IH]; intros s Hwf; [done|].
  change (RainLruHash.putAll hashFunc ((k, v) :: l) s)
    with (RainLruHash.putAll hashFunc l (RainLruHash.put hashFunc k v s)).
  destruct (IH (RainLruHash.put hashFunc k v s)) as [Hwf' Hn'].
  - by apply sharded_wf_put.
  - split; [done|]. by rewrite Hn', sharded_put_sliceNum.
Qed.

(** A [put] finds the slice of its key, and works on that slice
    alone. *)
Lemma sharded_put_slice (c : Z) k v s :
  0 < RainLruHash.sliceNum_ s < 2 ^ 31 → RainLruHash.wf c s →
  ∃ x, RainLruHash.lruSliceCaches_ s !! RainLruHash.sliceIndex hashFunc k s = Some x
       ∧ RainLruHash.lruSliceCaches_ (RainLruHash.put hashFunc k v s)
         = <[RainLruHash.sliceIndex hashFunc k s := RainLru.put k v x]>
             (RainLruHash.lruSliceCaches_ s).
Proof.
  intros Hn [Hlen _].
  assert (RainLruHash.sliceIndex hashFunc k s
          < length (RainLruHash.lruSliceCaches_ s))%nat as Hi.
  { rewrite Hlen. unfold RainLruHash.sliceIndex.
    rewrite (to_size_t_small (RainLruHash.sliceNum_ s)) by lia.
    pose proof (Z.mod_pos_bound (RainLruHash.Hash hashFunc k)
                  (RainLruHash.sliceNum_ s) ltac:(lia)). lia. }
  apply lookup_lt_is_Some_2 in Hi as [x Hx]. exists x. split; [done|].
  unfold RainLruHash.put. by rewrite Hx.
Qed.
(** The slices of a new cache have the capacity that the [int]
    parameter of [RainLru] receives, whatever it is. *)
Lemma sharded_wf_init_int (C N : Z) :
  0 < N →
  RainLruHash.wf (to_int (RainLruHash.sliceSize C N))
    (RainLruHash.init (K := K) (V := V) hardware_concurrency C N)
  ∧ RainLruHash.sliceNum_
      (RainLruHash.init (K := K) (V := V) hardware_concurrency C N) = N.
Proof.
  intros HN. unfold RainLruHash.init.
  destruct (Z.ltb_spec 0 N) as [_|?]; [|lia].
  split; [|done]. split; simpl.
  - by rewrite length_replicate.
  - apply Forall_replicate. split; [apply lru_wf_init|done].
Qed.

(** Well formed slices of capacity [c] hold at most [max 0 c] entries
    each: a slice whose capacity is not positive holds nothing. *)
Lemma sharded_resident_le_max (c : Z) s :
  0 ≤ RainLruHash.sliceNum_ s → RainLruHash.wf c s →
  Z.of_nat (RainLruHash.resident s) ≤ RainLruHash.sliceNum_ s * Z.max 0 c.
Proof.
  intros Hn [Hlen Hall]. unfold RainLruHash.resident.
  assert (RainLruHash.sliceNum_ s = Z.of_nat (length (RainLruHash.lruSliceCaches_ s)))
    as -> by lia.
  clear Hlen Hn. induction Hall as [|x l [[_ _ Hsz] Hcap] _ IH]; simpl; [lia|].
  rewrite Hcap in Hsz. lia.
Qed.
End ShardedFacts.

(** C9: a sharded LRU of total capacity [0 ≤ C < 2^53] with
    [0 < N < 2^31] slices has [N] slices, each an LRU whose capacity
    is [⌈C / N⌉] as the [int] parameter of [RainLru] receives it,
    which is [⌈C / N⌉] itself when [⌈C / N⌉ < 2^31]; a [put] works on
    the one slice of its key; and after every sequence of [put] calls
    at most [N * ⌈C / N⌉] entries are resident, and none when the
    capacity of the slices is not positive.  With [C = 4] and [N = 2]
    at most 4 entries are resident after 5 [put] calls, whatever the
    keys and the hash function. *)
Theorem sharded_lru_resident_bound :
  ∀ (K : Type) `{Countable K} `{Default K} (V : Type) (hashFunc : K → Z) (hw : Z),
    (∀ (C N : Z) (l : list (K * V)),
       0 < N < 2 ^ 31 → 0 ≤ C < 2 ^ 53 →
       let s0 : RainLruHash.t K V := RainLruHash.init hw C N in
       let s := RainLruHash.putAll hashFunc l s0 in
       C ≤ N * RainLruHash.sliceSize C N < C + N
       ∧ RainLruHash.lruSliceCaches_ s0
         = replicate (Z.to_nat N)
             (RainLru.init (to_int (RainLruHash.sliceSize C N)))
       ∧ length (RainLruHash.lruSliceCaches_ s) = Z.to_nat N
       ∧ Forall (λ x, RainLru.capacity_ x = to_int (RainLruHash.sliceSize C N))
                (RainLruHash.lruSliceCaches_ s)
       ∧ (RainLruHash.sliceSize C N < 2 ^ 31 →
          RainLruHash.lruSliceCaches_ s0
          = replicate (Z.to_nat N) (RainLru.init (RainLruHash.sliceSize C N))
          ∧ Forall (λ x, RainLru.capacity_ x = RainLruHash.sliceSize C N)
                   (RainLruHash.lruSliceCaches_ s))
       ∧ (∀ k v, ∃ x,
            RainLruHash.lruSliceCaches_ s !! RainLruHash.sliceIndex hashFunc k s
            = Some x
            ∧ RainLruHash.lruSliceCaches_ (RainLruHash.put hashFunc k v s)
              = <[RainLruHash.sliceIndex hashFunc k s := RainLru.put k v x]>
                  (RainLruHash.lruSliceCaches_ s))
       ∧ Z.of_nat (RainLruHash.resident s)
         ≤ N * Z.max 0 (to_int (RainLruHash.sliceSize C N))
       ∧ Z.of_nat (RainLruHash.resident s) ≤ N * RainLruHash.sliceSize C N)
    ∧ (∀ (l : list (K * V)),
         length l = 5%nat →
         (RainLruHash.resident
            (RainLruHash.putAll hashFunc l (RainLruHash.init hw 4 2)) ≤ 4)%nat).
Proof.
  intros K ? ? ? V hashFunc hw.
  assert (∀ (C N : Z) (l : list (K * V)),
       0 < N < 2 ^ 31 → 0 ≤ C →
       RainLruHash.wf (to_int (RainLruHash.sliceSize C N))
         (RainLruHash.putAll hashFunc l (RainLruHash.init hw C N))
       ∧ RainLruHash.sliceNum_
           (RainLruHash.putAll hashFunc l (RainLruHash.init hw C N)) = N) as Hwf.
  { intros C N l HN HC.
    destruct (sharded_wf_init_int (K := K) (V := V) hw C N) as [Hwf0 Hn0];
      [lia|].
    destruct (sliceSize_ceil C N) as [Hs0 _]; [lia..|].
    pose proof (to_int_le _ Hs0) as Hle.
    assert (to_int (RainLruHash.sliceSize C N) < 2 ^ 31) as Hint.
    { unfold to_int.
      pose proof (Z.mod_pos_bound (RainLruHash.sliceSize C N + 2 ^ 31) (2 ^ 32)
                    ltac:(lia)). lia. }
    destruct (sharded_wf_putAll hashFunc (to_int (RainLruHash.sliceSize C N)) l
                (RainLruHash.init hw C N)) as [Hwf1 Hn1]; [lia|done|].
    split; [done|]. by rewrite Hn1. }
  assert (∀ (C N : Z) (l : list (K * V)),
       0 < N < 2 ^ 31 → 0 ≤ C →
       Z.of_nat (RainLruHash.resident
                   (RainLruHash.putAll hashFunc l (RainLruHash.init hw C N)))
       ≤ N * Z.max 0 (to_int (RainLruHash.sliceSize C N))
       ∧ Z.of_nat (RainLruHash.resident
                     (RainLruHash.putAll hashFunc l (RainLruHash.init hw C N)))
         ≤ N * RainLruHash.sliceSize C N) as Hres.
  { intros C N l HN HC. destruct (Hwf C N l HN HC) as [Hwf1 Hn1].
    destruct (sliceSize_ceil C N) as [Hs0 _]; [lia..|].
    pose proof (to_int_le _ Hs0) as Hle.
    assert (0 ≤ RainLruHash.sliceNum_
                  (RainLruHash.putAll hashFunc l (RainLruHash.init hw C N)))
      as Hn0 by (rewrite Hn1; lia).
    pose proof (sharded_resident_le_max _ _ Hn0 Hwf1) as Hb.
    rewrite Hn1 in Hb. split; [done|].
    etrans; [exact Hb|]. apply Z.mul_le_mono_nonneg_l; lia. }
  split.
  - intros C N l HN HC s0 s.
    destruct (sliceSize_ceil C N) as [Hs0 Hceil]; [lia..|].
    destruct (Hwf C N l HN ltac:(lia)) as [Hwf1 Hn1]. fold s0 s in Hwf1, Hn1.
    destruct (Hres C N l HN ltac:(lia)) as [Hr1 Hr2]. fold s0 s in Hr1, Hr2.
    assert (RainLruHash.lruSliceCaches_ s0
            = replicate (Z.to_nat N)
                (RainLru.init (to_int (RainLruHash.sliceSize C N)))) as Hinit.
    { unfold s0, RainLruHash.init. by destruct (Z.ltb_spec 0 N) as [_|?]; [|lia]. }
    assert (Forall (λ x, RainLru.capacity_ x = to_int (RainLruHash.sliceSize C N))
              (RainLruHash.lruSliceCaches_ s)) as Hcaps.
    { destruct Hwf1 as [_ Hall]. eapply Forall_impl; [exact Hall|].
      by intros x [_ ?]. }
    split_and!.
    + lia.
    + lia.
    + exact Hinit.
    + destruct Hwf1 as [Hlen _]. by rewrite Hlen, Hn1.
    + exact Hcaps.
    + intros Hs. rewrite to_int_small in Hinit, Hcaps by lia. done.
    + intros k v. eapply sharded_put_slice; [|exact Hwf1]. rewrite Hn1. lia.
    + exact Hr1.
    + exact Hr2.
  - intros l _.
    destruct (Hres 4 2 l) as [_ Hle]; [lia|lia|].
    change (RainLruHash.sliceSize 4 2) with 2 in Hle. lia.
Qed.

(** The bound on a sharded LRU of total capacity 4 with 2 slices and
    the identity as hash function, after 5 [put] calls, and the
    capacity of its slices. *)
Lemma sharded_lru_resident_bound_witness :
  let hashFunc : Z → Z := λ k, k in
  let l := [(1, "a"); (2, "b"); (3, "c"); (4, "d"); (5, "e")]%string in
  let s := RainLruHash.putAll hashFunc l (RainLruHash.init 8 4 2) in
  (0 < 2 < 2 ^ 31 ∧ 0 ≤ 4 < 2 ^ 53 ∧ RainLruHash.sliceSize 4 2 < 2 ^ 31)
  ∧ Forall (λ x, RainLru.capacity_ x = RainLruHash.sliceSize 4 2)
           (RainLruHash.lruSliceCaches_ s)
  ∧ Z.of_nat (RainLruHash.resident s) ≤ 2 * RainLruHash.sliceSize 4 2
  ∧ (RainLruHash.resident s ≤ 4)%nat.
Proof.
  intros hashFunc l s.
  destruct (sharded_lru_resident_bound Z string hashFunc 8) as [Hgen Hfive].
  assert (0 < 2 < 2 ^ 31 ∧ 0 ≤ 4 < 2 ^ 53 ∧ RainLruHash.sliceSize 4 2 < 2 ^ 31)
    as Hpre by (vm_compute; intuition congruence).
  split; [exact Hpre|]. destruct Hpre as (HN & HC & Hs).
  destruct (Hgen 4 2 l HN HC) as (_ & _ & _ & _ & Hexact & _ & _ & Hle).
  split_and!.
  - exact (proj2 (Hexact Hs)).
  - exact Hle.
  - apply Hfive. reflexivity.
Defined.

(** C9, as stated, fails: with total capacity [2^31] and one slice
    the rounded up quotient is [2^31], and the [int] parameter of
    [RainLru] receives it as [-2^31].  The slice is an LRU of that
    capacity, not of capacity [⌈C / N⌉]; its [put] returns at once,
    and the key is not found afterwards. *)
Lemma sharded_slice_capacity_wraps :
  let hashFunc : Z → Z := λ k, k in
  let s0 : RainLruHash.t Z string := RainLruHash.init 8 (2 ^ 31) 1 in
  let s1 := RainLruHash.put hashFunc 1 "a"%string s0 in
  RainLruHash.sliceSize (2 ^ 31) 1 = 2 ^ 31
  ∧ map RainLru.capacity_ (RainLruHash.lruSliceCaches_ s0) = [- 2 ^ 31]
  ∧ ¬ Forall (λ x, RainLru.capacity_ x = RainLruHash.sliceSize (2 ^ 31) 1)
        (RainLruHash.lruSliceCaches_ s0)
  ∧ RainLruHash.resident s1 = 0%nat
  ∧ (RainLruHash.get hashFunc 1 s1).2 = None.
Proof.
  intros hashFunc s0 s1. split_and!; try (vm_compute; reflexivity).
  intros HF. apply Forall_inv in HF. vm_compute in HF. discriminate HF.
Qed.

(** The access counts in an LRU of capacity 2 after hits of [get] and
    an update by [put]. *)
Lemma lru_access_count_never_incremented_witness :
  let s := RainLru.put (1 : Z) "a"%string (RainLru.init 2) in
  RainLru.accessCount 1 (RainLru.get 1 s).1 = RainLru.accessCount 1 s
  ∧ (RainLru.accessCount 1 (RainLru.put 1 "b"%string s) = Some 1
     ∧ (1 = 1 ∨ RainLru.accessCount 1 s = Some 1))
  ∧ (RainLru.accessCount 2
       (RainLru.run [RainLru.Put 1 "a"; RainLru.Put 2 "b"; RainLru.Get 2;
                     RainLru.Get 2; RainLru.Put 2 "c"]%string
          (RainLru.init 2)) = Some 1
     ∧ 1 = 1).
Proof.
  intros s.
  destruct (lru_access_count_never_incremented (K := Z) (V := string))
    as (Hget & Hput & Hrun).
  split_and!.
  - apply Hget.
  - vm_compute. reflexivity.
  - apply (Hput s 1 "b"%string 1 1). vm_compute. reflexivity.
  - vm_compute. reflexivity.
  - apply (Hrun 2 [RainLru.Put 1 "a"; RainLru.Put 2 "b"; RainLru.Get 2;
                   RainLru.Get 2; RainLru.Put 2 "c"]%string 2 1).
    vm_compute. reflexivity.
Defined.

(** ** The halves of the ARC cache *)

Section ArcPartFacts.
Context {K : Type} `{Countable K} {V : Type}.
Implicit Types (s : ArcLruPart.t K V) (k j : K) (v : V).

(** The frequency half evicts as the recency half does. *)
Lemma lfu_evict_eq s : ArcLfuPart.evict s = ArcLruPart.evictLeastRecent s.
Proof. reflexivity. Qed.

(** Dropping the oldest ghost touches the ghost list and the ghost
    mapping only. *)
Lemma arc_removeOldestGhost_frame s :
  ArcLruPart.capacity_ (ArcLruPart.removeOldestGhost s) = ArcLruPart.capacity_ s
  ∧ ArcLruPart.ghostCapacity_ (ArcLruPart.removeOldestGhost s)
    = ArcLruPart.ghostCapacity_ s
  ∧ ArcLruPart.mainCache_ (ArcLruPart.removeOldestGhost s)
    = ArcLruPart.mainCache_ s
  ∧ ArcLruPart.mainList (ArcLruPart.removeOldestGhost s) = ArcLruPart.mainList s.
Proof.
  unfold ArcLruPart.removeOldestGhost.
  by destruct (back (ArcLruPart.ghostList s)).
Qed.

Lemma arc_evict_capacity s :
  ArcLruPart.capacity_ (ArcLruPart.evictLeastRecent s) = ArcLruPart.capacity_ s.
Proof.
  unfold ArcLruPart.evictLeastRecent.
  destruct (back (ArcLruPart.mainList s)) as [k|]; [|done].
  destruct (ArcLruPart.mainCache_ s !! k); [|done]. simpl.
  destruct (_ <=? _); [|done].
  by destruct (arc_removeOldestGhost_frame
                 (ArcLruPart.set_main (ArcLruPart.mainCache_ s)
                    (drop_back (ArcLruPart.mainList s)) s)) as (-> & _).
Qed.

Lemma arc_evict_ghostCapacity s :
  ArcLruPart.ghostCapacity_ (ArcLruPart.evictLeastRecent s)
  = ArcLruPart.ghostCapacity_ s.
Proof.
  unfold ArcLruPart.evictLeastRecent.
  destruct (back (ArcLruPart.mainList s)) as [k|]; [|done].
  destruct (ArcLruPart.mainCache_ s !! k); [|done]. simpl.
  destruct (_ <=? _); [|done].
  by destruct (arc_removeOldestGhost_frame
                 (ArcLruPart.set_main (ArcLruPart.mainCache_ s)
                    (drop_back (ArcLruPart.mainList s)) s)) as (_ & -> & _).
Qed.

(** An eviction enters in the ghost mapping no key but one that the
    live mapping held. *)
Lemma arc_evict_ghost_lookup s k :
  ArcLruPart.mainCache_ s !! k = None →
  ArcLruPart.ghostCache_ s !! k = None →
  ArcLruPart.ghostCache_ (ArcLruPart.evictLeastRecent s) !! k = None.
Proof.
  intros Hm Hg. unfold ArcLruPart.evictLeastRecent.
  destruct (back (ArcLruPart.mainList s)) as [j|]; [|done].
  destruct (ArcLruPart.mainCache_ s !! j) as [node|] eqn:Hj; [|done].
  assert (j ≠ k) as Hne by congruence.
  simpl. rewrite lookup_insert_ne by done.
  destruct (_ <=? _); [|done].
  unfold ArcLruPart.removeOldestGhost. simpl.
  destruct (back (ArcLruPart.ghostList s)) as [o|]; [|done].
  simpl. apply lookup_delete_None. by right.
Qed.

Lemma arc_evict_main_lookup s k :
  ArcLruPart.mainCache_ s !! k = None →
  ArcLruPart.mainCache_ (ArcLruPart.evictLeastRecent s) !! k = None.
Proof.
  intros Hm. unfold ArcLruPart.evictLeastRecent.
  destruct (back (ArcLruPart.mainList s)) as [j|]; [|done].
  destruct (ArcLruPart.mainCache_ s !! j) as [node|] eqn:Hj; [|done].
  simpl. apply lookup_delete_None. right.
  destruct (_ <=? _); [|done].
  by destruct (arc_removeOldestGhost_frame
                 (ArcLruPart.set_main (ArcLruPart.mainCache_ s)
                    (drop_back (ArcLruPart.mainList s)) s)) as (_ & _ & -> & _).
Qed.

Lemma lru_part_put_capacity k v s :
  ArcLruPart.capacity_ (ArcLruPart.put k v s).1 = ArcLruPart.capacity_ s.
Proof.
  unfold ArcLruPart.put, ArcLruPart.addNewNode.
  destruct (_ =? 0); [done|]. destruct (_ !! k); simpl; [done|].
  destruct (_ <=? _); [|done]. apply arc_evict_capacity.
Qed.

Lemma lru_part_get_capacity k s :
  ArcLruPart.capacity_ (ArcLruPart.get k s).1 = ArcLruPart.capacity_ s.
Proof. unfold ArcLruPart.get. by destruct (_ !! k). Qed.

Lemma lfu_part_put_capacity k v s :
  ArcLruPart.capacity_ (ArcLfuPart.put k v s).1 = ArcLruPart.capacity_ s.
Proof.
  unfold ArcLfuPart.put.
  destruct (_ =? 0); [done|]. destruct (_ !! k); simpl; [done|].
  destruct (_ <=? _); [|done]. rewrite lfu_evict_eq. apply arc_evict_capacity.
Qed.

Lemma lfu_part_get_capacity k s :
  ArcLruPart.capacity_ (ArcLfuPart.get k s).1 = ArcLruPart.capacity_ s.
Proof. unfold ArcLfuPart.get. by destruct (_ !! k). Qed.

(** The recency half reports a [put] as stored unless its live
    capacity is 0. *)
Lemma lru_part_put_stored k v s :
  (ArcLruPart.put k v s).2 = negb (ArcLruPart.capacity_ s =? 0).
Proof.
  unfold ArcLruPart.put. destruct (_ =? 0); [done|]. by destruct (_ !! k).
Qed.

(** After a [put] into a half with room the key is resident with the
    value that was put. *)
Lemma lru_part_put_lookup k v s :
  ArcLruPart.capacity_ s ≠ 0 →
  ∃ node, ArcLruPart.mainCache_ (ArcLruPart.put k v s).1 !! k = Some node
          ∧ ArcNode.value_ node = v.
Proof.
  intros Hc.
  unfold ArcLruPart.put, ArcLruPart.addNewNode, ArcLruPart.updateExistingNode.
  destruct (Z.eqb_spec (ArcLruPart.capacity_ s) 0) as [?|_]; [done|].
  destruct (ArcLruPart.mainCache_ s !! k); simpl;
    rewrite lookup_insert_eq; eauto.
Qed.

Lemma lfu_part_put_lookup k v s :
  ArcLruPart.capacity_ s ≠ 0 →
  ∃ node, ArcLruPart.mainCache_ (ArcLfuPart.put k v s).1 !! k = Some node
          ∧ ArcNode.value_ node = v.
Proof.
  intros Hc. unfold ArcLfuPart.put.
  destruct (Z.eqb_spec (ArcLruPart.capacity_ s) 0) as [?|_]; [done|].
  destruct (ArcLruPart.mainCache_ s !! k); simpl;
    rewrite lookup_insert_eq; eauto.
Qed.

(** The node of a key after a [put] into the frequency half: a new
    node, or the node it had with the new value and one access
    more. *)
Lemma lfu_part_put_node k v s :
  ArcLruPart.capacity_ s ≠ 0 →
  ArcLruPart.mainCache_ (ArcLfuPart.put k v s).1 !! k
  = Some (match ArcLruPart.mainCache_ s !! k with
          | Some node => ArcNode.incrementAccessCount (ArcNode.setValue v node)
          | None => ArcNode.newNode v
          end).
Proof.
  intros Hc. unfold ArcLfuPart.put.
  destruct (Z.eqb_spec (ArcLruPart.capacity_ s) 0) as [?|_]; [done|].
  destruct (ArcLruPart.mainCache_ s !! k); simpl; by rewrite lookup_insert_eq.
Qed.

(** A [put] of a key into the frequency half does not make the key
    a ghost of that half. *)
Lemma lfu_part_put_ghost k v s :
  ArcLruPart.ghostCache_ s !! k = None →
  ArcLruPart.ghostCache_ (ArcLfuPart.put k v s).1 !! k = None.
Proof.
  intros Hg. unfold ArcLfuPart.put.
  destruct (_ =? 0); [done|].
  destruct (ArcLruPart.mainCache_ s !! k) eqn:Hk; simpl; [done|].
  destruct (_ <=? _); [|done]. rewrite lfu_evict_eq.
  by apply arc_evict_ghost_lookup.
Qed.

Lemma lru_part_checkGhost_miss k s :
  ArcLruPart.ghostCache_ s !! k = None → ArcLruPart.checkGhost k s = (s, false).
Proof. intros Hg. unfold ArcLruPart.checkGhost. by rewrite Hg. Qed.

Lemma lfu_part_checkGhost_miss k s :
  ArcLruPart.ghostCache_ s !! k = None → ArcLfuPart.checkGhost k s = (s, false).
Proof. intros Hg. unfold ArcLfuPart.checkGhost. by rewrite Hg. Qed.

(** A ghost hit takes the key out of the ghost mapping and leaves
    the capacity as it is. *)
Lemma lru_part_checkGhost_hit k s :
  ArcLruPart.ghostCache_ s !! k ≠ None →
  (ArcLruPart.checkGhost k s).2 = true
  ∧ ArcLruPart.ghostCache_ (ArcLruPart.checkGhost k s).1 !! k = None
  ∧ ArcLruPart.capacity_ (ArcLruPart.checkGhost k s).1 = ArcLruPart.capacity_ s.
Proof.
  intros Hg. unfold ArcLruPart.checkGhost.
  destruct (ArcLruPart.ghostCache_ s !! k); [|done].
  simpl. by rewrite lookup_delete_eq.
Qed.

Lemma lfu_part_checkGhost_hit k s :
  ArcLruPart.ghostCache_ s !! k ≠ None →
  (ArcLfuPart.checkGhost k s).2 = true
  ∧ ArcLruPart.ghostCache_ (ArcLfuPart.checkGhost k s).1 !! k = None
  ∧ ArcLruPart.capacity_ (ArcLfuPart.checkGhost k s).1 = ArcLruPart.capacity_ s.
Proof. apply lru_part_checkGhost_hit. Qed.

(** [decreaseCapacity] takes one off a positive capacity and reports
    it, and does nothing to a capacity of 0. *)
Lemma lru_part_decreaseCapacity_spec s :
  0 ≤ ArcLruPart.capacity_ s →
  (0 < ArcLruPart.capacity_ s
   ∧ (ArcLruPart.decreaseCapacity s).2 = true
   ∧ ArcLruPart.capacity_ (ArcLruPart.decreaseCapacity s).1
     = ArcLruPart.capacity_ s - 1)
  ∨ (ArcLruPart.capacity_ s = 0 ∧ ArcLruPart.decreaseCapacity s = (s, false)).
Proof.
  intros Hc. unfold ArcLruPart.decreaseCapacity.
  destruct (Z.leb_spec (ArcLruPart.capacity_ s) 0) as [?|?].
  - right. split; [lia|done].
  - left. split; [done|]. simpl. split; [done|].
    destruct (_ =? _); [|done]. by rewrite arc_evict_capacity.
Qed.

Lemma lfu_part_decreaseCapacity_spec s :
  0 ≤ ArcLruPart.capacity_ s →
  (0 < ArcLruPart.capacity_ s
   ∧ (ArcLfuPart.decreaseCapacity s).2 = true
   ∧ ArcLruPart.capacity_ (ArcLfuPart.decreaseCapacity s).1
     = ArcLruPart.capacity_ s - 1)
  ∨ (ArcLruPart.capacity_ s = 0 ∧ ArcLfuPart.decreaseCapacity s = (s, false)).
Proof.
  intros Hc. unfold ArcLfuPart.decreaseCapacity.
  destruct (Z.eqb_spec (ArcLruPart.capacity_ s) 0) as [?|?].
  - by right.
  - left. split; [lia|]. simpl. split; [done|].
    destruct (_ =? _); [|done]. by rewrite lfu_evict_eq, arc_evict_capacity.
Qed.

(** [decreaseCapacity] leaves the ghost mapping without a key that
    neither mapping held. *)
Lemma lru_part_decreaseCapacity_ghost s k :
  ArcLruPart.ghostCache_ s !! k = None →
  ArcLruPart.mainCache_ s !! k = None →
  ArcLruPart.ghostCache_ (ArcLruPart.decreaseCapacity s).1 !! k = None.
Proof.
  intros Hg Hm. unfold ArcLruPart.decreaseCapacity.
  destruct (_ <=? 0); [done|]. simpl.
  destruct (_ =? _); [|done]. by apply arc_evict_ghost_lookup.
Qed.
End ArcPartFacts.

(** ** RainArc: the ghost check and the live capacities *)

Section ArcFacts.
Context {K : Type} `{Countable K} {V : Type} `{Default V}.
Implicit Types (s : RainArc.t K V) (k : K) (v : V).

Lemma arc_set_parts_id s :
  RainArc.set_parts (RainArc.lruPart_ s) (RainArc.lfuPart_ s) s = s.
Proof. by destruct s. Qed.

(** A key in neither ghost mapping: the ghost check does nothing. *)
Lemma arc_checkGhostCaches_miss k s :
  ArcLruPart.ghostCache_ (RainArc.lruPart_ s) !! k = None →
  ArcLruPart.ghostCache_ (RainArc.lfuPart_ s) !! k = None →
  RainArc.checkGhostCaches k s = (s, false).
Proof.
  intros Hr Hf. unfold RainArc.checkGhostCaches.
  rewrite (lru_part_checkGhost_miss k _ Hr), (lfu_part_checkGhost_miss k _ Hf).
  by rewrite arc_set_parts_id.
Qed.

(** A key in the ghost mapping of the recency half. *)
Lemma arc_checkGhostCaches_lru_hit k s :
  0 ≤ RainArc.lfuCapacity s →
  RainArc.lruCapacity s + 1 < 2 ^ 64 → 0 ≤ RainArc.lruCapacity s →
  ArcLruPart.ghostCache_ (RainArc.lruPart_ s) !! k ≠ None →
  (RainArc.checkGhostCaches k s).2 = true
  ∧ ArcLruPart.ghostCache_
      (RainArc.lruPart_ (RainArc.checkGhostCaches k s).1) !! k = None
  ∧ RainArc.lfuPart_ (RainArc.checkGhostCaches k s).1
    = (ArcLfuPart.decreaseCapacity (RainArc.lfuPart_ s)).1
  ∧ ((0 < RainArc.lfuCapacity s
      ∧ RainArc.lfuCapacity (RainArc.checkGhostCaches k s).1
        = RainArc.lfuCapacity s - 1
      ∧ RainArc.lruCapacity (RainArc.checkGhostCaches k s).1
        = RainArc.lruCapacity s + 1)
     ∨ (RainArc.lfuCapacity s = 0
        ∧ RainArc.lfuCapacity (RainArc.checkGhostCaches k s).1 = 0
        ∧ RainArc.lruCapacity (RainArc.checkGhostCaches k s).1
          = RainArc.lruCapacity s)).
Proof.
  unfold RainArc.lruCapacity, RainArc.lfuCapacity.
  intros Hf Hr Hr0 Hg. unfold RainArc.checkGhostCaches.
  destruct (lru_part_checkGhost_hit k _ Hg) as (Hhit & Hgone & Hcap).
  destruct (ArcLruPart.checkGhost k (RainArc.lruPart_ s)) as [r1 b]. simpl in *.
  subst b.
  destruct (lfu_part_decreaseCapacity_spec (RainArc.lfuPart_ s) Hf)
    as [(Hpos & Htrue & Hdec)|[Hzero Hsame]].
  - destruct (ArcLfuPart.decreaseCapacity (RainArc.lfuPart_ s)) as [f1 b].
    simpl in *. subst b. simpl. split_and!; [done..|]. left.
    split_and!; [done..|]. rewrite Hcap. by apply to_size_t_small; lia.
  - rewrite Hsame. simpl. split_and!; [done..|]. by right.
Qed.

(** A key in the ghost mapping of the frequency half, and not in
    that of the recency half. *)
Lemma arc_checkGhostCaches_lfu_hit k s :
  0 ≤ RainArc.lruCapacity s →
  ArcLruPart.ghostCache_ (RainArc.lruPart_ s) !! k = None →
  ArcLruPart.ghostCache_ (RainArc.lfuPart_ s) !! k ≠ None →
  (RainArc.checkGhostCaches k s).2 = true
  ∧ ArcLruPart.ghostCache_
      (RainArc.lfuPart_ (RainArc.checkGhostCaches k s).1) !! k = None
  ∧ RainArc.lruPart_ (RainArc.checkGhostCaches k s).1
    = (ArcLruPart.decreaseCapacity (RainArc.lruPart_ s)).1
  ∧ ((0 < RainArc.lruCapacity s
      ∧ RainArc.lruCapacity (RainArc.checkGhostCaches k s).1
        = RainArc.lruCapacity s - 1
      ∧ RainArc.lfuCapacity (RainArc.checkGhostCaches k s).1
        = RainArc.lfuCapacity s + 1)
     ∨ (RainArc.lruCapacity s = 0
        ∧ RainArc.lruCapacity (RainArc.checkGhostCaches k s).1 = 0
        ∧ RainArc.lfuCapacity (RainArc.checkGhostCaches k s).1
          = RainArc.lfuCapacity s)).
Proof.
  unfold RainArc.lruCapacity, RainArc.lfuCapacity.
  intros Hr0 Hgr Hgf. unfold RainArc.checkGhostCaches.
  rewrite (lru_part_checkGhost_miss k _ Hgr).
  destruct (lfu_part_checkGhost_hit k _ Hgf) as (Hhit & Hgone & Hcap).
  destruct (ArcLfuPart.checkGhost k (RainArc.lfuPart_ s)) as [f1 b]. simpl in *.
  subst b.
  destruct (lru_part_decreaseCapacity_spec (RainArc.lruPart_ s) Hr0)
    as [(Hpos & Htrue & Hdec)|[Hzero Hsame]].
  - destruct (ArcLruPart.decreaseCapacity (RainArc.lruPart_ s)) as [r2 b].
    simpl in *. subst b. simpl. split_and!; [done..|]. left.
    split_and!; [done..|]. by rewrite Hcap.
  - rewrite Hsame. simpl. split_and!; [done..|]. right.
    split_and!; [done..|]. done.
Qed.

(** After the ghost check [put] and [get] leave the live capacities
    alone. *)
Lemma arc_put_capacity k v s :
  RainArc.lruCapacity (RainArc.put k v s)
  = RainArc.lruCapacity (RainArc.checkGhostCaches k s).1
  ∧ RainArc.lfuCapacity (RainArc.put k v s)
    = RainArc.lfuCapacity (RainArc.checkGhostCaches k s).1.
Proof.
  unfold RainArc.lruCapacity, RainArc.lfuCapacity, RainArc.put.
  destruct (RainArc.checkGhostCaches k s) as [s1 g]. simpl.
  pose proof (lru_part_put_capacity k v (RainArc.lruPart_ s1)) as Hr.
  pose proof (lfu_part_put_capacity k v (RainArc.lfuPart_ s1)) as Hf.
  destruct g; simpl.
  - done.
  - destruct (ArcLruPart.put k v (RainArc.lruPart_ s1)) as [r1 b]. simpl in Hr.
    by destruct b.
Qed.

Lemma arc_get_capacity k s :
  RainArc.lruCapacity (RainArc.get k s).1
  = RainArc.lruCapacity (RainArc.checkGhostCaches k s).1
  ∧ RainArc.lfuCapacity (RainArc.get k s).1
    = RainArc.lfuCapacity (RainArc.checkGhostCaches k s).1.
Proof.
  unfold RainArc.lruCapacity, RainArc.lfuCapacity, RainArc.get.
  destruct (RainArc.checkGhostCaches k s) as [s1 g]. simpl.
  pose proof (lru_part_get_capacity k (RainArc.lruPart_ s1)) as Hr.
  destruct (ArcLruPart.get k (RainArc.lruPart_ s1)) as [r1 [[x b]|]]; simpl in Hr.
  - pose proof (lfu_part_put_capacity k x (RainArc.lfuPart_ s1)) as Hf.
    by destruct b.
  - pose proof (lfu_part_get_capacity k (RainArc.lfuPart_ s1)) as Hf.
    by destruct (ArcLfuPart.get k (RainArc.lfuPart_ s1)).
Qed.

(** The ghost check keeps the sum of the live capacities. *)
Lemma arc_balanced_checkGhostCaches (C : Z) k s :
  2 * C < 2 ^ 64 → RainArc.balanced C s →
  RainArc.balanced C (RainArc.checkGhostCaches k s).1.
Proof.
  intros HC (Hr & Hf & Hsum). unfold RainArc.balanced.
  destruct (ArcLruPart.ghostCache_ (RainArc.lruPart_ s) !! k) eqn:Hgr.
  - assert (RainArc.lruCapacity s + 1 < 2 ^ 64 ∨ RainArc.lfuCapacity s = 0)
      as [Hlt|Hz] by lia.
    + destruct (arc_checkGhostCaches_lru_hit k s) as (_ & _ & _ & Hcase);
        [done| done |done|by rewrite Hgr|].
      destruct Hcase as [(? & -> & ->)|(? & -> & ->)]; lia.
    + unfold RainArc.checkGhostCaches, ArcLruPart.checkGhost. rewrite Hgr.
      destruct (lfu_part_decreaseCapacity_spec (RainArc.lfuPart_ s) Hf)
        as [(Hpos & _)|[_ Hsame]];
        [unfold RainArc.lfuCapacity in Hz; lia|].
      rewrite Hsame. unfold RainArc.lruCapacity, RainArc.lfuCapacity in *.
      simpl. lia.
  - destruct (ArcLruPart.ghostCache_ (RainArc.lfuPart_ s) !! k) eqn:Hgf.
    + destruct (arc_checkGhostCaches_lfu_hit k s) as (_ & _ & _ & Hcase);
        [done|done|by rewrite Hgf|].
      destruct Hcase as [(? & -> & ->)|(? & -> & ->)]; lia.
    + by rewrite arc_checkGhostCaches_miss.
Qed.

Lemma arc_balanced_step (C : Z) s (o : RainArc.op K V) :
  2 * C < 2 ^ 64 → RainArc.balanced C s → RainArc.balanced C (RainArc.step s o).
Proof.
  intros HC Hb.
  pose proof (arc_balanced_checkGhostCaches C (match o with
    | RainArc.Get k => k | RainArc.Put k _ => k end) s HC Hb) as Hb'.
  unfold RainArc.balanced in *.
  destruct o as [k|k v]; simpl.
  - destruct (arc_get_capacity k s) as [-> ->]. done.
  - destruct (arc_put_capacity k v s) as [-> ->]. done.
Qed.

Lemma arc_balanced_run (C T : Z) (ops : list (RainArc.op K V)) :
  0 ≤ C → 2 * C < 2 ^ 64 →
  RainArc.balanced C (RainArc.run ops (RainArc.init C T)).
Proof.
  intros HC0 HC.
  assert (RainArc.balanced C (RainArc.init (K := K) (V := V) C T)) as Hinit.
  { unfold RainArc.balanced, RainArc.lruCapacity, RainArc.lfuCapacity. simpl. lia. }
  revert Hinit. generalize (RainArc.init (K := K) (V := V) C T).
  induction ops as [|o ops IH]; intros s Hs; [done|].
  apply IH. by apply arc_balanced_step.
Qed.
End ArcFacts.

(** ** RainArc: the claims on [put] and on the ghost check *)

Section ArcClaims.
Context {K : Type} `{Countable K} {V : Type} `{Default V}.
Implicit Types (s : RainArc.t K V) (k : K) (v : V).

(** C1, as amended: for a key in neither ghost mapping, [put] hands
    the pair to the recency half and, unless the live capacity of
    that half is 0, to the frequency half as well, whatever the
    access count of the key.  The recency half reports a [put] as
    stored, for an update as for a new entry, and as not stored only
    at live capacity 0.  A key that was not resident enters the
    recency half with access count 1 and is put into the frequency
    half all the same, where it is resident afterwards if that half
    has room. *)
Theorem arc_put_reaches_lfu_whatever_the_count s k v :
  ArcLruPart.ghostCache_ (RainArc.lruPart_ s) !! k = None →
  ArcLruPart.ghostCache_ (RainArc.lfuPart_ s) !! k = None →
  (ArcLruPart.put k v (RainArc.lruPart_ s)).2
  = negb (RainArc.lruCapacity s =? 0)
  ∧ (RainArc.lruCapacity s ≠ 0 →
     RainArc.put k v s
     = RainArc.set_parts (ArcLruPart.put k v (RainArc.lruPart_ s)).1
         (ArcLfuPart.put k v (RainArc.lfuPart_ s)).1 s)
  ∧ (RainArc.lruCapacity s ≠ 0 →
     ArcLruPart.mainCache_ (RainArc.lruPart_ s) !! k = None →
     ArcLruPart.mainCache_ (RainArc.lruPart_ (RainArc.put k v s)) !! k
     = Some (ArcNode.newNode v))
  ∧ (RainArc.lruCapacity s ≠ 0 → RainArc.lfuCapacity s ≠ 0 →
     ∃ node,
       ArcLruPart.mainCache_ (RainArc.lfuPart_ (RainArc.put k v s)) !! k
       = Some node
       ∧ ArcNode.value_ node = v)
  ∧ (RainArc.lruCapacity s = 0 → RainArc.put k v s = s).
Proof.
  intros Hgr Hgf. unfold RainArc.lruCapacity, RainArc.lfuCapacity.
  pose proof (lru_part_put_stored k v (RainArc.lruPart_ s)) as Hst.
  assert (RainArc.put k v s
          = if (ArcLruPart.put k v (RainArc.lruPart_ s)).2
            then RainArc.set_parts (ArcLruPart.put k v (RainArc.lruPart_ s)).1
                   (ArcLfuPart.put k v (RainArc.lfuPart_ s)).1 s
            else RainArc.set_parts (ArcLruPart.put k v (RainArc.lruPart_ s)).1
                   (RainArc.lfuPart_ s) s) as Hput.
  { unfold RainArc.put. rewrite arc_checkGhostCaches_miss by done. simpl.
    by destruct (ArcLruPart.put k v (RainArc.lruPart_ s)) as [r1 [|]]. }
  split; [done|].
  destruct (Z.eqb_spec (ArcLruPart.capacity_ (RainArc.lruPart_ s)) 0) as [Hz|Hnz].
  - split_and!; try done. intros _. rewrite Hput, Hst. simpl.
    unfold ArcLruPart.put. rewrite Hz. simpl. apply arc_set_parts_id.
  - simpl in Hst. rewrite Hst in Hput. split_and!; try done.
    + intros _ Hm. rewrite Hput. simpl.
      unfold ArcLruPart.put, ArcLruPart.addNewNode.
      destruct (Z.eqb_spec (ArcLruPart.capacity_ (RainArc.lruPart_ s)) 0);
        [done|].
      rewrite Hm. simpl. by rewrite lookup_insert_eq.
    + intros _ Hf. rewrite Hput. simpl. by apply lfu_part_put_lookup.
Qed.

(** C2, as amended: a ghost hit moves one unit of live capacity from
    the other half to the hitting half when the other half has a
    unit left, and moves nothing when the live capacity of the other
    half is 0; the sum of the two live capacities is therefore
    conserved, and it is [2 * C] after every sequence of operations
    on a cache constructed with capacity [C]. *)
Theorem arc_capacity_sum_conserved (C T : Z) (ops : list (RainArc.op K V)) k :
  0 ≤ C → 2 * C < 2 ^ 64 →
  let s := RainArc.run ops (RainArc.init C T) in
  RainArc.lruCapacity s + RainArc.lfuCapacity s = 2 * C
  ∧ (ArcLruPart.ghostCache_ (RainArc.lruPart_ s) !! k ≠ None →
     RainArc.lfuCapacity s = 0 →
     RainArc.lruCapacity (RainArc.checkGhostCaches k s).1 = RainArc.lruCapacity s
     ∧ RainArc.lfuCapacity (RainArc.checkGhostCaches k s).1 = 0)
  ∧ (ArcLruPart.ghostCache_ (RainArc.lruPart_ s) !! k = None →
     ArcLruPart.ghostCache_ (RainArc.lfuPart_ s) !! k ≠ None →
     RainArc.lruCapacity s = 0 →
     RainArc.lfuCapacity (RainArc.checkGhostCaches k s).1 = RainArc.lfuCapacity s
     ∧ RainArc.lruCapacity (RainArc.checkGhostCaches k s).1 = 0).
Proof.
  intros HC0 HC s.
  destruct (arc_balanced_run C T ops HC0 HC) as (Hr & Hf & Hsum). fold s in Hr, Hf, Hsum.
  split_and!; [done| |].
  - intros Hg Hz.
    destruct (arc_checkGhostCaches_lru_hit k s) as (_ & _ & _ & Hcase);
      [done|lia|done|done|].
    destruct Hcase as [(? & _)|(_ & -> & ->)]; [lia|done].
  - intros Hgr Hgf Hz.
    destruct (arc_checkGhostCaches_lfu_hit k s) as (_ & _ & _ & Hcase);
      [done|done|done|].
    destruct Hcase as [(? & _)|(_ & -> & ->)]; [lia|done].
Qed.

End ArcClaims.

(** ** RainArc: residency in the recency half *)

Section ArcResidency.
Context {K : Type} `{Countable K} {V : Type} `{Default V}.
Implicit Types (s : RainArc.t K V) (k : K) (v : V).

(** A [get] of a key that is live in the recency half and no ghost:
    the value comes from the recency half, whose node stays, with
    one access more; the ghost mappings stay without the key; and
    when the new count reaches the threshold the pair is put into
    the frequency half. *)
Lemma arc_get_lru_hit s k (node : ArcNode.t V) :
  ArcLruPart.mainCache_ (RainArc.lruPart_ s) !! k = Some node →
  ArcLruPart.ghostCache_ (RainArc.lruPart_ s) !! k = None →
  ArcLruPart.ghostCache_ (RainArc.lfuPart_ s) !! k = None →
  let shouldTransform :=
    ArcLruPart.transformThreshold_ (RainArc.lruPart_ s)
      <=? ArcNode.accessCount_ node + 1 in
  (RainArc.get k s).2 = Some (ArcNode.value_ node)
  ∧ (ArcLruPart.get k (RainArc.lruPart_ s)).2
    = Some (ArcNode.value_ node, shouldTransform)
  ∧ ArcLruPart.mainCache_ (RainArc.lruPart_ (RainArc.get k s).1) !! k
    = Some (ArcNode.incrementAccessCount node)
  ∧ ArcLruPart.ghostCache_ (RainArc.lruPart_ (RainArc.get k s).1) !! k = None
  ∧ ArcLruPart.ghostCache_ (RainArc.lfuPart_ (RainArc.get k s).1) !! k = None
  ∧ ArcLruPart.transformThreshold_ (RainArc.lruPart_ (RainArc.get k s).1)
    = ArcLruPart.transformThreshold_ (RainArc.lruPart_ s)
  ∧ RainArc.lfuPart_ (RainArc.get k s).1
    = (if shouldTransform
       then (ArcLfuPart.put k (ArcNode.value_ node) (RainArc.lfuPart_ s)).1
       else RainArc.lfuPart_ s).
Proof.
  intros Hm Hgr Hgf st.
  unfold RainArc.get. rewrite arc_checkGhostCaches_miss by done.
  unfold ArcLruPart.get, ArcLruPart.updateNodeAccess. rewrite Hm. simpl.
  fold st. destruct st eqn:Hst; simpl; rewrite lookup_insert_eq;
    split_and!; try done.
  by apply lfu_part_put_ghost.
Qed.

(** A [put] of a key that is no ghost, into a cache whose recency half
    has room, is a [put] into each half. *)
Lemma arc_put_no_ghost s k v :
  ArcLruPart.ghostCache_ (RainArc.lruPart_ s) !! k = None →
  ArcLruPart.ghostCache_ (RainArc.lfuPart_ s) !! k = None →
  RainArc.lruCapacity s ≠ 0 →
  RainArc.put k v s
  = RainArc.set_parts (ArcLruPart.put k v (RainArc.lruPart_ s)).1
      (ArcLfuPart.put k v (RainArc.lfuPart_ s)).1 s.
Proof.
  intros Hgr Hgf Hc. unfold RainArc.lruCapacity in Hc.
  unfold RainArc.put. rewrite arc_checkGhostCaches_miss by done. simpl.
  pose proof (lru_part_put_stored k v (RainArc.lruPart_ s)) as Hst.
  destruct (ArcLruPart.put k v (RainArc.lruPart_ s)) as [r1 b]. simpl in *.
  subst b. by destruct (Z.eqb_spec (ArcLruPart.capacity_ (RainArc.lruPart_ s)) 0).
Qed.

(** A [put] of a key that is live in neither half and no ghost, into
    a cache whose recency half has room: the key enters the recency
    half with access count 1 and stays out of the ghost mappings. *)
Lemma arc_put_fresh s k v :
  ArcLruPart.mainCache_ (RainArc.lruPart_ s) !! k = None →
  ArcLruPart.ghostCache_ (RainArc.lruPart_ s) !! k = None →
  ArcLruPart.ghostCache_ (RainArc.lfuPart_ s) !! k = None →
  RainArc.lruCapacity s ≠ 0 →
  ArcLruPart.mainCache_ (RainArc.lruPart_ (RainArc.put k v s)) !! k
  = Some (ArcNode.newNode v)
  ∧ ArcLruPart.ghostCache_ (RainArc.lruPart_ (RainArc.put k v s)) !! k = None
  ∧ ArcLruPart.ghostCache_ (RainArc.lfuPart_ (RainArc.put k v s)) !! k = None
  ∧ ArcLruPart.transformThreshold_ (RainArc.lruPart_ (RainArc.put k v s))
    = ArcLruPart.transformThreshold_ (RainArc.lruPart_ s).
Proof.
  intros Hm Hgr Hgf Hc.
  rewrite (arc_put_no_ghost s k v Hgr Hgf Hc). simpl.
  unfold RainArc.lruCapacity in Hc.
  split_and!.
  - unfold ArcLruPart.put, ArcLruPart.addNewNode.
    destruct (Z.eqb_spec (ArcLruPart.capacity_ (RainArc.lruPart_ s)) 0);
      [done|].
    rewrite Hm. simpl. by rewrite lookup_insert_eq.
  - unfold ArcLruPart.put, ArcLruPart.addNewNode.
    destruct (_ =? 0); [done|]. rewrite Hm. simpl.
    destruct (_ <=? _); [|done]. by apply arc_evict_ghost_lookup.
  - by apply lfu_part_put_ghost.
  - unfold ArcLruPart.put, ArcLruPart.addNewNode.
    destruct (_ =? 0); [done|]. rewrite Hm. simpl.
    destruct (_ <=? _); [|done].
    unfold ArcLruPart.evictLeastRecent.
    destruct (back (ArcLruPart.mainList (RainArc.lruPart_ s))) as [j|]; [|done].
    destruct (ArcLruPart.mainCache_ (RainArc.lruPart_ s) !! j); [|done].
    simpl. destruct (_ <=? _); [|done].
    unfold ArcLruPart.removeOldestGhost. simpl.
    by destruct (back (ArcLruPart.ghostList (RainArc.lruPart_ s))).
Qed.

Lemma arc_get_resident s k v :
  RainArc.residentInLru k v s →
  (RainArc.get k s).2 = Some v ∧ RainArc.residentInLru k v (RainArc.get k s).1.
Proof.
  intros ((node & Hm & Hv) & Hgr & Hgf).
  destruct (arc_get_lru_hit s k node Hm Hgr Hgf)
    as (Hres & _ & Hm' & Hgr' & Hgf' & _).
  split; [by rewrite Hres, Hv|].
  split_and!; [|done..]. eexists. split; [exact Hm'|done].
Qed.

Lemma arc_gets_resident (n : nat) s k v :
  RainArc.residentInLru k v s →
  RainArc.residentInLru k v (RainArc.gets n k s)
  ∧ (RainArc.get k (RainArc.gets n k s)).2 = Some v.
Proof.
  revert s. induction n as [|n IH]; intros s Hs; simpl.
  - split; [done|]. by apply arc_get_resident.
  - apply IH. by apply arc_get_resident.
Qed.

(** C8: a [get] of a key that is live in the recency half and in
    neither ghost mapping returns the value held there, whatever the
    frequency half holds, and leaves the key live in the recency half
    and in neither ghost mapping, so that every further [get] of the
    key returns that value.  Such a [get] counts one access more in
    the recency half; when the new count has reached the threshold
    it puts the entry into the frequency half, where the key is live
    afterwards if that half has capacity, and when it has not, it
    leaves the frequency half as it is.  With threshold 2, after
    [put(k, A)], [get(k)], [get(k)] on a new cache of capacity
    [C ≥ 1]: the [put] enters the key in both halves, each [get]
    finds the count at the threshold and puts the entry into the
    frequency half again, whose node counts 1, 2 and 3 accesses, the
    key is live in both halves, and every later [get(k)] returns
    [A]. *)
Theorem arc_promoted_entry_stays_in_lru :
  (∀ s k v,
     RainArc.residentInLru k v s →
     (RainArc.get k s).2 = Some v
     ∧ RainArc.residentInLru k v (RainArc.get k s).1
     ∧ ∀ n, (RainArc.get k (RainArc.gets n k (RainArc.get k s).1)).2 = Some v)
  ∧ (∀ s k (node : ArcNode.t V),
       ArcLruPart.mainCache_ (RainArc.lruPart_ s) !! k = Some node →
       ArcLruPart.ghostCache_ (RainArc.lruPart_ s) !! k = None →
       ArcLruPart.ghostCache_ (RainArc.lfuPart_ s) !! k = None →
       let s' := (RainArc.get k s).1 in
       ArcLruPart.mainCache_ (RainArc.lruPart_ s') !! k
       = Some (ArcNode.incrementAccessCount node)
       ∧ (ArcLruPart.transformThreshold_ (RainArc.lruPart_ s)
            ≤ ArcNode.accessCount_ node + 1 →
          RainArc.lfuPart_ s'
          = (ArcLfuPart.put k (ArcNode.value_ node) (RainArc.lfuPart_ s)).1
          ∧ (RainArc.lfuCapacity s ≠ 0 →
             ArcLruPart.mainCache_ (RainArc.lfuPart_ s') !! k
             = Some (match ArcLruPart.mainCache_ (RainArc.lfuPart_ s) !! k with
                     | Some old =>
                         ArcNode.incrementAccessCount
                           (ArcNode.setValue (ArcNode.value_ node) old)
                     | None => ArcNode.newNode (ArcNode.value_ node)
                     end)))
       ∧ (ArcNode.accessCount_ node + 1
            < ArcLruPart.transformThreshold_ (RainArc.lruPart_ s) →
          RainArc.lfuPart_ s' = RainArc.lfuPart_ s))
  ∧ (∀ (C : Z) k (A : V),
       1 ≤ C →
       let s1 := RainArc.put k A (RainArc.init C 2) in
       let s2 := (RainArc.get k s1).1 in
       let s3 := (RainArc.get k s2).1 in
       (RainArc.get k s1).2 = Some A
       ∧ (RainArc.get k s2).2 = Some A
       ∧ (ArcLruPart.get k (RainArc.lruPart_ s1)).2 = Some (A, true)
       ∧ (ArcLruPart.get k (RainArc.lruPart_ s2)).2 = Some (A, true)
       ∧ ArcLruPart.mainCache_ (RainArc.lfuPart_ s1) !! k
         = Some {| ArcNode.value_ := A; ArcNode.accessCount_ := 1 |}
       ∧ ArcLruPart.mainCache_ (RainArc.lfuPart_ s2) !! k
         = Some {| ArcNode.value_ := A; ArcNode.accessCount_ := 2 |}
       ∧ ArcLruPart.mainCache_ (RainArc.lfuPart_ s3) !! k
         = Some {| ArcNode.value_ := A; ArcNode.accessCount_ := 3 |}
       ∧ (∃ node, ArcLruPart.mainCache_ (RainArc.lfuPart_ s3) !! k = Some node
                  ∧ ArcNode.value_ node = A)
       ∧ ArcLruPart.mainCache_ (RainArc.lruPart_ s3) !! k
         = Some {| ArcNode.value_ := A; ArcNode.accessCount_ := 3 |}
       ∧ ∀ n, (RainArc.get k (RainArc.gets n k s3)).2 = Some A).
Proof.
  split_and!.
  - intros s k v Hs. destruct (arc_get_resident s k v Hs) as [Hres Hs'].
    split_and!; [done..|]. intros n. by apply arc_gets_resident.
  - intros s k node Hm Hgr Hgf s'.
    destruct (arc_get_lru_hit s k node Hm Hgr Hgf)
      as (_ & _ & Hm' & _ & _ & _ & Hf).
    fold s' in Hm', Hf. simpl in Hf. split_and!.
    + exact Hm'.
    + intros HT. rewrite Hf.
      destruct (Z.leb_spec (ArcLruPart.transformThreshold_ (RainArc.lruPart_ s))
                  (ArcNode.accessCount_ node + 1)) as [_|?]; [|lia].
      split; [done|]. intros Hc. by apply lfu_part_put_node.
    + intros HT. rewrite Hf.
      by destruct (Z.leb_spec (ArcLruPart.transformThreshold_ (RainArc.lruPart_ s))
                     (ArcNode.accessCount_ node + 1)) as [?|_]; [lia|].
  - intros C k A HC s1 s2 s3.
    destruct (arc_put_fresh (RainArc.init C 2) k A) as (Hm1 & Hgr1 & Hgf1 & HT1);
      [done|done|done|unfold RainArc.lruCapacity; simpl; lia|].
    fold s1 in Hm1, Hgr1, Hgf1, HT1.
    destruct (arc_get_lru_hit s1 k _ Hm1 Hgr1 Hgf1)
      as (Hres1 & Hpart1 & Hm2 & Hgr2 & Hgf2 & HT2 & Hf2).
    fold s2 in Hm2, Hgr2, Hgf2, HT2, Hf2.
    destruct (arc_get_lru_hit s2 k _ Hm2 Hgr2 Hgf2)
      as (Hres2 & Hpart2 & Hm3 & Hgr3 & Hgf3 & HT3 & Hf3).
    fold s3 in Hm3, Hgr3, Hgf3, HT3, Hf3.
    rewrite HT1 in Hpart1, Hf2. rewrite HT2, HT1 in Hpart2, Hf3.
    simpl in Hpart1, Hf2, Hpart2, Hf3, Hres1, Hres2.
    assert (RainArc.lfuCapacity s1 = C) as Hcap1.
    { unfold s1. destruct (arc_put_capacity k A (RainArc.init C 2)) as [_ ->].
      by rewrite arc_checkGhostCaches_miss. }
    assert (RainArc.lfuCapacity s2 = C) as Hcap2.
    { unfold s2. destruct (arc_get_capacity k s1) as [_ ->].
      by rewrite arc_checkGhostCaches_miss. }
    unfold RainArc.lfuCapacity in Hcap1, Hcap2.
    assert (ArcLruPart.mainCache_ (RainArc.lfuPart_ s1) !! k
            = Some {| ArcNode.value_ := A; ArcNode.accessCount_ := 1 |}) as HF1.
    { unfold s1. rewrite arc_put_no_ghost;
        [|done|done|unfold RainArc.lruCapacity; simpl; lia].
      simpl. rewrite lfu_part_put_node by (simpl; lia). done. }
    assert (ArcLruPart.mainCache_ (RainArc.lfuPart_ s2) !! k
            = Some {| ArcNode.value_ := A; ArcNode.accessCount_ := 2 |}) as HF2.
    { rewrite Hf2, lfu_part_put_node by lia. by rewrite HF1. }
    assert (ArcLruPart.mainCache_ (RainArc.lfuPart_ s3) !! k
            = Some {| ArcNode.value_ := A; ArcNode.accessCount_ := 3 |}) as HF3.
    { rewrite Hf3, lfu_part_put_node by lia. by rewrite HF2. }
    split_and!; [done..| | |].
    + eexists. split; [exact HF3|done].
    + done.
    + intros n. apply arc_gets_resident. split_and!; [|done..].
      eexists. split; [exact Hm3|done].
Qed.
End ArcResidency.

(** ** [get] on a miss *)

Section GetMiss.
Context {K : Type} `{Countable K} `{Default K} {V : Type} `{Default V}.
Variable hashFunc : K → Z.

Lemma sharded_get_miss (s : RainLruHash.t K V) k :
  (RainLruHash.get hashFunc k s).2 = None → (RainLruHash.get hashFunc k s).1 = s.
Proof.
  unfold RainLruHash.get.
  destruct (RainLruHash.lruSliceCaches_ s !! RainLruHash.sliceIndex hashFunc k s)
    as [c|] eqn:Hc; [|done].
  unfold RainLru.get. destruct (RainLru.nodeMap_ c !! k); simpl; [done|].
  intros _. rewrite list_insert_id by done. by destruct s.
Qed.

Lemma arc_get_miss (s : RainArc.t K V) k :
  ArcLruPart.ghostCache_ (RainArc.lruPart_ s) !! k = None →
  ArcLruPart.ghostCache_ (RainArc.lfuPart_ s) !! k = None →
  ArcLruPart.mainCache_ (RainArc.lruPart_ s) !! k = None →
  ArcLruPart.mainCache_ (RainArc.lfuPart_ s) !! k = None →
  RainArc.get_value k s = (s, dflt).
Proof.
  intros Hgr Hgf Hmr Hmf. unfold RainArc.get_value, RainArc.get.
  rewrite arc_checkGhostCaches_miss by done.
  unfold ArcLruPart.get, ArcLfuPart.get. rewrite Hmr, Hmf. simpl.
  by rewrite arc_set_parts_id.
Qed.

Lemma lruk_get_miss (s : RainLruK.t K V) k :
  RainLru.nodeMap_ (RainLruK.main s) !! k = None →
  RainLruK.reached (RainLruK.bumpHistory k (RainLruK.historyList_ s)).2
                   (RainLruK.k_ s) = false
  ∨ RainLruK.historyValueMap_ s !! k = None →
  RainLruK.get k s
  = ({| RainLruK.main := RainLruK.main s;
        RainLruK.k_ := RainLruK.k_ s;
        RainLruK.historyList_ :=
          (RainLruK.bumpHistory k (RainLruK.historyList_ s)).1;
        RainLruK.historyValueMap_ := RainLruK.historyValueMap_ s |}, dflt).
Proof.
  intros Hk Hno. unfold RainLruK.get. rewrite (lru_get_miss k _ Hk).
  destruct (RainLruK.bumpHistory k (RainLruK.historyList_ s)) as [h2 c].
  simpl in *. destruct (RainLruK.reached c (RainLruK.k_ s)); [|done].
  destruct Hno as [?|Hv]; [done|]. by rewrite Hv.
Qed.

(** C5, as amended: [get] of a key that misses leaves a plain LRU and
    a sharded LRU as they are, and an ARC cache too when the key is
    in neither ghost mapping.  In LRU-K a [get] that misses the main
    cache and does not promote (the new count is below K, or the
    side table has no value for the key) returns the default value
    and leaves the main cache and the side table as they are, and it
    records the access: the history LRU is the one after the count
    of the key was raised and stored, which differs from the one
    before whenever the history capacity is positive. *)
Theorem get_miss_frame :
  (∀ (s : RainLru.t K V) k,
     RainLru.nodeMap_ s !! k = None → RainLru.get_value k s = (s, dflt))
  ∧ (∀ (s : RainLruHash.t K V) k,
       (RainLruHash.get hashFunc k s).2 = None →
       (RainLruHash.get hashFunc k s).1 = s)
  ∧ (∀ (s : RainArc.t K V) k,
       ArcLruPart.ghostCache_ (RainArc.lruPart_ s) !! k = None →
       ArcLruPart.ghostCache_ (RainArc.lfuPart_ s) !! k = None →
       ArcLruPart.mainCache_ (RainArc.lruPart_ s) !! k = None →
       ArcLruPart.mainCache_ (RainArc.lfuPart_ s) !! k = None →
       RainArc.get_value k s = (s, dflt))
  ∧ (∀ (s : RainLruK.t K V) k,
       RainLru.nodeMap_ (RainLruK.main s) !! k = None →
       RainLruK.reached (RainLruK.bumpHistory k (RainLruK.historyList_ s)).2
                        (RainLruK.k_ s) = false
       ∨ RainLruK.historyValueMap_ s !! k = None →
       (RainLruK.get k s).2 = dflt
       ∧ RainLruK.main (RainLruK.get k s).1 = RainLruK.main s
       ∧ RainLruK.historyValueMap_ (RainLruK.get k s).1
         = RainLruK.historyValueMap_ s
       ∧ RainLruK.historyList_ (RainLruK.get k s).1
         = (RainLruK.bumpHistory k (RainLruK.historyList_ s)).1
       ∧ (0 < RainLru.capacity_ (RainLruK.historyList_ s) →
          RainLruK.historyList_ (RainLruK.get k s).1 ≠ RainLruK.historyList_ s)).
Proof.
  split_and!.
  - intros s k Hk. unfold RainLru.get_value. by rewrite (lru_get_miss k s Hk).
  - apply sharded_get_miss.
  - apply arc_get_miss.
  - intros s k Hk Hno. rewrite (lruk_get_miss s k Hk Hno). simpl.
    split_and!; [done..|]. intros Hc.
    by apply lruk_bumpHistory_changes.
Qed.
End GetMiss.

(** ** Scenarios on the ARC cache *)

(** C1, as stated, fails: in a new cache of capacity 1 with threshold
    2, [put] of key 1 reports stored although the key is new, and the
    entry, whose access count 1 is below the threshold, is live in
    the frequency half afterwards. *)
Lemma arc_put_new_key_enters_lfu :
  let s0 : RainArc.t Z string := RainArc.init 1 2 in
  let s1 := RainArc.put 1 "a"%string s0 in
  ArcLruPart.ghostCache_ (RainArc.lruPart_ s0) !! 1 = None
  ∧ ArcLruPart.ghostCache_ (RainArc.lfuPart_ s0) !! 1 = None
  ∧ ArcLruPart.mainCache_ (RainArc.lruPart_ s0) !! 1 = None
  ∧ (ArcLruPart.put 1 "a"%string (RainArc.lruPart_ s0)).2 = true
  ∧ ArcLruPart.mainCache_ (RainArc.lruPart_ s1) !! 1
    = Some {| ArcNode.value_ := "a"%string; ArcNode.accessCount_ := 1 |}
  ∧ 1 < ArcLruPart.transformThreshold_ (RainArc.lruPart_ s1)
  ∧ ArcLruPart.mainCache_ (RainArc.lfuPart_ s0) !! 1 = None
  ∧ ArcLruPart.mainCache_ (RainArc.lfuPart_ s1) !! 1
    = Some {| ArcNode.value_ := "a"%string; ArcNode.accessCount_ := 1 |}
  ∧ RainArc.lfuPart_ s1 ≠ RainArc.lfuPart_ s0.
Proof. vm_compute. split_and!; congruence. Qed.

(** [put] of a new key into new caches of capacity 1 and of capacity
    0. *)
Lemma arc_put_reaches_lfu_witness :
  let s0 : RainArc.t Z string := RainArc.init 1 2 in
  (ArcLruPart.put 1 "a"%string (RainArc.lruPart_ s0)).2
  = negb (RainArc.lruCapacity s0 =? 0)
  ∧ RainArc.put 1 "a"%string s0
    = RainArc.set_parts (ArcLruPart.put 1 "a"%string (RainArc.lruPart_ s0)).1
        (ArcLfuPart.put 1 "a"%string (RainArc.lfuPart_ s0)).1 s0
  ∧ ArcLruPart.mainCache_ (RainArc.lruPart_ (RainArc.put 1 "a"%string s0)) !! 1
    = Some (ArcNode.newNode "a"%string)
  ∧ (∃ node,
       ArcLruPart.mainCache_ (RainArc.lfuPart_ (RainArc.put 1 "a"%string s0)) !! 1
       = Some node
       ∧ ArcNode.value_ node = "a"%string)
  ∧ RainArc.put 1 "a"%string (RainArc.init (K := Z) 0 2) = RainArc.init 0 2.
Proof.
  intros s0.
  destruct (arc_put_reaches_lfu_whatever_the_count s0 1 "a"%string)
    as (H1 & H2 & H3 & H4 & _); [reflexivity|reflexivity|].
  destruct (arc_put_reaches_lfu_whatever_the_count
              (RainArc.init (K := Z) (V := string) 0 2) 1 "a"%string)
    as (_ & _ & _ & _ & H5); [reflexivity|reflexivity|].
  split_and!.
  - exact H1.
  - apply H2. vm_compute. congruence.
  - apply H3; [vm_compute; congruence | reflexivity].
  - apply H4; vm_compute; congruence.
  - apply H5. reflexivity.
Defined.

(** C2, as stated, fails: in a cache of capacity 1, after [put 1],
    [put 2], [get 1], [put 3], [put 4] the live capacity of the
    frequency half is 0 and key 2 is a ghost of the recency half; the
    ghost hit of [get 2] removes the ghost and leaves the live
    capacity of the recency half at 2.  After no sequence of
    operations on this cache the two live capacities add up to
    anything but 2. *)
Lemma arc_ghost_hit_at_capacity_zero :
  let s : RainArc.t Z string :=
    RainArc.run [RainArc.Put 1 "a"; RainArc.Put 2 "b"; RainArc.Get 1;
                 RainArc.Put 3 "c"; RainArc.Put 4 "d"]%string
      (RainArc.init 1 2) in
  (RainArc.lfuCapacity s = 0
   ∧ RainArc.lruCapacity s = 2
   ∧ ArcLruPart.ghostCache_ (RainArc.lruPart_ s) !! 2 ≠ None
   ∧ (RainArc.checkGhostCaches 2 s).2 = true
   ∧ ArcLruPart.ghostCache_ (RainArc.lruPart_ (RainArc.get 2 s).1) !! 2 = None
   ∧ RainArc.lruCapacity (RainArc.get 2 s).1 = 2
   ∧ RainArc.lfuCapacity (RainArc.get 2 s).1 = 0)
  ∧ ¬ ∃ ops : list (RainArc.op Z string),
        RainArc.lruCapacity (RainArc.run ops (RainArc.init 1 2))
        + RainArc.lfuCapacity (RainArc.run ops (RainArc.init 1 2)) ≠ 2 * 1.
Proof.
  split.
  - vm_compute. split_and!; congruence.
  - intros [ops Hne]. apply Hne.
    by destruct (arc_balanced_run (K := Z) (V := string) 1 2 ops) as (_ & _ & ?).
Qed.

(** The sum of the live capacities, and a ghost hit in the recency
    half at live capacity 0 of the frequency half, in a cache of
    capacity 1. *)
Lemma arc_capacity_sum_conserved_witness :
  let s : RainArc.t Z string :=
    RainArc.run [RainArc.Put 1 "a"; RainArc.Put 2 "b"; RainArc.Get 1;
                 RainArc.Put 3 "c"; RainArc.Put 4 "d"]%string
      (RainArc.init 1 2) in
  (0 ≤ 1 ∧ 2 * 1 < 2 ^ 64)
  ∧ RainArc.lruCapacity s + RainArc.lfuCapacity s = 2 * 1
  ∧ RainArc.lruCapacity (RainArc.checkGhostCaches 2 s).1 = RainArc.lruCapacity s
  ∧ RainArc.lfuCapacity (RainArc.checkGhostCaches 2 s).1 = 0.
Proof.
  intros s.
  assert (0 ≤ 1 ∧ 2 * 1 < 2 ^ 64) as Hpre by (vm_compute; intuition congruence).
  split; [exact Hpre|]. destruct Hpre as [HC0 HC].
  destruct (arc_capacity_sum_conserved (K := Z) (V := string) 1 2
              [RainArc.Put 1 "a"; RainArc.Put 2 "b"; RainArc.Get 1;
               RainArc.Put 3 "c"; RainArc.Put 4 "d"]%string 2 HC0 HC)
    as (Hsum & Hlru & _).
  split; [exact Hsum|].
  apply Hlru; vm_compute; congruence.
Defined.


(** C7 fails on the ghost mapping of the recency half: in a cache of
    capacity 2 with threshold 2, after ten [put] calls for the keys
    1, 2, 3, 1, 2, 1, 2, 4, 5, 3 that mapping holds the three keys 2,
    4 and 5 while its ghost capacity is 2.  On the way key 1 is in the
    ghost list twice and its second node leaves the list when the
    mapping has no entry of key 1 left to erase. *)
Theorem arc_lru_ghost_exceeds_capacity :
  let puts := map (λ k : Z, RainArc.Put k "v"%string) [1; 2; 3; 1; 2; 1; 2; 4; 5] in
  let s9 : RainArc.t Z string := RainArc.run puts (RainArc.init 2 2) in
  let s := RainArc.put 3 "v"%string s9 in
  ArcLruPart.ghostList (RainArc.lruPart_ s9) = [2; 1; 1]
  ∧ size (ArcLruPart.ghostCache_ (RainArc.lruPart_ s9)) = 2%nat
  ∧ ArcLruPart.ghostCapacity_ (RainArc.lruPart_ s) = 2
  ∧ ArcLruPart.ghostList (RainArc.lruPart_ s) = [5; 4; 2]
  ∧ size (ArcLruPart.ghostCache_ (RainArc.lruPart_ s)) = 3%nat
  ∧ Z.of_nat (size (ArcLruPart.mainCache_ (RainArc.lruPart_ s)))
    ≤ RainArc.lruCapacity s
  ∧ Z.of_nat (size (ArcLruPart.mainCache_ (RainArc.lfuPart_ s)))
    ≤ RainArc.lfuCapacity s
  ∧ ¬ Z.of_nat (size (ArcLruPart.ghostCache_ (RainArc.lruPart_ s)))
      ≤ ArcLruPart.ghostCapacity_ (RainArc.lruPart_ s).
Proof.
  vm_compute. split_and!; try reflexivity; congruence.
Qed.

(** C8, as stated, fails: in a cache of capacity 1 with threshold 2,
    after [put 1], [put 2] the [get] of key 2 finds the count at the
    threshold and puts the entry into the frequency half.  The [put]
    of key 1 that follows hits the ghost of the recency half and
    shrinks the frequency half, which evicts key 2 into its ghost
    mapping, while key 2 stays live in the recency half, behind key
    1.  The next [get] of key 2 hits that ghost first and shrinks the
    recency half, which is full and evicts key 2, its least recent
    key, before the lookup: the [get] finds the key in neither half.
    So a key that is live in the recency half is not found by every
    [get]. *)
Lemma arc_promoted_key_missed_after_ghost_hit :
  let s2 : RainArc.t Z string :=
    RainArc.run [RainArc.Put 1 "A"; RainArc.Put 2 "B"]%string (RainArc.init 1 2) in
  let s3 := (RainArc.get 2 s2).1 in
  let s4 := RainArc.put 1 "A"%string s3 in
  ((RainArc.get 2 s2).2 = Some "B"%string
   ∧ (ArcLruPart.get 2 (RainArc.lruPart_ s2)).2 = Some ("B"%string, true)
   ∧ ArcLruPart.mainCache_ (RainArc.lruPart_ s3) !! 2
     = Some {| ArcNode.value_ := "B"%string; ArcNode.accessCount_ := 2 |}
   ∧ ArcLruPart.mainCache_ (RainArc.lfuPart_ s3) !! 2
     = Some {| ArcNode.value_ := "B"%string; ArcNode.accessCount_ := 2 |}
   ∧ ArcLruPart.mainCache_ (RainArc.lruPart_ s4) !! 2
     = Some {| ArcNode.value_ := "B"%string; ArcNode.accessCount_ := 2 |}
   ∧ ArcLruPart.mainList (RainArc.lruPart_ s4) = [1; 2]
   ∧ RainArc.lruCapacity s4 = 2
   ∧ ArcLruPart.ghostCache_ (RainArc.lruPart_ s4) !! 2 = None
   ∧ ArcLruPart.ghostCache_ (RainArc.lfuPart_ s4) !! 2 ≠ None
   ∧ (RainArc.get 2 s4).2 = None
   ∧ ArcLruPart.mainCache_ (RainArc.lruPart_ (RainArc.get 2 s4).1) !! 2 = None
   ∧ ArcLruPart.mainCache_ (RainArc.lfuPart_ (RainArc.get 2 s4).1) !! 2 = None)
  ∧ ¬ ∀ (ops : list (RainArc.op Z string)) (k : Z) node,
        ArcLruPart.mainCache_
          (RainArc.lruPart_ (RainArc.run ops (RainArc.init 1 2))) !! k = Some node →
        (RainArc.get k (RainArc.run ops (RainArc.init 1 2))).2
        = Some (ArcNode.value_ node).
Proof.
  split.
  - vm_compute. split_and!; congruence.
  - intros Hall.
    specialize (Hall [RainArc.Put 1 "A"; RainArc.Put 2 "B"; RainArc.Get 2;
                      RainArc.Put 1 "A"]%string 2
                     {| ArcNode.value_ := "B"%string; ArcNode.accessCount_ := 2 |}).
    vm_compute in Hall. specialize (Hall eq_refl). discriminate Hall.
Qed.

(** The three parts of the statement on residency.  The first on the
    cache of capacity 10 after [put], [get], [get] of key 1.  The
    second on a cache of capacity 1 after [put 1], [put 2], [put 1],
    [put 2], where key 2 is live in the recency half alone and in no
    ghost mapping: its [get] reaches the threshold and enters it in
    the frequency half.  The third on the cache of capacity 10. *)
Lemma arc_promoted_entry_stays_in_lru_witness :
  let s1 : RainArc.t Z string := RainArc.put 1 "A"%string (RainArc.init 10 2) in
  let s2 := (RainArc.get 1 s1).1 in
  let s3 := (RainArc.get 1 s2).1 in
  let z : RainArc.t Z string :=
    RainArc.run [RainArc.Put 1 "A"; RainArc.Put 2 "B"; RainArc.Put 1 "A";
                 RainArc.Put 2 "B"]%string (RainArc.init 1 2) in
  (RainArc.residentInLru 1 "A"%string s3
   ∧ (RainArc.get 1 s3).2 = Some "A"%string
   ∧ (RainArc.get 1 (RainArc.gets 5 1 (RainArc.get 1 s3).1)).2 = Some "A"%string)
  ∧ (ArcLruPart.mainCache_ (RainArc.lruPart_ z) !! 2
     = Some {| ArcNode.value_ := "B"%string; ArcNode.accessCount_ := 1 |}
     ∧ ArcLruPart.mainCache_ (RainArc.lfuPart_ z) !! 2 = None
     ∧ ArcLruPart.mainCache_ (RainArc.lruPart_ (RainArc.get 2 z).1) !! 2
       = Some {| ArcNode.value_ := "B"%string; ArcNode.accessCount_ := 2 |}
     ∧ ArcLruPart.mainCache_ (RainArc.lfuPart_ (RainArc.get 2 z).1) !! 2
       = Some {| ArcNode.value_ := "B"%string; ArcNode.accessCount_ := 1 |})
  ∧ (1 ≤ 10
     ∧ (ArcLruPart.get 1 (RainArc.lruPart_ s2)).2 = Some ("A"%string, true)
     ∧ ArcLruPart.mainCache_ (RainArc.lfuPart_ s1) !! 1
       = Some {| ArcNode.value_ := "A"%string; ArcNode.accessCount_ := 1 |}
     ∧ ArcLruPart.mainCache_ (RainArc.lfuPart_ s3) !! 1
       = Some {| ArcNode.value_ := "A"%string; ArcNode.accessCount_ := 3 |}
     ∧ (RainArc.get 1 (RainArc.gets 7 1 s3)).2 = Some "A"%string).
Proof.
  intros s1 s2 s3 z.
  destruct (arc_promoted_entry_stays_in_lru (K := Z) (V := string))
    as (Hgen & Hhit & Hscn).
  assert (RainArc.residentInLru 1 "A"%string s3) as Hres.
  { split_and!; [|reflexivity..]. eexists. split; reflexivity. }
  assert (1 ≤ 10) as HC by (vm_compute; congruence).
  destruct (Hgen s3 1 "A"%string Hres) as (Hget & _ & Hgets).
  assert (ArcLruPart.mainCache_ (RainArc.lruPart_ z) !! 2
          = Some {| ArcNode.value_ := "B"%string; ArcNode.accessCount_ := 1 |})
    as Hz by reflexivity.
  assert (ArcLruPart.mainCache_ (RainArc.lfuPart_ z) !! 2 = None) as Hzf
    by reflexivity.
  destruct (Hhit z 2 _ Hz) as (Hzr & Hzp & _); [reflexivity|reflexivity|].
  destruct Hzp as [_ Hznode]; [vm_compute; congruence|].
  rewrite Hzf in Hznode.
  destruct (Hscn 10 1 "A"%string HC)
    as (_ & _ & _ & Hshould & Hf1 & _ & Hf3 & _ & _ & Hall).
  split_and!.
  - exact Hres.
  - exact Hget.
  - exact (Hgets 5%nat).
  - exact Hz.
  - exact Hzf.
  - exact Hzr.
  - apply Hznode. vm_compute. congruence.
  - exact HC.
  - exact Hshould.
  - exact Hf1.
  - exact Hf3.
  - exact (Hall 7%nat).
Defined.

(** [get] of a key that misses in each of the four caches. *)
Lemma get_miss_frame_witness :
  let hashFunc : Z → Z := λ k, k in
  let lru : RainLru.t Z string := RainLru.put 1 "a"%string (RainLru.init 2) in
  let sharded : RainLruHash.t Z string :=
    RainLruHash.put hashFunc 1 "a"%string (RainLruHash.init 8 4 2) in
  let arc : RainArc.t Z string := RainArc.put 1 "a"%string (RainArc.init 2 2) in
  let lruk : RainLruK.t Z string := RainLruK.init 2 4 2 in
  RainLru.get_value 2 lru = (lru, dflt)
  ∧ (RainLruHash.get hashFunc 2 sharded).1 = sharded
  ∧ RainArc.get_value 2 arc = (arc, dflt)
  ∧ (RainLruK.get 1 lruk).2 = dflt
  ∧ RainLruK.main (RainLruK.get 1 lruk).1 = RainLruK.main lruk
  ∧ RainLruK.historyValueMap_ (RainLruK.get 1 lruk).1
    = RainLruK.historyValueMap_ lruk
  ∧ RainLruK.historyList_ (RainLruK.get 1 lruk).1 ≠ RainLruK.historyList_ lruk.
Proof.
  intros hashFunc lru sharded arc lruk.
  destruct (get_miss_frame (K := Z) (V := string) hashFunc)
    as (Hlru & Hsharded & Harc & Hlruk).
  destruct (Hlruk lruk 1) as (Hd & Hm & Hv & _ & Hh);
    [reflexivity | left; reflexivity |].
  split_and!.
  - apply Hlru. reflexivity.
  - apply Hsharded. reflexivity.
  - apply Harc; reflexivity.
  - exact Hd.
  - exact Hm.
  - exact Hv.
  - apply Hh. vm_compute. reflexivity.
Defined.

(** ** RainArc: the bound on the live sizes *)

Section ArcLiveBound.
Context {K : Type} `{Countable K} {V : Type} `{Default V}.
Implicit Types (p : ArcLruPart.t K V) (s : RainArc.t K V) (k : K) (v : V).

Lemma back_drop_back (l : list K) k :
  back l = Some k → l = drop_back l ++ [k].
Proof.
  unfold back, drop_back. intros [l' ->]%last_Some.
  by rewrite removelast_last.
Qed.

(** What an eviction does to the live side of a well formed half. *)
Lemma arc_evict_main p :
  ArcLruPart.wf_main p → ArcLruPart.mainCache_ p ≠ ∅ →
  ∃ k, back (ArcLruPart.mainList p) = Some k
       ∧ is_Some (ArcLruPart.mainCache_ p !! k)
       ∧ ArcLruPart.mainCache_ (ArcLruPart.evictLeastRecent p)
         = delete k (ArcLruPart.mainCache_ p)
       ∧ ArcLruPart.mainList (ArcLruPart.evictLeastRecent p)
         = drop_back (ArcLruPart.mainList p).
Proof.
  intros [Hnd Hl Hsz] Hne.
  destruct (back (ArcLruPart.mainList p)) as [k|] eqn:Hb.
  - assert (is_Some (ArcLruPart.mainCache_ p !! k)) as [node Hk].
    { apply Hl. apply back_drop_back in Hb. rewrite Hb.
      apply elem_of_app. right. by apply list_elem_of_singleton. }
    exists k. split; [done|]. split; [by rewrite Hk|].
    unfold ArcLruPart.evictLeastRecent. rewrite Hb, Hk. simpl.
    destruct (_ <=? _); [|done].
    destruct (arc_removeOldestGhost_frame
                (ArcLruPart.set_main (ArcLruPart.mainCache_ p)
                   (drop_back (ArcLruPart.mainList p)) p))
      as (_ & _ & -> & ->). done.
  - exfalso. apply Hne. apply map_empty. intros k.
    destruct (ArcLruPart.mainCache_ p !! k) eqn:Hk; [|done].
    assert (k ∈ ArcLruPart.mainList p) as Hin by (apply Hl; by rewrite Hk).
    apply last_None in Hb. rewrite Hb in Hin. by apply elem_of_nil in Hin.
Qed.

(** An eviction from a well formed half that holds an entry leaves a
    well formed live side with one entry less. *)
Lemma arc_wf_main_evict p :
  ArcLruPart.wf_main p → ArcLruPart.mainCache_ p ≠ ∅ →
  NoDup (ArcLruPart.mainList (ArcLruPart.evictLeastRecent p))
  ∧ (∀ k, k ∈ ArcLruPart.mainList (ArcLruPart.evictLeastRecent p)
          ↔ is_Some (ArcLruPart.mainCache_ (ArcLruPart.evictLeastRecent p) !! k))
  ∧ S (size (ArcLruPart.mainCache_ (ArcLruPart.evictLeastRecent p)))
    = size (ArcLruPart.mainCache_ p).
Proof.
  intros Hwf Hne. pose proof Hwf as [Hnd Hl Hsz].
  destruct (arc_evict_main p Hwf Hne) as (k0 & Hb & [node Hk0] & -> & ->).
  apply back_drop_back in Hb.
  set (l' := drop_back (ArcLruPart.mainList p)) in *.
  rewrite Hb in Hnd. apply NoDup_app in Hnd as (Hnd' & Hdis & _).
  split_and!.
  - done.
  - intros k. destruct (decide (k = k0)) as [->|Hkk].
    + rewrite lookup_delete_eq. split; [|by intros [? ?]].
      intros Hin. exfalso. apply (Hdis k0 Hin). by apply list_elem_of_singleton.
    + rewrite lookup_delete_ne by done. rewrite <- Hl, Hb, elem_of_app.
      rewrite list_elem_of_singleton. tauto.
  - pose proof (map_size_delete k0 (ArcLruPart.mainCache_ p)) as Hd.
    rewrite Hk0 in Hd.
    assert (size (ArcLruPart.mainCache_ p) ≠ 0%nat)
      by by apply map_size_non_empty_iff.
    lia.
Qed.

Lemma arc_moveToFront_nodup k (l : list K) :
  NoDup l → NoDup (ArcLruPart.moveToFront k l).
Proof.
  intros Hnd. unfold ArcLruPart.moveToFront, ArcLruPart.addToFront.
  apply NoDup_cons. split; [|by apply NoDup_unlink].
  rewrite elem_of_unlink by done. tauto.
Qed.

Lemma arc_moveToFront_elem k x (l : list K) :
  NoDup l → k ∈ l → x ∈ ArcLruPart.moveToFront k l ↔ x ∈ l.
Proof.
  intros Hnd Hk. unfold ArcLruPart.moveToFront, ArcLruPart.addToFront.
  rewrite elem_of_cons, elem_of_unlink by done.
  destruct (decide (x = k)) as [->|]; tauto.
Qed.

(** Replacing the node of a live key and moving it to the front. *)
Lemma arc_wf_main_touch p k (node : ArcNode.t V) :
  ArcLruPart.wf_main p → is_Some (ArcLruPart.mainCache_ p !! k) →
  ArcLruPart.wf_main
    (ArcLruPart.set_main (<[k := node]> (ArcLruPart.mainCache_ p))
       (ArcLruPart.moveToFront k (ArcLruPart.mainList p)) p).
Proof.
  intros [Hnd Hl Hsz] Hk. split; simpl.
  - by apply arc_moveToFront_nodup.
  - intros x. rewrite arc_moveToFront_elem; [|done|by apply Hl].
    rewrite Hl. destruct (decide (x = k)) as [->|Hne].
    + rewrite lookup_insert_eq. split; by eauto.
    + by rewrite lookup_insert_ne.
  - by rewrite map_size_insert_Some.
Qed.

(** Entering a new key, after an eviction if the half is full. *)
Lemma arc_wf_main_add p k (node : ArcNode.t V) :
  ArcLruPart.wf_main p → ArcLruPart.capacity_ p ≠ 0 →
  ArcLruPart.mainCache_ p !! k = None →
  let p1 :=
    if ArcLruPart.capacity_ p <=? Z.of_nat (size (ArcLruPart.mainCache_ p))
    then ArcLruPart.evictLeastRecent p else p in
  ArcLruPart.wf_main
    (ArcLruPart.set_main (<[k := node]> (ArcLruPart.mainCache_ p1))
       (ArcLruPart.addToFront k (ArcLruPart.mainList p1)) p1).
Proof.
  intros Hwf Hc Hk p1. pose proof Hwf as [Hnd Hl Hsz].
  assert (NoDup (ArcLruPart.mainList p1)
          ∧ (∀ x, x ∈ ArcLruPart.mainList p1
                  ↔ is_Some (ArcLruPart.mainCache_ p1 !! x))
          ∧ Z.of_nat (size (ArcLruPart.mainCache_ p1)) < ArcLruPart.capacity_ p
          ∧ ArcLruPart.capacity_ p1 = ArcLruPart.capacity_ p
          ∧ ArcLruPart.mainCache_ p1 !! k = None) as (Hnd1 & Hl1 & Hsz1 & Hc1 & Hk1).
  { unfold p1.
    destruct (Z.leb_spec (ArcLruPart.capacity_ p)
                (Z.of_nat (size (ArcLruPart.mainCache_ p)))) as [Hfull|Hroom].
    - assert (ArcLruPart.mainCache_ p ≠ ∅) as Hne.
      { apply map_size_non_empty_iff. lia. }
      destruct (arc_wf_main_evict p Hwf Hne) as (? & ? & ?).
      split_and!; [done|done|lia|apply arc_evict_capacity|].
      by apply arc_evict_main_lookup.
    - split_and!; [done|done|lia|done|done]. }
  split; simpl.
  - unfold ArcLruPart.addToFront. apply NoDup_cons. split; [|done].
    intros Hin. apply Hl1 in Hin. rewrite Hk1 in Hin. by destruct Hin.
  - intros x. unfold ArcLruPart.addToFront. rewrite elem_of_cons, Hl1.
    destruct (decide (x = k)) as [->|Hne].
    + rewrite lookup_insert_eq. split; by eauto.
    + rewrite lookup_insert_ne by done. tauto.
  - rewrite map_size_insert_None by done. lia.
Qed.

Lemma lru_part_wf_put p k v :
  ArcLruPart.wf_main p → ArcLruPart.wf_main (ArcLruPart.put k v p).1.
Proof.
  intros Hwf. unfold ArcLruPart.put.
  destruct (Z.eqb_spec (ArcLruPart.capacity_ p) 0) as [?|Hc]; [done|].
  destruct (ArcLruPart.mainCache_ p !! k) as [node|] eqn:Hk; simpl.
  - apply arc_wf_main_touch; [done|by rewrite Hk].
  - by apply arc_wf_main_add.
Qed.

Lemma lfu_part_wf_put p k v :
  ArcLruPart.wf_main p → ArcLruPart.wf_main (ArcLfuPart.put k v p).1.
Proof.
  intros Hwf. unfold ArcLfuPart.put.
  destruct (Z.eqb_spec (ArcLruPart.capacity_ p) 0) as [?|Hc]; [done|].
  destruct (ArcLruPart.mainCache_ p !! k) as [node|] eqn:Hk; simpl.
  - apply arc_wf_main_touch; [done|by rewrite Hk].
  - rewrite lfu_evict_eq. by apply arc_wf_main_add.
Qed.

Lemma lru_part_wf_get p k :
  ArcLruPart.wf_main p → ArcLruPart.wf_main (ArcLruPart.get k p).1.
Proof.
  intros Hwf. unfold ArcLruPart.get, ArcLruPart.updateNodeAccess.
  destruct (ArcLruPart.mainCache_ p !! k) as [node|] eqn:Hk; simpl; [|done].
  apply arc_wf_main_touch; [done|by rewrite Hk].
Qed.

Lemma lfu_part_wf_get p k :
  ArcLruPart.wf_main p → ArcLruPart.wf_main (ArcLfuPart.get k p).1.
Proof.
  intros Hwf. unfold ArcLfuPart.get.
  destruct (ArcLruPart.mainCache_ p !! k) as [node|] eqn:Hk; simpl; [|done].
  apply arc_wf_main_touch; [done|by rewrite Hk].
Qed.

Lemma arc_part_wf_checkGhost p k :
  ArcLruPart.wf_main p → ArcLruPart.wf_main (ArcLruPart.checkGhost k p).1.
Proof.
  intros [Hnd Hl Hsz]. unfold ArcLruPart.checkGhost.
  by destruct (ArcLruPart.ghostCache_ p !! k).
Qed.

Lemma arc_part_wf_shrink p :
  ArcLruPart.wf_main p → 0 < ArcLruPart.capacity_ p →
  let p1 :=
    if Z.of_nat (size (ArcLruPart.mainCache_ p)) =? ArcLruPart.capacity_ p
    then ArcLruPart.evictLeastRecent p else p in
  ArcLruPart.wf_main (ArcLruPart.set_capacity (ArcLruPart.capacity_ p1 - 1) p1).
Proof.
  intros Hwf Hc p1. pose proof Hwf as [Hnd Hl Hsz]. unfold p1.
  destruct (Z.eqb_spec (Z.of_nat (size (ArcLruPart.mainCache_ p)))
              (ArcLruPart.capacity_ p)) as [Hfull|Hroom].
  - assert (ArcLruPart.mainCache_ p ≠ ∅) as Hne.
    { apply map_size_non_empty_iff. lia. }
    destruct (arc_wf_main_evict p Hwf Hne) as (? & ? & ?).
    split; simpl; [done|done|]. rewrite arc_evict_capacity. lia.
  - split; simpl; [done|done|lia].
Qed.

Lemma lru_part_wf_decreaseCapacity p :
  ArcLruPart.wf_main p → ArcLruPart.wf_main (ArcLruPart.decreaseCapacity p).1.
Proof.
  intros Hwf. unfold ArcLruPart.decreaseCapacity.
  destruct (Z.leb_spec (ArcLruPart.capacity_ p) 0) as [?|Hc]; [done|].
  by apply arc_part_wf_shrink.
Qed.

Lemma lfu_part_wf_decreaseCapacity p :
  ArcLruPart.wf_main p → ArcLruPart.wf_main (ArcLfuPart.decreaseCapacity p).1.
Proof.
  intros Hwf. pose proof Hwf as [_ _ Hsz]. unfold ArcLfuPart.decreaseCapacity.
  destruct (Z.eqb_spec (ArcLruPart.capacity_ p) 0) as [?|Hc]; [done|].
  simpl. rewrite lfu_evict_eq. apply arc_part_wf_shrink; [done|lia].
Qed.

(** A larger capacity keeps the live side well formed. *)
Lemma arc_part_wf_grow p (c : Z) :
  ArcLruPart.wf_main p → ArcLruPart.capacity_ p ≤ c →
  ArcLruPart.wf_main (ArcLruPart.set_capacity c p).
Proof. intros [Hnd Hl Hsz] Hc. split; simpl; [done|done|lia]. Qed.

Lemma arc_wf_checkGhostCaches (C : Z) k s :
  2 * C < 2 ^ 64 → RainArc.wf C s → RainArc.wf C (RainArc.checkGhostCaches k s).1.
Proof.
  intros HC (Hb & Hwr & Hwf).
  split; [by apply arc_balanced_checkGhostCaches|].
  destruct Hb as (Hr0 & Hf0 & Hsum).
  unfold RainArc.lruCapacity, RainArc.lfuCapacity in *.
  unfold RainArc.checkGhostCaches.
  pose proof (arc_part_wf_checkGhost (RainArc.lruPart_ s) k Hwr) as Hwr1.
  assert (ArcLruPart.wf_main (ArcLfuPart.checkGhost k (RainArc.lfuPart_ s)).1)
    as Hwf1 by apply (arc_part_wf_checkGhost _ k Hwf).
  assert (ArcLruPart.capacity_ (ArcLruPart.checkGhost k (RainArc.lruPart_ s)).1
          = ArcLruPart.capacity_ (RainArc.lruPart_ s)) as Hcr.
  { unfold ArcLruPart.checkGhost. by destruct (_ !! k). }
  assert (ArcLruPart.capacity_ (ArcLfuPart.checkGhost k (RainArc.lfuPart_ s)).1
          = ArcLruPart.capacity_ (RainArc.lfuPart_ s)) as Hcf.
  { unfold ArcLfuPart.checkGhost. by destruct (_ !! k). }
  destruct (ArcLruPart.checkGhost k (RainArc.lruPart_ s)) as [r1 [|]]; simpl in *.
  - pose proof (lfu_part_wf_decreaseCapacity (RainArc.lfuPart_ s) Hwf) as Hwf2.
    destruct (lfu_part_decreaseCapacity_spec (RainArc.lfuPart_ s) Hf0)
      as [(Hpos & Htrue & Hdec)|[Hzero Hsame]].
    + destruct (ArcLfuPart.decreaseCapacity (RainArc.lfuPart_ s)) as [f1 b].
      simpl in *. subst b. simpl. split; [|done].
      unfold ArcLruPart.increaseCapacity. apply arc_part_wf_grow; [done|].
      rewrite to_size_t_small; lia.
    + rewrite Hsame. simpl. done.
  - destruct (ArcLfuPart.checkGhost k (RainArc.lfuPart_ s)) as [f1 [|]];
      simpl in *; [|done].
    pose proof (lru_part_wf_decreaseCapacity r1 Hwr1) as Hwr2.
    destruct (lru_part_decreaseCapacity_spec r1 ltac:(lia))
      as [(Hpos & Htrue & Hdec)|[Hzero Hsame]].
    + destruct (ArcLruPart.decreaseCapacity r1) as [r2 b].
      simpl in *. subst b. simpl. split; [done|].
      unfold ArcLfuPart.increaseCapacity. apply arc_part_wf_grow; [done|lia].
    + rewrite Hsame. simpl. done.
Qed.

Lemma arc_wf_step (C : Z) s (o : RainArc.op K V) :
  2 * C < 2 ^ 64 → RainArc.wf C s → RainArc.wf C (RainArc.step s o).
Proof.
  intros HC Hwf.
  split; [apply arc_balanced_step; [done|apply Hwf]|].
  destruct o as [k|k v]; simpl.
  - pose proof (arc_wf_checkGhostCaches C k s HC Hwf) as (_ & Hwr & Hwl).
    unfold RainArc.get.
    destruct (RainArc.checkGhostCaches k s) as [s1 g]. simpl in *.
    pose proof (lru_part_wf_get (RainArc.lruPart_ s1) k Hwr) as Hwr'.
    destruct (ArcLruPart.get k (RainArc.lruPart_ s1)) as [r1 [[x [|]]|]];
      simpl in *.
    + split; [done|]. by apply lfu_part_wf_put.
    + done.
    + pose proof (lfu_part_wf_get (RainArc.lfuPart_ s1) k Hwl) as Hwl'.
      by destruct (ArcLfuPart.get k (RainArc.lfuPart_ s1)).
  - pose proof (arc_wf_checkGhostCaches C k s HC Hwf) as (_ & Hwr & Hwl).
    unfold RainArc.put.
    destruct (RainArc.checkGhostCaches k s) as [s1 g]. simpl in *.
    pose proof (lru_part_wf_put (RainArc.lruPart_ s1) k v Hwr) as Hwr'.
    destruct g; simpl; [done|].
    destruct (ArcLruPart.put k v (RainArc.lruPart_ s1)) as [r1 [|]]; simpl in *.
    + split; [done|]. by apply lfu_part_wf_put.
    + done.
Qed.

Lemma arc_wf_run (C T : Z) (ops : list (RainArc.op K V)) :
  0 ≤ C → 2 * C < 2 ^ 64 →
  RainArc.wf C (RainArc.run ops (RainArc.init C T)).
Proof.
  intros HC0 HC.
  assert (RainArc.wf C (RainArc.init (K := K) (V := V) C T)) as Hinit.
  { split_and!.
    - unfold RainArc.balanced, RainArc.lruCapacity, RainArc.lfuCapacity. simpl. lia.
    - split; simpl; [constructor| |rewrite map_size_empty; lia].
      intros k. rewrite lookup_empty. split; [by intros ?%elem_of_nil|by intros [? ?]].
    - split; simpl; [constructor| |rewrite map_size_empty; lia].
      intros k. rewrite lookup_empty. split; [by intros ?%elem_of_nil|by intros [? ?]]. }
  revert Hinit. generalize (RainArc.init (K := K) (V := V) C T).
  induction ops as [|o ops IH]; intros s Hs; [done|].
  apply IH. by apply arc_wf_step.
Qed.

(** X19: the live part of the capacity bound holds: after every
    sequence of operations on a cache constructed with capacity [C],
    the live mapping of each half is no larger than the live capacity
    of that half. *)
Lemma arc_live_size_le_capacity (C T : Z) (ops : list (RainArc.op K V)) :
  0 ≤ C → 2 * C < 2 ^ 64 →
  let s := RainArc.run ops (RainArc.init C T) in
  Z.of_nat (size (ArcLruPart.mainCache_ (RainArc.lruPart_ s)))
  ≤ RainArc.lruCapacity s
  ∧ Z.of_nat (size (ArcLruPart.mainCache_ (RainArc.lfuPart_ s)))
    ≤ RainArc.lfuCapacity s.
Proof.
  intros HC0 HC s.
  destruct (arc_wf_run C T ops HC0 HC) as (_ & [_ _ Hr] & [_ _ Hf]).
  done.
Qed.
End ArcLiveBound.

(** * Further properties *)

(** ** RainLru: lookups after [put] and [remove], and the order of eviction *)

Section LruMore.
Context {K : Type} `{Countable K} `{Default K} {V : Type}.
Implicit Types (s : RainLru.t K V) (k j : K) (v w : V).

(** In a well formed cache the list links as many nodes as the map
    owns. *)
Lemma lru_wf_length s :
  RainLru.wf s → length (RainLru.list_ s) = size (RainLru.nodeMap_ s).
Proof.
  intros [Hnd Hl _].
  rewrite <- size_dom. unfold size at 1, set_size. simpl.
  apply Permutation_length. apply NoDup_Permutation; [done|apply NoDup_elements|].
  intros x. rewrite elem_of_elements, elem_of_dom. apply Hl.
Qed.

(** A key that was just touched is linked last. *)
Lemma lru_moveToMostRecent_last k (l : list K) :
  last (RainLru.moveToMostRecent k l) = Some k.
Proof. unfold RainLru.moveToMostRecent, RainLru.insertNode. apply last_snoc. Qed.

(** The first node after a key was touched is another key, if the
    list links two nodes or more. *)
Lemma lru_moveToMostRecent_head k (l : list K) x :
  NoDup l → k ∈ l → (2 ≤ length l)%nat →
  head (RainLru.moveToMostRecent k l) = Some x → x ≠ k.
Proof.
  intros Hnd Hk Hlen.
  unfold RainLru.moveToMostRecent, RainLru.insertNode, RainLru.removeNode.
  destruct (unlink k l) as [|y r] eqn:Hu.
  - exfalso. destruct l as [|a [|b l]]; simpl in *; try lia.
    destruct (decide (a = k)); [done|]. done.
  - simpl. intros [= <-]. assert (y ∈ unlink k l) as Hy by (rewrite Hu; left).
    apply elem_of_unlink in Hy; tauto.
Qed.

Lemma lru_put_get_value s k v :
  0 < RainLru.capacity_ s → (RainLru.get k (RainLru.put k v s)).2 = Some v.
Proof.
  intros Hc. destruct (lru_put_contains k v s Hc) as (n & Hn & Hv).
  unfold RainLru.get. rewrite Hn. simpl. by rewrite Hv.
Qed.

(** X1: [put] then [get] of the same key returns the value that was
    put, for a new key as for an update, whenever the capacity is
    positive; and the key is the most recently used one. *)
Theorem lru_put_get s k v :
  0 < RainLru.capacity_ s →
  (RainLru.get k (RainLru.put k v s)).2 = Some v
  ∧ last (RainLru.list_ (RainLru.put k v s)) = Some k.
Proof.
  intros Hc. split.
  - by apply lru_put_get_value.
  - unfold RainLru.put. destruct (Z.leb_spec (RainLru.capacity_ s) 0); [lia|].
    destruct (RainLru.nodeMap_ s !! k); simpl.
    + apply lru_moveToMostRecent_last.
    + unfold RainLru.insertNode. apply last_snoc.
Qed.

(** X2: the representation invariant holds after every sequence of
    [get], [put] and [remove] on a new cache: each key of the map is
    linked once and no other key is linked, the list is as long as
    the map is large, and the map holds no more than [max 0 capacity]
    entries. *)
Theorem lru_invariant (c : Z) (ops : list (RainLru.op K V)) :
  - 2 ^ 31 ≤ c < 2 ^ 31 →
  let s := RainLru.run ops (RainLru.init c) in
  RainLru.capacity_ s = c
  ∧ NoDup (RainLru.list_ s)
  ∧ (∀ k, k ∈ RainLru.list_ s ↔ is_Some (RainLru.nodeMap_ s !! k))
  ∧ length (RainLru.list_ s) = size (RainLru.nodeMap_ s)
  ∧ Z.of_nat (size (RainLru.nodeMap_ s)) ≤ Z.max 0 c.
Proof.
  intros Hc s.
  destruct (lru_wf_run ops (RainLru.init c)) as [Hwf Hcap];
    [simpl; lia|apply lru_wf_init|]. fold s in Hwf, Hcap.
  pose proof (lru_wf_length s Hwf) as Hlen.
  destruct Hwf as [Hnd Hl Hsz]. rewrite Hcap in Hsz.
  by split_and!.
Qed.

(** X3: a cache whose capacity is zero or negative never stores
    anything: every sequence of operations leaves it as constructed,
    and every [get] misses. *)
Theorem lru_no_capacity_never_stores (c : Z) (ops : list (RainLru.op K V)) k :
  c ≤ 0 →
  RainLru.run ops (RainLru.init c) = RainLru.init c
  ∧ RainLru.get k (RainLru.run ops (RainLru.init c)) = (RainLru.init c, None).
Proof.
  intros Hc.
  assert (RainLru.run ops (RainLru.init c) = RainLru.init (V := V) c) as Hrun.
  { induction ops as [|o ops IH] using rev_ind; [done|].
    unfold RainLru.run in *. rewrite foldl_app, IH. simpl.
    destruct o as [j|j w|j]; simpl.
    - done.
    - unfold RainLru.put. simpl. by destruct (Z.leb_spec c 0); [|lia].
    - done. }
  by rewrite Hrun.
Qed.

(** A new key enters a cache with room. *)
Lemma lru_put_new_key_room s k v :
  0 < RainLru.capacity_ s < 2 ^ 64 →
  RainLru.nodeMap_ s !! k = None →
  Z.of_nat (size (RainLru.nodeMap_ s)) < RainLru.capacity_ s →
  RainLru.nodeMap_ (RainLru.put k v s)
  = <[k := RainLru.newNode v]> (RainLru.nodeMap_ s)
  ∧ RainLru.list_ (RainLru.put k v s) = RainLru.list_ s ++ [k].
Proof.
  intros Hc Hk Hroom.
  unfold RainLru.put. destruct (Z.leb_spec (RainLru.capacity_ s) 0); [lia|].
  rewrite Hk. unfold RainLru.addNewNode. rewrite to_size_t_small by lia.
  by destruct (Z.leb_spec (RainLru.capacity_ s)
                 (Z.of_nat (size (RainLru.nodeMap_ s)))); [lia|].
Qed.

(** A new key enters a full cache. *)
Lemma lru_put_new_key_full s k v :
  RainLru.wf s → 0 < RainLru.capacity_ s < 2 ^ 64 →
  RainLru.nodeMap_ s !! k = None →
  RainLru.capacity_ s ≤ Z.of_nat (size (RainLru.nodeMap_ s)) →
  ∃ k0 rest,
    RainLru.list_ s = k0 :: rest
    ∧ k0 ≠ k
    ∧ RainLru.nodeMap_ (RainLru.put k v s)
      = <[k := RainLru.newNode v]> (delete k0 (RainLru.nodeMap_ s))
    ∧ RainLru.list_ (RainLru.put k v s) = rest ++ [k].
Proof.
  intros Hwf Hc Hk Hfull. pose proof Hwf as [Hnd Hl Hsz].
  unfold RainLru.put. destruct (Z.leb_spec (RainLru.capacity_ s) 0); [lia|].
  rewrite Hk. unfold RainLru.addNewNode. rewrite to_size_t_small by lia.
  destruct (Z.leb_spec (RainLru.capacity_ s)
              (Z.of_nat (size (RainLru.nodeMap_ s)))); [|lia].
  pose proof (lru_wf_length s Hwf) as Hlen.
  destruct (RainLru.list_ s) as [|k0 rest] eqn:Hlist; [simpl in Hlen; lia|].
  exists k0, rest. split; [done|].
  assert (k0 ≠ k) as Hne.
  { intros ->. assert (is_Some (RainLru.nodeMap_ s !! k)) as [? ?]
      by (apply Hl; left). congruence. }
  split; [done|].
  unfold RainLru.evictLeastRecent. rewrite Hlist. simpl.
  unfold RainLru.removeNode. simpl. by rewrite decide_True.
Qed.

(** X4: [put] of a key that is not resident evicts nothing while
    there is room; in a full cache it evicts the least recently used
    key, the first of the list, and no other.  Either way the new key
    is linked last. *)
Theorem lru_put_new_key s k v :
  RainLru.wf s → 0 < RainLru.capacity_ s < 2 ^ 64 →
  RainLru.nodeMap_ s !! k = None →
  (Z.of_nat (size (RainLru.nodeMap_ s)) < RainLru.capacity_ s →
   RainLru.nodeMap_ (RainLru.put k v s)
   = <[k := RainLru.newNode v]> (RainLru.nodeMap_ s)
   ∧ RainLru.list_ (RainLru.put k v s) = RainLru.list_ s ++ [k])
  ∧ (RainLru.capacity_ s ≤ Z.of_nat (size (RainLru.nodeMap_ s)) →
     ∃ k0 rest,
       RainLru.list_ s = k0 :: rest
       ∧ k0 ≠ k
       ∧ RainLru.nodeMap_ (RainLru.put k v s)
         = <[k := RainLru.newNode v]> (delete k0 (RainLru.nodeMap_ s))
       ∧ RainLru.list_ (RainLru.put k v s) = rest ++ [k]).
Proof.
  intros Hwf Hc Hk. split.
  - intros Hroom. by apply lru_put_new_key_room.
  - intros Hfull. by apply lru_put_new_key_full.
Qed.
End LruMore.

Section LruRecency.
Context {K : Type} `{Countable K} `{Default K} {V : Type}.
Implicit Types (s : RainLru.t K V) (k j : K) (v w : V).

(** In a well formed cache with room for two, the [put] of a new key
    right after a key was touched keeps the touched key. *)
Lemma lru_put_keeps_touched s k j w (n : RainLru.LruNode V) :
  RainLru.wf s → 2 ≤ RainLru.capacity_ s < 2 ^ 64 →
  RainLru.nodeMap_ s !! k = Some n → RainLru.nodeMap_ s !! j = None →
  last (RainLru.list_ s) = Some k →
  RainLru.nodeMap_ (RainLru.put j w s) !! k = Some n.
Proof.
  intros Hwf Hc Hk Hj Hlast. assert (j ≠ k) as Hjk by congruence.
  destruct (decide (Z.of_nat (size (RainLru.nodeMap_ s)) < RainLru.capacity_ s))
    as [Hlt|Hge].
  - destruct (lru_put_new_key_room s j w ltac:(lia) Hj Hlt) as [-> _].
    by rewrite lookup_insert_ne.
  - destruct (lru_put_new_key_full s j w Hwf ltac:(lia) Hj ltac:(lia))
      as (k0 & rest & Hlist & _ & -> & _).
    rewrite lookup_insert_ne by done.
    assert (k0 ≠ k) as Hne.
    { intros ->. pose proof (lru_wf_length s Hwf) as Hlen.
      destruct Hwf as [Hnd _ _]. rewrite Hlist in Hnd, Hlast, Hlen.
      apply NoDup_cons in Hnd as [Hnotin _].
      destruct rest as [|y rest]; [simpl in Hlen; lia|].
      apply Hnotin. rewrite last_cons_cons in Hlast.
      by apply last_Some_elem_of. }
    by rewrite lookup_delete_ne.
Qed.

(** X5: a hit renews an entry.  In a well formed cache of capacity 2
    or more, an entry that [get] has just found, or [put] has just
    updated, is still resident after the next [put] of a new key,
    also when that [put] has to evict. *)
Theorem lru_hit_survives_next_put s k j v w (n : RainLru.LruNode V) :
  RainLru.wf s → 2 ≤ RainLru.capacity_ s < 2 ^ 64 →
  RainLru.nodeMap_ s !! k = Some n → RainLru.nodeMap_ s !! j = None →
  RainLru.nodeMap_ (RainLru.put j w (RainLru.get k s).1) !! k = Some n
  ∧ RainLru.nodeMap_ (RainLru.put j w (RainLru.put k v s)) !! k
    = Some (RainLru.setValue v n).
Proof.
  intros Hwf Hc Hk Hj. split.
  - apply lru_put_keeps_touched.
    + by apply lru_wf_get.
    + pose proof (lru_capacity_step s (RainLru.Get k)) as E. simpl in E.
      by rewrite E.
    + by rewrite lru_get_nodeMap.
    + by rewrite lru_get_nodeMap.
    + unfold RainLru.get. rewrite Hk. simpl. apply lru_moveToMostRecent_last.
  - assert (RainLru.put k v s = RainLru.updateExistingNode k n v s) as Hput.
    { unfold RainLru.put. destruct (Z.leb_spec (RainLru.capacity_ s) 0); [lia|].
      by rewrite Hk. }
    apply lru_put_keeps_touched.
    + apply lru_wf_put; [lia|done].
    + pose proof (lru_capacity_step s (RainLru.Put k v)) as E. simpl in E.
      by rewrite E.
    + rewrite Hput. simpl. by rewrite lookup_insert_eq.
    + rewrite Hput. simpl. rewrite lookup_insert_ne by congruence. done.
    + rewrite Hput. simpl. apply lru_moveToMostRecent_last.
Qed.

(** X6: [remove] takes out its key and no other: a [get] of the key
    misses afterwards and every other entry is as before; [remove] of
    a key that is not resident changes nothing; and in a well formed
    cache the slot is free again, so that the next [put] of a new key
    evicts nothing. *)
Theorem lru_remove_frees_slot s k :
  (RainLru.get k (RainLru.remove k s)).2 = None
  ∧ (∀ j, j ≠ k →
       RainLru.nodeMap_ (RainLru.remove k s) !! j = RainLru.nodeMap_ s !! j)
  ∧ (RainLru.nodeMap_ s !! k = None → RainLru.remove k s = s)
  ∧ (∀ j w,
       RainLru.wf s → 0 < RainLru.capacity_ s < 2 ^ 64 →
       is_Some (RainLru.nodeMap_ s !! k) → RainLru.nodeMap_ s !! j = None →
       RainLru.nodeMap_ (RainLru.put j w (RainLru.remove k s))
       = <[j := RainLru.newNode w]> (delete k (RainLru.nodeMap_ s))).
Proof.
  split_and!.
  - unfold RainLru.remove, RainLru.get.
    destruct (RainLru.nodeMap_ s !! k) eqn:Hk; simpl.
    + by rewrite lookup_delete_eq.
    + by rewrite Hk.
  - intros j Hne. unfold RainLru.remove.
    destruct (RainLru.nodeMap_ s !! k); simpl; [|done].
    by rewrite lookup_delete_ne.
  - intros Hk. unfold RainLru.remove. by rewrite Hk.
  - intros j w Hwf Hc [n Hk] Hj. pose proof Hwf as [_ _ Hsz].
    assert (RainLru.nodeMap_ (RainLru.remove k s) = delete k (RainLru.nodeMap_ s)
            ∧ RainLru.capacity_ (RainLru.remove k s) = RainLru.capacity_ s)
      as [Hm Hcap].
    { unfold RainLru.remove. by rewrite Hk. }
    rewrite <- Hm. apply lru_put_new_key_room.
    + by rewrite Hcap.
    + rewrite Hm. apply lookup_delete_None. by right.
    + rewrite Hm, Hcap.
      pose proof (map_size_delete k (RainLru.nodeMap_ s)) as Hd.
      rewrite Hk in Hd.
      assert (size (RainLru.nodeMap_ s) ≠ 0%nat).
      { apply map_size_non_empty_iff. intros He. rewrite He in Hk.
        by rewrite lookup_empty in Hk. }
      lia.
Qed.
End LruRecency.

(** ** RainLruK: admission, bounds and updates *)

Section LruKMore.
Context {K : Type} `{Countable K} `{Default K} {V : Type} `{Default V}.
Implicit Types (s : RainLruK.t K V) (k : K) (v : V).

(** One more access of the only key of the history raises its count
    by one. *)
Lemma lruk_bumpHistory_historyOf (Hc : Z) k (n : nat) :
  1 ≤ Hc < 2 ^ 64 → Z.of_nat (S n) < 2 ^ 64 →
  RainLruK.bumpHistory k (RainLruK.historyOf Hc k n)
  = (RainLruK.historyOf Hc k (S n), Z.of_nat (S n)).
Proof.
  intros HH Hn. unfold RainLruK.bumpHistory, RainLru.get_value, RainLru.get.
  destruct n as [|n].
  - simpl RainLruK.historyOf at 1. simpl RainLru.nodeMap_.
    rewrite lookup_empty.
    change (to_size_t (default dflt None + 1)) with 1.
    unfold RainLru.put. simpl.
    destruct (Z.leb_spec Hc 0); [lia|]. rewrite lookup_empty.
    unfold RainLru.addNewNode. simpl. rewrite to_size_t_small by lia.
    rewrite map_size_empty.
    destruct (Z.leb_spec Hc (Z.of_nat 0)); [lia|]. simpl.
    by rewrite insert_empty.
  - cbn [RainLruK.historyOf RainLru.nodeMap_ RainLru.capacity_ RainLru.list_].
    rewrite lookup_singleton_eq.
    cbn [default option_rect RainLru.value_ from_option]. unfold id.
    rewrite to_size_t_small by lia.
    unfold RainLru.put. cbn [RainLru.nodeMap_ RainLru.capacity_ RainLru.list_].
    destruct (Z.leb_spec Hc 0); [lia|].
    assert (RainLru.moveToMostRecent k [k] = [k]) as Hmove.
    { unfold RainLru.moveToMostRecent, RainLru.removeNode, RainLru.insertNode.
      simpl. by rewrite decide_True. }
    rewrite Hmove, lookup_singleton_eq. unfold RainLru.updateExistingNode.
    cbn [RainLru.nodeMap_ RainLru.capacity_ RainLru.list_].
    rewrite Hmove, insert_singleton_eq. unfold RainLru.setValue. simpl.
    repeat f_equal; lia.
Qed.

(** The [put] calls of one key on a new cache, as long as their number
    stays below K: the main cache stays empty, the history holds the
    number of calls, and the side table holds the last value. *)
Lemma lruk_puts_below (C Hc Kt : Z) k (vs : list V) (n : nat) s :
  1 ≤ Hc < 2 ^ 64 → 0 ≤ Kt < 2 ^ 64 →
  Z.of_nat (n + length vs) < Kt →
  RainLruK.main s = RainLru.init C → RainLruK.k_ s = Kt →
  RainLruK.historyList_ s = RainLruK.historyOf Hc k n →
  let s' := RainLruK.putAll (map (λ x, (k, x)) vs) s in
  RainLruK.main s' = RainLru.init C ∧ RainLruK.k_ s' = Kt
  ∧ RainLruK.historyList_ s' = RainLruK.historyOf Hc k (n + length vs)
  ∧ RainLruK.historyValueMap_ s' !! k
    = match last vs with
      | Some x => Some x
      | None => RainLruK.historyValueMap_ s !! k
      end.
Proof.
  intros HH HK. revert n s.
  induction vs as [|x vs IH]; intros n s Hn Hm Hk Hh; simpl.
  - unfold RainLruK.putAll. simpl. by rewrite Nat.add_0_r.
  - change (RainLruK.putAll ((k, x) :: map (λ x0, (k, x0)) vs) s)
      with (RainLruK.putAll (map (λ x0, (k, x0)) vs) (RainLruK.put k x s)).
    simpl in Hn.
    assert (RainLruK.put k x s
            = {| RainLruK.main := RainLru.init C; RainLruK.k_ := Kt;
                 RainLruK.historyList_ := RainLruK.historyOf Hc k (S n);
                 RainLruK.historyValueMap_ :=
                   <[k := x]> (RainLruK.historyValueMap_ s) |}) as Hput.
    { unfold RainLruK.put. rewrite Hm, Hk, Hh.
      rewrite lru_get_miss by (simpl; apply lookup_empty).
      rewrite lruk_bumpHistory_historyOf by lia.
      unfold RainLruK.reached. rewrite to_size_t_small by lia.
      by destruct (Z.leb_spec Kt (Z.of_nat (S n))); [lia|]. }
    destruct (IH (S n) (RainLruK.put k x s)) as (Hm' & Hk' & Hh' & Hv');
      [lia|by rewrite Hput..|].
    split_and!; [done|done| |].
    + rewrite Hh'. f_equal. lia.
    + rewrite Hv'. destruct vs as [|y vs]; simpl.
      * rewrite Hput. simpl. by rewrite lookup_insert_eq.
      * destruct (last (y :: vs)) eqn:E; [done|]. by apply last_None in E.
Qed.

(** X7: the admission gate.  On a new cache with room in the main
    cache and in the history, [K - 1] calls of [put] for one key leave
    the main cache empty and the last value in the side table; the
    K-th [put] enters the key in the main cache with the value of that
    call, erases its count and its tentative value, and a [get]
    returns the value. *)
Theorem lruk_admitted_by_kth_put (C Hc Kt : Z) k (vs : list V) v :
  1 ≤ C < 2 ^ 31 → 1 ≤ Hc < 2 ^ 31 → 1 ≤ Kt < 2 ^ 31 →
  Z.of_nat (length vs) + 1 = Kt →
  let s := RainLruK.putAll (map (λ x, (k, x)) vs) (RainLruK.init C Hc Kt) in
  RainLru.nodeMap_ (RainLruK.main s) = ∅
  ∧ RainLruK.historyValueMap_ s !! k = last vs
  ∧ RainLru.nodeMap_ (RainLruK.main (RainLruK.put k v s))
    = {[ k := RainLru.newNode v ]}
  ∧ RainLruK.historyValueMap_ (RainLruK.put k v s) !! k = None
  ∧ RainLru.nodeMap_ (RainLruK.historyList_ (RainLruK.put k v s)) !! k = None
  ∧ (RainLruK.get k (RainLruK.put k v s)).2 = v.
Proof.
  intros HC HH HK Hlen s.
  destruct (lruk_puts_below C Hc Kt k vs 0 (RainLruK.init C Hc Kt))
    as (Hm & Hk & Hh & Hv); [lia|lia|simpl; lia|done..|].
  fold s in Hm, Hk, Hh, Hv. simpl in Hh, Hv.
  assert (RainLruK.put k v s
          = {| RainLruK.main := RainLru.put k v (RainLru.init C);
               RainLruK.k_ := Kt;
               RainLruK.historyList_ :=
                 RainLru.remove k (RainLruK.historyOf Hc k (S (length vs)));
               RainLruK.historyValueMap_ :=
                 delete k (<[k := v]> (RainLruK.historyValueMap_ s)) |}) as Hput.
  { unfold RainLruK.put. rewrite Hm, Hk, Hh.
    rewrite lru_get_miss by (simpl; apply lookup_empty).
    rewrite lruk_bumpHistory_historyOf by lia.
    unfold RainLruK.reached. rewrite to_size_t_small by lia.
    by destruct (Z.leb_spec Kt (Z.of_nat (S (length vs)))); [|lia]. }
  assert (RainLru.nodeMap_ (RainLru.put k v (RainLru.init (V := V) C))
          = {[ k := RainLru.newNode v ]}) as Hmain.
  { unfold RainLru.put. simpl. destruct (Z.leb_spec C 0); [lia|].
    rewrite lookup_empty. unfold RainLru.addNewNode. simpl.
    rewrite to_size_t_small by lia. rewrite map_size_empty.
    destruct (Z.leb_spec C (Z.of_nat 0)); [lia|]. simpl. by rewrite insert_empty. }
  split_and!.
  - by rewrite Hm.
  - rewrite Hv. destruct (last vs); [done|]. simpl. apply lookup_empty.
  - by rewrite Hput.
  - rewrite Hput. simpl. by rewrite lookup_delete_eq.
  - rewrite Hput. simpl. unfold RainLru.remove. simpl.
    rewrite lookup_singleton_eq. simpl. by rewrite lookup_delete_eq.
  - unfold RainLruK.get. rewrite Hput. simpl.
    unfold RainLru.get at 1. rewrite Hmain, lookup_singleton_eq.
    by destruct (RainLruK.bumpHistory k _).
Qed.

(** X8: [get] alone never admits a key and never creates an entry:
    after every sequence of [get] calls on a new cache the main cache
    is as constructed, the side table is empty, and a [get] returns
    the default value. *)
Theorem lruk_gets_never_admit (C Hc Kt : Z) (ks : list K) k :
  let s := RainLruK.run (map RainLruK.Get ks) (RainLruK.init (V := V) C Hc Kt) in
  RainLruK.main s = RainLru.init C
  ∧ RainLruK.historyValueMap_ s = ∅
  ∧ (RainLruK.get k s).2 = dflt.
Proof.
  intros s.
  assert (∀ s0 : RainLruK.t K V,
            RainLruK.main s0 = RainLru.init C →
            RainLruK.historyValueMap_ s0 = ∅ →
            ∀ j, (RainLruK.get j s0).2 = dflt
                 ∧ RainLruK.main (RainLruK.get j s0).1 = RainLru.init C
                 ∧ RainLruK.historyValueMap_ (RainLruK.get j s0).1 = ∅) as Hstep.
  { intros s0 Hm Hv j. unfold RainLruK.get. rewrite Hm, Hv.
    rewrite lru_get_miss by (simpl; apply lookup_empty).
    destruct (RainLruK.bumpHistory j _) as [h2 c].
    rewrite lookup_empty. by destruct (RainLruK.reached c _). }
  assert (RainLruK.main s = RainLru.init C ∧ RainLruK.historyValueMap_ s = ∅)
    as [Hm Hv].
  { unfold s, RainLruK.run. clear s.
    induction ks as [|j ks IH] using rev_ind; [done|].
    rewrite map_app, foldl_app. simpl. destruct IH as [Hm Hv].
    by destruct (Hstep _ Hm Hv j) as (_ & ? & ?). }
  split_and!; [done|done|]. by apply Hstep.
Qed.
End LruKMore.

Section LruKInvariant.
Context {K : Type} `{Countable K} `{Default K} {V : Type} `{Default V}.
Implicit Types (s : RainLruK.t K V) (k : K) (v : V).

Lemma lru_put_capacity {W : Type} k (w : W) (m : RainLru.t K W) :
  RainLru.capacity_ (RainLru.put k w m) = RainLru.capacity_ m.
Proof. apply (lru_capacity_step m (RainLru.Put k w)). Qed.

Lemma lru_get_capacity {W : Type} k (m : RainLru.t K W) :
  RainLru.capacity_ (RainLru.get k m).1 = RainLru.capacity_ m.
Proof. apply (lru_capacity_step m (RainLru.Get k)). Qed.

Lemma lru_remove_capacity {W : Type} k (m : RainLru.t K W) :
  RainLru.capacity_ (RainLru.remove k m) = RainLru.capacity_ m.
Proof. apply (lru_capacity_step m (RainLru.Remove k)). Qed.

(** The history after the count of a key was raised and stored. *)
Lemma lruk_bumpHistory_wf k (h : RainLru.t K Z) :
  RainLru.capacity_ h < 2 ^ 64 → RainLru.wf h →
  RainLru.wf (RainLruK.bumpHistory k h).1
  ∧ RainLru.capacity_ (RainLruK.bumpHistory k h).1 = RainLru.capacity_ h.
Proof.
  intros Hc Hwf. unfold RainLruK.bumpHistory, RainLru.get_value.
  pose proof (lru_wf_get k h Hwf) as Hwf1.
  pose proof (lru_get_capacity k h) as Hc1.
  destruct (RainLru.get k h) as [h1 r]. simpl in *.
  split; [apply lru_wf_put; [lia|done]|]. by rewrite lru_put_capacity.
Qed.

Lemma lruk_wf_step s (o : RainLruK.op K V) :
  RainLru.capacity_ (RainLruK.main s) < 2 ^ 64 →
  RainLru.capacity_ (RainLruK.historyList_ s) < 2 ^ 64 →
  RainLruK.wf s →
  RainLruK.wf (RainLruK.step s o)
  ∧ RainLru.capacity_ (RainLruK.main (RainLruK.step s o))
    = RainLru.capacity_ (RainLruK.main s)
  ∧ RainLru.capacity_ (RainLruK.historyList_ (RainLruK.step s o))
    = RainLru.capacity_ (RainLruK.historyList_ s).
Proof.
  intros Hcm Hch [Hwm Hwh Hdis].
  destruct (lruk_bumpHistory_wf (RainLruK.opKey o) (RainLruK.historyList_ s) Hch Hwh)
    as [Hwh2 Hch2].
  destruct o as [k|k v]; simpl in *.
  - unfold RainLruK.get.
    pose proof (lru_wf_get k (RainLruK.main s) Hwm) as Hwm1.
    pose proof (lru_get_capacity k (RainLruK.main s)) as Hcm1.
    pose proof (lru_get_nodeMap k (RainLruK.main s)) as Hnm1.
    destruct (RainLru.get k (RainLruK.main s)) as [m1 r]. simpl in *.
    destruct (RainLruK.bumpHistory k (RainLruK.historyList_ s)) as [h2 c].
    simpl in *.
    assert (RainLruK.wf
              {| RainLruK.main := m1; RainLruK.k_ := RainLruK.k_ s;
                 RainLruK.historyList_ := h2;
                 RainLruK.historyValueMap_ := RainLruK.historyValueMap_ s |})
      as Hsame.
    { split; simpl; [done|done|]. intros j. rewrite Hnm1. apply Hdis. }
    destruct r as [x|]; simpl; [done|].
    destruct (RainLruK.reached c (RainLruK.k_ s)); [|done].
    destruct (RainLruK.historyValueMap_ s !! k) as [stored|] eqn:Hst; [|done].
    simpl. split_and!.
    + split; simpl.
      * apply lru_wf_put; [lia|done].
      * by apply lru_wf_remove.
      * intros j Hj. destruct (decide (j = k)) as [->|Hne].
        -- apply lookup_delete_eq.
        -- rewrite lookup_delete_ne by done. apply Hdis. rewrite <- Hnm1.
           by destruct (lru_put_lookup_is_Some k stored j m1 Hj).
    + by rewrite lru_put_capacity.
    + by rewrite lru_remove_capacity.
  - unfold RainLruK.put.
    pose proof (lru_wf_get k (RainLruK.main s) Hwm) as Hwm1.
    pose proof (lru_get_capacity k (RainLruK.main s)) as Hcm1.
    pose proof (lru_get_nodeMap k (RainLruK.main s)) as Hnm1.
    assert ((RainLru.get k (RainLruK.main s)).2 = None →
            RainLru.nodeMap_ (RainLruK.main s) !! k = None) as Hmiss.
    { unfold RainLru.get. by destruct (RainLru.nodeMap_ (RainLruK.main s) !! k). }
    assert (∀ x, (RainLru.get k (RainLruK.main s)).2 = Some x →
                 is_Some (RainLru.nodeMap_ (RainLruK.main s) !! k)) as Hhit.
    { intros x. unfold RainLru.get.
      by destruct (RainLru.nodeMap_ (RainLruK.main s) !! k). }
    destruct (RainLru.get k (RainLruK.main s)) as [m1 r]. simpl in *.
    destruct r as [x|]; simpl.
    + split_and!.
      * split; simpl; [apply lru_wf_put; [lia|done]|done|].
        intros j Hj. apply Hdis.
        destruct (lru_put_lookup_is_Some k v j m1 Hj) as [->|?].
        -- by apply (Hhit x).
        -- by rewrite <- Hnm1.
      * by rewrite lru_put_capacity.
      * done.
    + destruct (RainLruK.bumpHistory k (RainLruK.historyList_ s)) as [h2 c].
      simpl in *.
      destruct (RainLruK.reached c (RainLruK.k_ s)); simpl.
      * split_and!.
        -- split; simpl.
           ++ apply lru_wf_put; [lia|done].
           ++ by apply lru_wf_remove.
           ++ intros j Hj. destruct (decide (j = k)) as [->|Hne].
              ** apply lookup_delete_eq.
              ** rewrite lookup_delete_ne, lookup_insert_ne by done.
                 apply Hdis. rewrite <- Hnm1.
                 by destruct (lru_put_lookup_is_Some k v j m1 Hj).
        -- by rewrite lru_put_capacity.
        -- by rewrite lru_remove_capacity.
      * split_and!; [|done..]. split; simpl; [done|done|].
        intros j Hj. rewrite Hnm1 in Hj.
        destruct (decide (j = k)) as [->|Hne].
        -- rewrite (Hmiss eq_refl) in Hj. by destruct Hj.
        -- rewrite lookup_insert_ne by done. by apply Hdis.
Qed.
End LruKInvariant.

Section LruKBounds.
Context {K : Type} `{Countable K} `{Default K} {V : Type} `{Default V}.
Implicit Types (s : RainLruK.t K V) (k : K) (v : V).

(** X9: after every sequence of [get] and [put] on a new LRU-K cache
    the main cache holds at most [max 0 C] entries and the history at
    most [max 0 H] counts, and no key of the main cache has a
    tentative value in the side table. *)
Theorem lruk_invariant (C Hc Kt : Z) (ops : list (RainLruK.op K V)) :
  - 2 ^ 31 ≤ C < 2 ^ 31 → - 2 ^ 31 ≤ Hc < 2 ^ 31 →
  let s := RainLruK.run ops (RainLruK.init C Hc Kt) in
  Z.of_nat (size (RainLru.nodeMap_ (RainLruK.main s))) ≤ Z.max 0 C
  ∧ Z.of_nat (size (RainLru.nodeMap_ (RainLruK.historyList_ s))) ≤ Z.max 0 Hc
  ∧ ∀ k, is_Some (RainLru.nodeMap_ (RainLruK.main s) !! k) →
         RainLruK.historyValueMap_ s !! k = None.
Proof.
  intros HC HH s.
  assert (RainLruK.wf s
          ∧ RainLru.capacity_ (RainLruK.main s) = C
          ∧ RainLru.capacity_ (RainLruK.historyList_ s) = Hc) as (Hwf & Hcm & Hch).
  { unfold s, RainLruK.run. clear s.
    induction ops as [|o ops IH] using rev_ind.
    - simpl. split_and!; [|done..].
      split; simpl; [apply lru_wf_init..|]. intros k. rewrite lookup_empty.
      by intros [? ?].
    - rewrite foldl_app. simpl. destruct IH as (Hwf & Hcm & Hch).
      destruct (lruk_wf_step _ o ltac:(rewrite Hcm; lia) ltac:(rewrite Hch; lia) Hwf)
        as (Hwf' & Hcm' & Hch').
      split_and!; [done|by rewrite Hcm'|by rewrite Hch']. }
  destruct Hwf as [[_ _ Hsm] [_ _ Hsh] Hdis].
  rewrite Hcm in Hsm. rewrite Hch in Hsh. by split_and!.
Qed.

(** X10: a [put] of a key of the main cache updates the entry in place:
    the history and the side table are as before, the main cache
    holds the new value under the key, and [get] returns it. *)
Theorem lruk_put_resident s k v (n : RainLru.LruNode V) :
  0 < RainLru.capacity_ (RainLruK.main s) →
  RainLru.nodeMap_ (RainLruK.main s) !! k = Some n →
  RainLruK.historyList_ (RainLruK.put k v s) = RainLruK.historyList_ s
  ∧ RainLruK.historyValueMap_ (RainLruK.put k v s) = RainLruK.historyValueMap_ s
  ∧ RainLru.nodeMap_ (RainLruK.main (RainLruK.put k v s))
    = <[k := RainLru.setValue v n]> (RainLru.nodeMap_ (RainLruK.main s))
  ∧ (RainLruK.get k (RainLruK.put k v s)).2 = v.
Proof.
  intros Hc Hk.
  assert (RainLruK.put k v s
          = {| RainLruK.main :=
                 RainLru.put k v (RainLru.get k (RainLruK.main s)).1;
               RainLruK.k_ := RainLruK.k_ s;
               RainLruK.historyList_ := RainLruK.historyList_ s;
               RainLruK.historyValueMap_ := RainLruK.historyValueMap_ s |})
    as Hput.
  { unfold RainLruK.put, RainLru.get. by rewrite Hk. }
  assert (RainLru.nodeMap_ (RainLru.put k v (RainLru.get k (RainLruK.main s)).1)
          = <[k := RainLru.setValue v n]> (RainLru.nodeMap_ (RainLruK.main s)))
    as Hmain.
  { unfold RainLru.get. rewrite Hk. unfold RainLru.put. simpl.
    destruct (Z.leb_spec (RainLru.capacity_ (RainLruK.main s)) 0); [lia|].
    by rewrite Hk. }
  rewrite Hput. simpl. split_and!; [done..|].
  unfold RainLruK.get. simpl. unfold RainLru.get at 1.
  rewrite Hmain, lookup_insert_eq.
  by destruct (RainLruK.bumpHistory k (RainLruK.historyList_ s)).
Qed.
End LruKBounds.

(** ** RainLruHash: lookups after [put] *)

Section ShardedMore.
Context {K : Type} `{Countable K} `{Default K} {V : Type} `{Default V}.
Variable hashFunc : K → Z.
Variable hardware_concurrency : Z.
Implicit Types (s : RainLruHash.t K V) (k j : K) (v : V).

Lemma sharded_put_sliceIndex k v j s :
  RainLruHash.sliceIndex hashFunc j (RainLruHash.put hashFunc k v s)
  = RainLruHash.sliceIndex hashFunc j s.
Proof. unfold RainLruHash.sliceIndex. by rewrite sharded_put_sliceNum. Qed.

(** X11: in a sharded LRU of total capacity 1 or more, [put] then
    [get] of the same key returns the value that was put, after every
    sequence of earlier [put] calls. *)
Theorem sharded_put_get (C N : Z) (l : list (K * V)) k v :
  0 < N < 2 ^ 31 → 1 ≤ C < 2 ^ 53 → RainLruHash.sliceSize C N < 2 ^ 31 →
  let s := RainLruHash.putAll hashFunc l (RainLruHash.init hardware_concurrency C N) in
  (RainLruHash.get hashFunc k (RainLruHash.put hashFunc k v s)).2 = Some v.
Proof.
  intros HN HC Hs s.
  destruct (sliceSize_ceil C N) as [Hs0 Hceil]; [lia..|].
  assert (0 < RainLruHash.sliceSize C N) as Hpos by nia.
  destruct (sharded_wf_init (K := K) (V := V) hardware_concurrency C N)
    as [Hwf0 Hn0]; [lia..|].
  destruct (sharded_wf_putAll hashFunc (RainLruHash.sliceSize C N) l
              (RainLruHash.init hardware_concurrency C N)) as [Hwf Hn];
    [lia|done|]. fold s in Hwf, Hn. rewrite Hn0 in Hn.
  destruct (sharded_put_slice hashFunc (RainLruHash.sliceSize C N) k v s)
    as (x & Hx & Hput); [by rewrite Hn|done|].
  unfold RainLruHash.get. rewrite sharded_put_sliceIndex, Hput.
  rewrite list_lookup_insert_eq by (by eapply lookup_lt_Some).
  destruct Hwf as [_ Hall]. rewrite Forall_forall in Hall.
  destruct (Hall x) as [_ Hcap]; [by eapply list_elem_of_lookup_2|].
  pose proof (lru_put_get_value x k v ltac:(lia)) as Hget.
  by destruct (RainLru.get k (RainLru.put k v x)).
Qed.

(** X12: the slices do not interfere.  A [put] of a key leaves every
    slice but the one of the key as it is, so a [get] of a key in
    another slice returns what it returned before. *)
Theorem sharded_put_other_slice s k v j :
  RainLruHash.sliceIndex hashFunc j s ≠ RainLruHash.sliceIndex hashFunc k s →
  RainLruHash.lruSliceCaches_ (RainLruHash.put hashFunc k v s)
    !! RainLruHash.sliceIndex hashFunc j s
  = RainLruHash.lruSliceCaches_ s !! RainLruHash.sliceIndex hashFunc j s
  ∧ (RainLruHash.get hashFunc j (RainLruHash.put hashFunc k v s)).2
    = (RainLruHash.get hashFunc j s).2.
Proof.
  intros Hne.
  assert (RainLruHash.lruSliceCaches_ (RainLruHash.put hashFunc k v s)
            !! RainLruHash.sliceIndex hashFunc j s
          = RainLruHash.lruSliceCaches_ s !! RainLruHash.sliceIndex hashFunc j s)
    as Hsame.
  { unfold RainLruHash.put.
    destruct (RainLruHash.lruSliceCaches_ s !! RainLruHash.sliceIndex hashFunc k s);
      [|done].
    simpl. by rewrite list_lookup_insert_ne. }
  split; [done|].
  unfold RainLruHash.get. rewrite sharded_put_sliceIndex, Hsame.
  destruct (RainLruHash.lruSliceCaches_ s !! RainLruHash.sliceIndex hashFunc j s)
    as [c|]; [|done].
  by destruct (RainLru.get j c).
Qed.
End ShardedMore.

(** ** ArcLruPart: the recency half on its own *)

Section ArcLruPartMore.
Context {K : Type} `{Countable K} {V : Type} `{Default V}.
Implicit Types (p : ArcLruPart.t K V) (k j : K) (v : V).

Lemma lru_part_step_capacity p (o : ArcLruPart.op K V) :
  0 ≤ ArcLruPart.capacity_ p → ArcLruPart.capacity_ p + 1 < 2 ^ 64 →
  0 ≤ ArcLruPart.capacity_ (ArcLruPart.step p o) ≤ ArcLruPart.capacity_ p + 1.
Proof.
  intros Hp0 Hc. destruct o as [k v|k|k| |]; simpl.
  - rewrite lru_part_put_capacity. lia.
  - rewrite lru_part_get_capacity. lia.
  - unfold ArcLruPart.checkGhost. destruct (ArcLruPart.ghostCache_ p !! k); simpl; lia.
  - rewrite to_size_t_small; lia.
  - destruct (lru_part_decreaseCapacity_spec p Hp0) as [(? & _ & ->)|[? ->]];
      simpl; lia.
Qed.

Lemma lru_part_step_wf p (o : ArcLruPart.op K V) :
  ArcLruPart.capacity_ p + 1 < 2 ^ 64 →
  ArcLruPart.wf_main p → ArcLruPart.wf_main (ArcLruPart.step p o).
Proof.
  intros Hc Hwf. destruct o as [k v|k|k| |]; simpl.
  - by apply lru_part_wf_put.
  - by apply lru_part_wf_get.
  - by apply arc_part_wf_checkGhost.
  - unfold ArcLruPart.increaseCapacity. apply arc_part_wf_grow; [done|].
    destruct Hwf as [_ _ Hsz]. rewrite to_size_t_small; lia.
  - by apply lru_part_wf_decreaseCapacity.
Qed.

Lemma lru_part_run_wf (c T : Z) (ops : list (ArcLruPart.op K V)) :
  0 ≤ c → c + Z.of_nat (length ops) < 2 ^ 64 →
  ArcLruPart.wf_main (ArcLruPart.run ops (ArcLruPart.init c T))
  ∧ 0 ≤ ArcLruPart.capacity_ (ArcLruPart.run ops (ArcLruPart.init c T))
      ≤ c + Z.of_nat (length ops).
Proof.
  intros Hc0 Hlen. unfold ArcLruPart.run.
  induction ops as [|o ops IH] using rev_ind.
  - simpl. split; [|lia]. split; simpl; [constructor| |rewrite map_size_empty; lia].
    intros k. rewrite lookup_empty.
    split; [by intros ?%elem_of_nil|by intros [? ?]].
  - rewrite length_app in *. simpl in *. rewrite foldl_app. simpl.
    destruct IH as [Hwf Hcap]; [lia|].
    split; [apply lru_part_step_wf; [lia|done]|].
    pose proof (lru_part_step_capacity
                  (foldl ArcLruPart.step (ArcLruPart.init c T) ops) o) as Hs.
    lia.
Qed.

(** X13: the live side of the recency half keeps its invariant under
    every sequence of its public operations that is too short to wrap
    the capacity around: each key of the live mapping is linked once
    in the live list and no other key is, and the live mapping is no
    larger than the live capacity at that moment. *)
Theorem lru_part_live_invariant (c T : Z) (ops : list (ArcLruPart.op K V)) :
  0 ≤ c → c + Z.of_nat (length ops) < 2 ^ 64 →
  let p := ArcLruPart.run ops (ArcLruPart.init c T) in
  NoDup (ArcLruPart.mainList p)
  ∧ (∀ k, k ∈ ArcLruPart.mainList p ↔ is_Some (ArcLruPart.mainCache_ p !! k))
  ∧ Z.of_nat (size (ArcLruPart.mainCache_ p)) ≤ ArcLruPart.capacity_ p
  ∧ 0 ≤ ArcLruPart.capacity_ p ≤ c + Z.of_nat (length ops).
Proof.
  intros Hc0 Hlen p.
  destruct (lru_part_run_wf c T ops Hc0 Hlen) as [[Hnd Hl Hsz] Hcap].
  fold p in Hcap. split_and!; [done..|lia|lia].
Qed.

(** X14: [put] then [get] on the recency half returns the value that
    was put, whenever the live capacity is not 0.  [put] does not
    count as an access: the [get] raises the count to 2 for a new key
    and to one more than before the [put] for an update, and it asks
    for the transformation exactly if that count reaches the
    threshold. *)
Theorem lru_part_put_get p k v :
  ArcLruPart.capacity_ p ≠ 0 →
  let count :=
    match ArcLruPart.mainCache_ p !! k with
    | Some node => ArcNode.accessCount_ node
    | None => 1
    end in
  (ArcLruPart.put k v p).2 = true
  ∧ (ArcLruPart.get k (ArcLruPart.put k v p).1).2
    = Some (v, ArcLruPart.transformThreshold_ p <=? count + 1)
  ∧ ArcLruPart.mainCache_ (ArcLruPart.get k (ArcLruPart.put k v p).1).1 !! k
    = Some {| ArcNode.value_ := v; ArcNode.accessCount_ := count + 1 |}
  ∧ head (ArcLruPart.mainList (ArcLruPart.put k v p).1) = Some k.
Proof.
  intros Hc count.
  assert (ArcLruPart.transformThreshold_ (ArcLruPart.evictLeastRecent p)
          = ArcLruPart.transformThreshold_ p) as HT.
  { unfold ArcLruPart.evictLeastRecent.
    destruct (back (ArcLruPart.mainList p)) as [j|]; [|done].
    destruct (ArcLruPart.mainCache_ p !! j); [|done].
    simpl. destruct (_ <=? _); [|done].
    unfold ArcLruPart.removeOldestGhost. simpl.
    by destruct (back (ArcLruPart.ghostList p)). }
  unfold ArcLruPart.put, ArcLruPart.addNewNode, ArcLruPart.updateExistingNode.
  destruct (Z.eqb_spec (ArcLruPart.capacity_ p) 0) as [?|_]; [done|].
  unfold count. clear count.
  destruct (ArcLruPart.mainCache_ p !! k) as [node|]; simpl.
  - unfold ArcLruPart.get, ArcLruPart.updateNodeAccess. simpl.
    rewrite lookup_insert_eq. simpl. by rewrite lookup_insert_eq.
  - unfold ArcLruPart.get, ArcLruPart.updateNodeAccess. simpl.
    rewrite lookup_insert_eq. simpl. rewrite lookup_insert_eq.
    by destruct (ArcLruPart.capacity_ p <=? _); rewrite ?HT.
Qed.

(** X15: eviction feeds the ghost list.  When a [put] of a new key
    finds the well formed half full, the least recently used key, the
    last of the live list, leaves the live mapping and is linked first
    in the ghost list; a ghost check of that key then succeeds, and it
    succeeds once. *)
Theorem lru_part_evicted_key_is_ghost p k v :
  ArcLruPart.wf_main p → ArcLruPart.capacity_ p ≠ 0 →
  ArcLruPart.capacity_ p ≤ Z.of_nat (size (ArcLruPart.mainCache_ p)) →
  ArcLruPart.mainCache_ p !! k = None →
  let p1 := (ArcLruPart.put k v p).1 in
  ∃ k0,
    back (ArcLruPart.mainList p) = Some k0
    ∧ k0 ≠ k
    ∧ ArcLruPart.mainCache_ p1 !! k0 = None
    ∧ is_Some (ArcLruPart.mainCache_ p1 !! k)
    ∧ head (ArcLruPart.ghostList p1) = Some k0
    ∧ (ArcLruPart.checkGhost k0 p1).2 = true
    ∧ (ArcLruPart.checkGhost k0 (ArcLruPart.checkGhost k0 p1).1).2 = false.
Proof.
  intros Hwf Hc Hfull Hk p1. pose proof Hwf as [_ _ Hsz].
  assert (ArcLruPart.mainCache_ p ≠ ∅) as Hne.
  { apply map_size_non_empty_iff. lia. }
  destruct (arc_evict_main p Hwf Hne) as (k0 & Hb & [node Hk0] & Hm & Hlist).
  exists k0. split; [done|]. assert (k0 ≠ k) as Hkk by congruence. split; [done|].
  assert (p1 = ArcLruPart.set_main
                 (<[k := ArcNode.newNode v]>
                    (ArcLruPart.mainCache_ (ArcLruPart.evictLeastRecent p)))
                 (ArcLruPart.addToFront k
                    (ArcLruPart.mainList (ArcLruPart.evictLeastRecent p)))
                 (ArcLruPart.evictLeastRecent p)) as Hp1.
  { unfold p1, ArcLruPart.put, ArcLruPart.addNewNode.
    destruct (Z.eqb_spec (ArcLruPart.capacity_ p) 0) as [?|_]; [done|].
    rewrite Hk. simpl.
    by destruct (Z.leb_spec (ArcLruPart.capacity_ p)
                   (Z.of_nat (size (ArcLruPart.mainCache_ p)))); [|lia]. }
  assert (ArcLruPart.ghostCache_ (ArcLruPart.evictLeastRecent p) !! k0
          = Some (ArcNode.resetAccessCount node)
          ∧ head (ArcLruPart.ghostList (ArcLruPart.evictLeastRecent p)) = Some k0)
    as [Hg Hgl].
  { unfold ArcLruPart.evictLeastRecent. rewrite Hb, Hk0. simpl.
    by rewrite lookup_insert_eq. }
  assert ((ArcLruPart.checkGhost k0 p1).2 = true
          ∧ ArcLruPart.ghostCache_ (ArcLruPart.checkGhost k0 p1).1 !! k0 = None)
    as [Hhit Hgone].
  { destruct (lru_part_checkGhost_hit k0 p1) as (? & ? & _); [|done].
    rewrite Hp1. simpl. by rewrite Hg. }
  split_and!.
  - rewrite Hp1. simpl. rewrite lookup_insert_ne by done. rewrite Hm.
    apply lookup_delete_eq.
  - rewrite Hp1. simpl. by rewrite lookup_insert_eq.
  - by rewrite Hp1.
  - done.
  - by rewrite (lru_part_checkGhost_miss k0 _ Hgone).
Qed.
End ArcLruPartMore.

(** ** RainArc: what is stored and what is found again *)

Section ArcMore.
Context {K : Type} `{Countable K} {V : Type} `{Default V}.
Implicit Types (s : RainArc.t K V) (k : K) (v : V).

(** X16: an ARC cache of capacity 0 never stores anything: every
    sequence of operations leaves it as constructed, and every [get]
    misses. *)
Theorem arc_no_capacity_never_stores (T : Z) (ops : list (RainArc.op K V)) k :
  RainArc.run ops (RainArc.init 0 T) = RainArc.init 0 T
  ∧ RainArc.get k (RainArc.run ops (RainArc.init 0 T)) = (RainArc.init 0 T, None).
Proof.
  assert (∀ j, RainArc.get j (RainArc.init (K := K) (V := V) 0 T)
               = (RainArc.init 0 T, None)) as Hget.
  { intros j. unfold RainArc.get.
    by rewrite arc_checkGhostCaches_miss by apply lookup_empty. }
  assert (∀ j x, RainArc.put j x (RainArc.init (K := K) (V := V) 0 T)
                 = RainArc.init 0 T) as Hput.
  { intros j x. unfold RainArc.put.
    by rewrite arc_checkGhostCaches_miss by apply lookup_empty. }
  assert (RainArc.run ops (RainArc.init (K := K) (V := V) 0 T) = RainArc.init 0 T)
    as Hrun.
  { unfold RainArc.run. induction ops as [|o ops IH] using rev_ind; [done|].
    rewrite foldl_app, IH. simpl. destruct o as [j|j x]; simpl.
    - by rewrite Hget.
    - apply Hput. }
  by rewrite Hrun.
Qed.

(** A [put] into the recency half does not make its key a ghost of
    that half. *)
Lemma lru_part_put_ghost (p : ArcLruPart.t K V) k v :
  ArcLruPart.ghostCache_ p !! k = None →
  ArcLruPart.ghostCache_ (ArcLruPart.put k v p).1 !! k = None.
Proof.
  intros Hg. unfold ArcLruPart.put, ArcLruPart.addNewNode.
  destruct (_ =? 0); [done|].
  destruct (ArcLruPart.mainCache_ p !! k) eqn:Hk; simpl; [done|].
  destruct (_ <=? _); [|done]. by apply arc_evict_ghost_lookup.
Qed.

Lemma lfu_part_decreaseCapacity_ghost (p : ArcLruPart.t K V) k :
  ArcLruPart.ghostCache_ p !! k = None →
  ArcLruPart.mainCache_ p !! k = None →
  ArcLruPart.ghostCache_ (ArcLfuPart.decreaseCapacity p).1 !! k = None.
Proof.
  intros Hg Hm. unfold ArcLfuPart.decreaseCapacity.
  destruct (_ =? 0); [done|]. simpl.
  destruct (_ =? _); [|done]. rewrite lfu_evict_eq. by apply arc_evict_ghost_lookup.
Qed.

(** X17: [put] then [get].  For a key in neither ghost mapping and a
    recency half with live capacity other than 0, the key is live in
    the recency half with the value that was put, [get] returns that
    value, and so does every further [get] of the key. *)
Theorem arc_put_get s k v (n : nat) :
  ArcLruPart.ghostCache_ (RainArc.lruPart_ s) !! k = None →
  ArcLruPart.ghostCache_ (RainArc.lfuPart_ s) !! k = None →
  RainArc.lruCapacity s ≠ 0 →
  RainArc.residentInLru k v (RainArc.put k v s)
  ∧ (RainArc.get k (RainArc.put k v s)).2 = Some v
  ∧ (RainArc.get k (RainArc.gets n k (RainArc.put k v s))).2 = Some v.
Proof.
  intros Hgr Hgf Hc.
  assert (RainArc.residentInLru k v (RainArc.put k v s)) as Hres.
  { rewrite (arc_put_no_ghost s k v Hgr Hgf Hc). split_and!; simpl.
    - by apply lru_part_put_lookup.
    - by apply lru_part_put_ghost.
    - by apply lfu_part_put_ghost. }
  split; [done|]. split.
  - by apply arc_get_resident.
  - by apply arc_gets_resident.
Qed.

(** X18: readmission.  In a cache constructed with capacity 1 or more,
    a [put] of a key that is a ghost of the recency half, and neither
    live nor a ghost in the frequency half, takes the key out of the
    ghost mapping and makes it live in the recency half with the new
    value, which [get] then returns. *)
Theorem arc_put_readmits_ghost (C T : Z) (ops : list (RainArc.op K V)) k v :
  1 ≤ C → 2 * C < 2 ^ 64 →
  let s := RainArc.run ops (RainArc.init C T) in
  ArcLruPart.ghostCache_ (RainArc.lruPart_ s) !! k ≠ None →
  ArcLruPart.ghostCache_ (RainArc.lfuPart_ s) !! k = None →
  ArcLruPart.mainCache_ (RainArc.lfuPart_ s) !! k = None →
  RainArc.residentInLru k v (RainArc.put k v s)
  ∧ (RainArc.get k (RainArc.put k v s)).2 = Some v.
Proof.
  intros HC1 HC s Hgr Hgf Hmf.
  destruct (arc_balanced_run C T ops ltac:(lia) HC) as (Hr0 & Hf0 & Hsum).
  fold s in Hr0, Hf0, Hsum.
  destruct (arc_checkGhostCaches_lru_hit k s) as (Hhit & Hgone & Hf & Hcase);
    [done|lia|done|done|].
  assert (RainArc.lruCapacity (RainArc.checkGhostCaches k s).1 ≠ 0) as Hc.
  { destruct Hcase as [(? & _ & ->)|(? & _ & ->)]; lia. }
  assert (RainArc.residentInLru k v (RainArc.put k v s)) as Hres.
  { unfold RainArc.put. unfold RainArc.lruCapacity in Hc.
    destruct (RainArc.checkGhostCaches k s) as [s1 g]. simpl in *. subst g.
    simpl. split_and!.
    - by apply lru_part_put_lookup.
    - by apply lru_part_put_ghost.
    - rewrite Hf. by apply lfu_part_decreaseCapacity_ghost. }
  split; [done|]. by apply arc_get_resident.
Qed.
End ArcMore.

(** ** The further properties on integer keys and string values *)

(** [put] then [get] in an LRU of capacity 2 that is full. *)
Lemma lru_put_get_witness :
  let s : RainLru.t Z string :=
    RainLru.run [RainLru.Put 1 "a"; RainLru.Put 2 "b"]%string (RainLru.init 2) in
  0 < RainLru.capacity_ s
  ∧ (RainLru.get 3 (RainLru.put 3 "c"%string s)).2 = Some "c"%string
  ∧ last (RainLru.list_ (RainLru.put 3 "c"%string s)) = Some 3.
Proof.
  intros s. assert (0 < RainLru.capacity_ s) as Hc by reflexivity.
  split; [exact Hc|]. exact (lru_put_get s 3 "c"%string Hc).
Defined.

(** The invariant after five operations on an LRU of capacity 2. *)
Lemma lru_invariant_witness :
  let s : RainLru.t Z string :=
    RainLru.run [RainLru.Put 1 "a"; RainLru.Put 2 "b"; RainLru.Get 1;
                 RainLru.Put 3 "c"; RainLru.Remove 1]%string (RainLru.init 2) in
  - 2 ^ 31 ≤ 2 < 2 ^ 31
  ∧ length (RainLru.list_ s) = size (RainLru.nodeMap_ s)
  ∧ Z.of_nat (size (RainLru.nodeMap_ s)) ≤ Z.max 0 2.
Proof.
  intros s.
  assert (- 2 ^ 31 ≤ 2 < 2 ^ 31) as Hc by (vm_compute; intuition congruence).
  split; [exact Hc|].
  destruct (lru_invariant (K := Z) (V := string) 2
              [RainLru.Put 1 "a"; RainLru.Put 2 "b"; RainLru.Get 1;
               RainLru.Put 3 "c"; RainLru.Remove 1]%string Hc)
    as (_ & _ & _ & Hlen & Hsz).
  split; [exact Hlen|exact Hsz].
Defined.

(** An LRU of capacity 0 after two [put] calls. *)
Lemma lru_no_capacity_never_stores_witness :
  0 ≤ 0
  ∧ RainLru.run [RainLru.Put 1 "a"; RainLru.Put 2 "b"]%string
      (RainLru.init (K := Z) 0) = RainLru.init 0
  ∧ RainLru.get 1
      (RainLru.run [RainLru.Put 1 "a"; RainLru.Put 2 "b"]%string
         (RainLru.init (K := Z) 0))
    = (RainLru.init 0, None).
Proof.
  assert (0 ≤ 0) as Hc by (vm_compute; congruence).
  split; [exact Hc|].
  exact (lru_no_capacity_never_stores (K := Z) (V := string) 0
           [RainLru.Put 1 "a"; RainLru.Put 2 "b"]%string 1 Hc).
Defined.

(** [put] of key 3 into a full LRU of capacity 2 that holds the keys
    1 and 2, of which key 1 is the least recently used. *)
Lemma lru_put_new_key_witness :
  let s : RainLru.t Z string :=
    RainLru.run [RainLru.Put 1 "a"; RainLru.Put 2 "b"]%string (RainLru.init 2) in
  ∃ k0 rest,
    RainLru.list_ s = k0 :: rest
    ∧ k0 ≠ 3
    ∧ RainLru.nodeMap_ (RainLru.put 3 "c"%string s)
      = <[3 := RainLru.newNode "c"%string]> (delete k0 (RainLru.nodeMap_ s))
    ∧ RainLru.list_ (RainLru.put 3 "c"%string s) = rest ++ [3].
Proof.
  intros s.
  assert (RainLru.wf s) as Hwf.
  { apply lru_wf_run; [reflexivity|apply lru_wf_init]. }
  assert (0 < RainLru.capacity_ s < 2 ^ 64) as Hc by (split; reflexivity).
  assert (RainLru.nodeMap_ s !! 3 = None) as Hk by reflexivity.
  apply (lru_put_new_key s 3 "c"%string Hwf Hc Hk).
  vm_compute. congruence.
Defined.

(** Key 1 is touched in a full LRU of capacity 2 and survives the
    [put] of key 3. *)
Lemma lru_hit_survives_next_put_witness :
  let s : RainLru.t Z string :=
    RainLru.run [RainLru.Put 1 "a"; RainLru.Put 2 "b"]%string (RainLru.init 2) in
  RainLru.nodeMap_ (RainLru.put 3 "c"%string (RainLru.get 1 s).1) !! 1
  = Some (RainLru.newNode "a"%string)
  ∧ RainLru.nodeMap_ (RainLru.put 3 "c"%string (RainLru.put 1 "x"%string s)) !! 1
    = Some (RainLru.setValue "x"%string (RainLru.newNode "a"%string)).
Proof.
  intros s.
  assert (RainLru.wf s) as Hwf.
  { apply lru_wf_run; [reflexivity|apply lru_wf_init]. }
  assert (2 ≤ RainLru.capacity_ s < 2 ^ 64) as Hc
    by (vm_compute; intuition congruence).
  apply (lru_hit_survives_next_put s 1 3 "x"%string "c"%string _ Hwf Hc);
    reflexivity.
Defined.

(** [remove] of key 1 from a full LRU of capacity 2, and the [put] of
    key 3 after it. *)
Lemma lru_remove_frees_slot_witness :
  let s : RainLru.t Z string :=
    RainLru.run [RainLru.Put 1 "a"; RainLru.Put 2 "b"]%string (RainLru.init 2) in
  (RainLru.get 1 (RainLru.remove 1 s)).2 = None
  ∧ RainLru.nodeMap_ (RainLru.remove 1 s) !! 2 = RainLru.nodeMap_ s !! 2
  ∧ RainLru.remove 3 s = s
  ∧ RainLru.nodeMap_ (RainLru.put 3 "c"%string (RainLru.remove 1 s))
    = <[3 := RainLru.newNode "c"%string]> (delete 1 (RainLru.nodeMap_ s)).
Proof.
  intros s.
  destruct (lru_remove_frees_slot s 1) as (Hget & Hother & _ & Hslot).
  destruct (lru_remove_frees_slot s 3) as (_ & _ & Hmiss & _).
  assert (RainLru.wf s) as Hwf.
  { apply lru_wf_run; [reflexivity|apply lru_wf_init]. }
  split_and!.
  - exact Hget.
  - apply Hother. vm_compute. congruence.
  - apply Hmiss. reflexivity.
  - apply Hslot; [exact Hwf|split; reflexivity|vm_compute; eauto|reflexivity].
Defined.

(** Three [put] calls of key 1 on a new LRU-K cache with K = 3. *)
Lemma lruk_admitted_by_kth_put_witness :
  let s : RainLruK.t Z string :=
    RainLruK.putAll (map (λ x, (1, x)) ["a"; "b"]%string) (RainLruK.init 2 4 3) in
  (1 ≤ 2 < 2 ^ 31 ∧ 1 ≤ 4 < 2 ^ 31 ∧ 1 ≤ 3 < 2 ^ 31)
  ∧ RainLru.nodeMap_ (RainLruK.main s) = ∅
  ∧ RainLruK.historyValueMap_ s !! 1 = Some "b"%string
  ∧ RainLru.nodeMap_ (RainLruK.main (RainLruK.put 1 "c"%string s))
    = {[ 1 := RainLru.newNode "c"%string ]}
  ∧ (RainLruK.get 1 (RainLruK.put 1 "c"%string s)).2 = "c"%string.
Proof.
  intros s.
  assert (1 ≤ 2 < 2 ^ 31 ∧ 1 ≤ 4 < 2 ^ 31 ∧ 1 ≤ 3 < 2 ^ 31) as Hpre
    by (vm_compute; intuition congruence).
  split; [exact Hpre|]. destruct Hpre as (HC & HH & HK).
  destruct (lruk_admitted_by_kth_put (K := Z) (V := string) 2 4 3 1
              ["a"; "b"]%string "c"%string HC HH HK eq_refl)
    as (Hm & Hv & Hmain & _ & _ & Hget).
  split_and!; [exact Hm|exact Hv|exact Hmain|exact Hget].
Defined.

(** The bounds after six operations on an LRU-K cache with main
    capacity 1, history capacity 2 and K = 2. *)
Lemma lruk_invariant_witness :
  let s : RainLruK.t Z string :=
    RainLruK.run [RainLruK.Put 1 "a"; RainLruK.Get 1; RainLruK.Put 2 "b";
                  RainLruK.Put 3 "c"; RainLruK.Put 2 "d"; RainLruK.Get 3]%string
      (RainLruK.init 1 2 2) in
  (- 2 ^ 31 ≤ 1 < 2 ^ 31 ∧ - 2 ^ 31 ≤ 2 < 2 ^ 31)
  ∧ Z.of_nat (size (RainLru.nodeMap_ (RainLruK.main s))) ≤ Z.max 0 1
  ∧ Z.of_nat (size (RainLru.nodeMap_ (RainLruK.historyList_ s))) ≤ Z.max 0 2.
Proof.
  intros s.
  assert (- 2 ^ 31 ≤ 1 < 2 ^ 31 ∧ - 2 ^ 31 ≤ 2 < 2 ^ 31) as Hpre
    by (vm_compute; intuition congruence).
  split; [exact Hpre|]. destruct Hpre as (HC & HH).
  destruct (lruk_invariant (K := Z) (V := string) 1 2 2
              [RainLruK.Put 1 "a"; RainLruK.Get 1; RainLruK.Put 2 "b";
               RainLruK.Put 3 "c"; RainLruK.Put 2 "d"; RainLruK.Get 3]%string
              HC HH) as (Hm & Hh & _).
  split; [exact Hm|exact Hh].
Defined.

(** A [put] of key 1 after it was admitted to the main cache. *)
Lemma lruk_put_resident_witness :
  let s : RainLruK.t Z string :=
    RainLruK.run [RainLruK.Put 1 "a"; RainLruK.Put 1 "b"]%string
      (RainLruK.init 2 4 2) in
  RainLru.nodeMap_ (RainLruK.main s) !! 1 = Some (RainLru.newNode "b"%string)
  ∧ RainLruK.historyList_ (RainLruK.put 1 "c"%string s) = RainLruK.historyList_ s
  ∧ RainLruK.historyValueMap_ (RainLruK.put 1 "c"%string s)
    = RainLruK.historyValueMap_ s
  ∧ (RainLruK.get 1 (RainLruK.put 1 "c"%string s)).2 = "c"%string.
Proof.
  intros s.
  assert (0 < RainLru.capacity_ (RainLruK.main s)) as Hc by reflexivity.
  assert (RainLru.nodeMap_ (RainLruK.main s) !! 1
          = Some (RainLru.newNode "b"%string)) as Hk by reflexivity.
  split; [exact Hk|].
  destruct (lruk_put_resident s 1 "c"%string _ Hc Hk) as (Hh & Hv & _ & Hget).
  split_and!; [exact Hh|exact Hv|exact Hget].
Defined.

(** [put] then [get] of key 7 in a sharded LRU of total capacity 4
    with 2 slices, after three earlier [put] calls. *)
Lemma sharded_put_get_witness :
  let hashFunc : Z → Z := λ k, k in
  let s : RainLruHash.t Z string :=
    RainLruHash.putAll hashFunc [(1, "a"); (3, "b"); (5, "c")]%string
      (RainLruHash.init 8 4 2) in
  (0 < 2 < 2 ^ 31 ∧ 1 ≤ 4 < 2 ^ 53 ∧ RainLruHash.sliceSize 4 2 < 2 ^ 31)
  ∧ (RainLruHash.get hashFunc 7 (RainLruHash.put hashFunc 7 "d"%string s)).2
    = Some "d"%string.
Proof.
  intros hashFunc s.
  assert (0 < 2 < 2 ^ 31 ∧ 1 ≤ 4 < 2 ^ 53 ∧ RainLruHash.sliceSize 4 2 < 2 ^ 31)
    as Hpre by (vm_compute; intuition congruence).
  split; [exact Hpre|]. destruct Hpre as (HN & HC & Hs).
  exact (sharded_put_get (K := Z) (V := string) hashFunc 8 4 2
           [(1, "a"); (3, "b"); (5, "c")]%string 7 "d"%string HN HC Hs).
Defined.

(** Key 2 is in slice 0 and key 7 in slice 1 of a sharded LRU with 2
    slices. *)
Lemma sharded_put_other_slice_witness :
  let hashFunc : Z → Z := λ k, k in
  let s : RainLruHash.t Z string :=
    RainLruHash.putAll hashFunc [(1, "a"); (2, "b"); (3, "c")]%string
      (RainLruHash.init 8 2 2) in
  RainLruHash.sliceIndex hashFunc 2 s ≠ RainLruHash.sliceIndex hashFunc 7 s
  ∧ (RainLruHash.get hashFunc 2 (RainLruHash.put hashFunc 7 "d"%string s)).2
    = (RainLruHash.get hashFunc 2 s).2
  ∧ (RainLruHash.get hashFunc 2 s).2 = Some "b"%string.
Proof.
  intros hashFunc s.
  assert (RainLruHash.sliceIndex hashFunc 2 s ≠ RainLruHash.sliceIndex hashFunc 7 s)
    as Hne by (vm_compute; congruence).
  split; [exact Hne|].
  destruct (sharded_put_other_slice hashFunc s 7 "d"%string 2 Hne) as [_ Hget].
  split; [exact Hget|reflexivity].
Defined.

(** The recency half of capacity 1 after five of its operations. *)
Lemma lru_part_live_invariant_witness :
  let p : ArcLruPart.t Z string :=
    ArcLruPart.run [ArcLruPart.Put 1 "a"; ArcLruPart.IncreaseCapacity;
                    ArcLruPart.Put 2 "b"; ArcLruPart.DecreaseCapacity;
                    ArcLruPart.Get 2]%string (ArcLruPart.init 1 2) in
  (0 ≤ 1 ∧ 1 + 5 < 2 ^ 64)
  ∧ Z.of_nat (size (ArcLruPart.mainCache_ p)) ≤ ArcLruPart.capacity_ p
  ∧ ArcLruPart.capacity_ p = 1.
Proof.
  intros p.
  assert (0 ≤ 1 ∧ 1 + 5 < 2 ^ 64) as Hpre by (vm_compute; intuition congruence).
  split; [exact Hpre|]. destruct Hpre as (Hc & Hlen).
  destruct (lru_part_live_invariant (K := Z) (V := string) 1 2
              [ArcLruPart.Put 1 "a"; ArcLruPart.IncreaseCapacity;
               ArcLruPart.Put 2 "b"; ArcLruPart.DecreaseCapacity;
               ArcLruPart.Get 2]%string Hc Hlen) as (_ & _ & Hsz & _).
  split; [exact Hsz|reflexivity].
Defined.

(** [put] then [get] of a new key and of a resident key in a recency
    half of capacity 2 with threshold 2. *)
Lemma lru_part_put_get_witness :
  let p : ArcLruPart.t Z string :=
    (ArcLruPart.put 1 "a"%string (ArcLruPart.init 2 2)).1 in
  ArcLruPart.capacity_ p ≠ 0
  ∧ (ArcLruPart.get 2 (ArcLruPart.put 2 "b"%string p).1).2
    = Some ("b"%string, true)
  ∧ (ArcLruPart.get 1 (ArcLruPart.put 1 "c"%string p).1).2
    = Some ("c"%string, true).
Proof.
  intros p.
  assert (ArcLruPart.capacity_ p ≠ 0) as Hc by (vm_compute; congruence).
  split; [exact Hc|].
  destruct (lru_part_put_get p 2 "b"%string Hc) as (_ & Hnew & _).
  destruct (lru_part_put_get p 1 "c"%string Hc) as (_ & Hupd & _).
  split; [exact Hnew|exact Hupd].
Defined.

(** [put] of key 3 into a full recency half of capacity 2 evicts key
    1 into the ghost list. *)
Lemma lru_part_evicted_key_is_ghost_witness :
  let p : ArcLruPart.t Z string :=
    ArcLruPart.run [ArcLruPart.Put 1 "a"; ArcLruPart.Put 2 "b"]%string
      (ArcLruPart.init 2 2) in
  let p1 := (ArcLruPart.put 3 "c"%string p).1 in
  ∃ k0,
    back (ArcLruPart.mainList p) = Some k0
    ∧ k0 ≠ 3
    ∧ ArcLruPart.mainCache_ p1 !! k0 = None
    ∧ is_Some (ArcLruPart.mainCache_ p1 !! 3)
    ∧ head (ArcLruPart.ghostList p1) = Some k0
    ∧ (ArcLruPart.checkGhost k0 p1).2 = true
    ∧ (ArcLruPart.checkGhost k0 (ArcLruPart.checkGhost k0 p1).1).2 = false.
Proof.
  intros p.
  assert (ArcLruPart.wf_main p) as Hwf.
  { apply lru_part_run_wf; vm_compute; congruence. }
  apply (lru_part_evicted_key_is_ghost p 3 "c"%string Hwf);
    vm_compute; congruence.
Defined.

(** [put] then [get] of key 3 in an ARC cache of capacity 2. *)
Lemma arc_put_get_witness :
  let s : RainArc.t Z string :=
    RainArc.run [RainArc.Put 1 "a"; RainArc.Put 2 "b"]%string (RainArc.init 2 2) in
  RainArc.lruCapacity s ≠ 0
  ∧ (RainArc.get 3 (RainArc.put 3 "c"%string s)).2 = Some "c"%string
  ∧ (RainArc.get 3 (RainArc.gets 4 3 (RainArc.put 3 "c"%string s))).2
    = Some "c"%string.
Proof.
  intros s.
  assert (RainArc.lruCapacity s ≠ 0) as Hc by (vm_compute; congruence).
  split; [exact Hc|].
  destruct (arc_put_get s 3 "c"%string 4 eq_refl eq_refl Hc) as (_ & Hget & Hgets).
  split; [exact Hget|exact Hgets].
Defined.

(** In an ARC cache of capacity 1, after [put] of the keys 1, 2, 1, 2
    key 1 is a ghost of the recency half only, and [put] readmits
    it. *)
Lemma arc_put_readmits_ghost_witness :
  let ops := [RainArc.Put 1 "a"; RainArc.Put 2 "b"; RainArc.Put 1 "c";
              RainArc.Put 2 "d"]%string in
  let s : RainArc.t Z string := RainArc.run ops (RainArc.init 1 2) in
  (1 ≤ 1 ∧ 2 * 1 < 2 ^ 64)
  ∧ ArcLruPart.ghostCache_ (RainArc.lruPart_ s) !! 1 ≠ None
  ∧ RainArc.residentInLru 1 "e"%string (RainArc.put 1 "e"%string s)
  ∧ (RainArc.get 1 (RainArc.put 1 "e"%string s)).2 = Some "e"%string.
Proof.
  intros ops s.
  assert (1 ≤ 1 ∧ 2 * 1 < 2 ^ 64) as Hpre by (vm_compute; intuition congruence).
  split; [exact Hpre|]. destruct Hpre as (HC1 & HC).
  assert (ArcLruPart.ghostCache_ (RainArc.lruPart_ s) !! 1 ≠ None) as Hg
    by (vm_compute; congruence).
  split; [exact Hg|].
  exact (arc_put_readmits_ghost (K := Z) (V := string) 1 2 ops 1 "e"%string
           HC1 HC Hg eq_refl eq_refl).
Defined.

(** The live sizes after the ten [put] calls that overfill the ghost
    mapping of the recency half. *)
Lemma arc_live_size_le_capacity_witness :
  let ops := map (λ k : Z, RainArc.Put k "v"%string) [1; 2; 3; 1; 2; 1; 2; 4; 5; 3] in
  let s : RainArc.t Z string := RainArc.run ops (RainArc.init 2 2) in
  (0 ≤ 2 ∧ 2 * 2 < 2 ^ 64)
  ∧ Z.of_nat (size (ArcLruPart.mainCache_ (RainArc.lruPart_ s)))
    ≤ RainArc.lruCapacity s
  ∧ Z.of_nat (size (ArcLruPart.mainCache_ (RainArc.lfuPart_ s)))
    ≤ RainArc.lfuCapacity s.
Proof.
  intros ops s.
  assert (0 ≤ 2 ∧ 2 * 2 < 2 ^ 64) as Hpre by (vm_compute; intuition congruence).
  split; [exact Hpre|]. destruct Hpre as (HC0 & HC).
  exact (arc_live_size_le_capacity (K := Z) (V := string) 2 2 ops HC0 HC).
Defined.
